(** * Command security policy: blocklist checker and security hooks

    A shallow embedding of [BlocklistChecker.ts] (command normalisation,
    command-name extraction, blocklist matching, pattern validation), of the
    hook-input guards of [typeGuards.ts] and of the two PreToolUse hooks of
    the security-hooks module, then of the path, name and id helpers of
    [SlashCommandStorage], of the [TtlMap] class and of [selectModelUsage],
    followed by the properties proved about them.

    JavaScript strings are sequences of UTF-16 code units, modelled as
    [list N].  The string methods the code relies on ([split], [replace],
    [trim], [join], [includes], [RegExp.prototype.test]) are modelled after
    ECMA-262 on top of a small backtracking regular-expression matcher. *)

From Stdlib Require Import List Bool Arith NArith ZArith Lia String Ascii.
Import ListNotations.

Set Implicit Arguments.
Set Warnings "-register-all".

(* ===================================================================== *)
(** ** JavaScript strings                                                 *)
(* ===================================================================== *)

Module JS.

(** A UTF-16 code unit. *)
Definition char := N.

Definition jsstring := list char.

(** ASCII literal: [js "rm -rf"] is the code-unit sequence of the text. *)
Definition js (s : string) : jsstring :=
  List.map N_of_ascii (list_ascii_of_string s).

Arguments js s%_string.

Fixpoint eqb (a b : jsstring) : bool :=
  match a, b with
  | [], [] => true
  | x :: a', y :: b' => N.eqb x y && eqb a' b'
  | _, _ => false
  end.

(** Truthiness of a string value: only the empty string is falsy. *)
Definition truthy (s : jsstring) : bool :=
  match s with [] => false | _ :: _ => true end.

(** ECMA-262 WhiteSpace and LineTerminator code points: the set matched by
    the class escape [\s] and stripped by [String.prototype.trim]. *)
Definition is_space (c : char) : bool :=
  ((9 <=? c) && (c <=? 13) || (c =? 32) || (c =? 160) || (c =? 5760)
   || (8192 <=? c) && (c <=? 8202) || (c =? 8232) || (c =? 8233)
   || (c =? 8239) || (c =? 8287) || (c =? 12288) || (c =? 65279))%N.

(** Basic word characters [[A-Za-z0-9_]], used by [\b] when the [u] flag is
    absent. *)
Definition is_word_char (c : char) : bool :=
  ((48 <=? c) && (c <=? 57) || (65 <=? c) && (c <=? 90) || (c =? 95)
   || (97 <=? c) && (c <=? 122))%N.

(** Case folding of the ASCII letters. *)
Definition ascii_upper (c : char) : char :=
  if ((97 <=? c) && (c <=? 122))%N then (c - 32)%N else c.

Definition ascii_lower (c : char) : char :=
  if ((65 <=? c) && (c <=? 90))%N then (c + 32)%N else c.

Definition is_ascii (c : char) : bool := (c <? 128)%N.

(** *** Regular expressions

    The fragment of the pattern grammar used by the regex literals of the
    code.  [Char c] is a pattern character, [CharSet p] a character class
    or class escape, [WordBoundary] the assertion [\b], [InputStart] and
    [InputEnd] the assertions [^] and [$] (no [m] flag), [Disj] tries its
    left alternative first and [Star] is the greedy quantifier [*]. *)
Inductive RegExp : Type :=
| Empty
| Char (c : char)
| CharSet (p : char -> bool)
| WordBoundary
| InputStart
| InputEnd
| Seq (r1 r2 : RegExp)
| Disj (r1 r2 : RegExp)
| Star (r : RegExp).

(** State of the matcher: the code unit before the current position (if
    any) and the input that remains. *)
Definition mstate : Type := option char * jsstring.

Definition Continuation := option char -> jsstring -> option mstate.

(** Canonicalize of ECMA-262 without the [u] flag, for patterns whose
    characters and classes are ASCII: a code unit of 128 or more never
    folds into the ASCII range, so only the ASCII letters need folding. *)
Definition canonicalize (ignoreCase : bool) (c : char) : char :=
  if ignoreCase then ascii_upper c else c.

(** Membership in a class: with [i], some member of the class has the
    same canonical form as the input code unit. *)
Definition in_class (ignoreCase : bool) (p : char -> bool) (x : char) : bool :=
  p x || (ignoreCase && (p (ascii_lower x) || p (ascii_upper x))).

Definition opt_word (o : option char) : bool :=
  match o with Some c => is_word_char c | None => false end.

Definition at_word_boundary (prev : option char) (s : jsstring) : bool :=
  xorb (opt_word prev) (opt_word (List.hd_error s)).

(** The backtracking matcher, in continuation-passing style as in the
    specification's semantics.  An iteration of [Star] that consumes no
    input is rejected; the inner loop runs on a counter that starts at the
    length of the remaining input. *)
Fixpoint matcher (ic : bool) (r : RegExp) (prev : option char) (s : jsstring)
         (k : Continuation) {struct r} : option mstate :=
  match r with
  | Empty => k prev s
  | Char c =>
      match s with
      | x :: s' =>
          if N.eqb (canonicalize ic x) (canonicalize ic c)
          then k (Some x) s' else None
      | [] => None
      end
  | CharSet p =>
      match s with
      | x :: s' => if in_class ic p x then k (Some x) s' else None
      | [] => None
      end
  | WordBoundary => if at_word_boundary prev s then k prev s else None
  | InputStart => match prev with None => k prev s | Some _ => None end
  | InputEnd => match s with [] => k prev s | _ :: _ => None end
  | Seq r1 r2 =>
      matcher ic r1 prev s (fun prev' s' => matcher ic r2 prev' s' k)
  | Disj r1 r2 =>
      match matcher ic r1 prev s k with
      | Some st => Some st
      | None => matcher ic r2 prev s k
      end
  | Star r1 =>
      (fix repeat (n : nat) (prev : option char) (s : jsstring) : option mstate :=
         match n with
         | O => k prev s
         | S n' =>
             match matcher ic r1 prev s
                     (fun prev' s' =>
                        if List.length s' <? List.length s
                        then repeat n' prev' s' else None) with
             | Some st => Some st
             | None => k prev s
             end
         end) (List.length s) prev s
  end.

(** The quantifier [+]. *)
Definition Plus (r : RegExp) : RegExp := Seq r (Star r).

(** A match attempt anchored at the current position. *)
Definition exec_at (ic : bool) (r : RegExp) (prev : option char) (s : jsstring)
  : option mstate :=
  matcher ic r prev s (fun prev' s' => Some (prev', s')).

(** [RegExp.prototype.test] for a regex without [g]/[y]: the first start
    position, from 0 to the length of the input, at which a match exists. *)
Fixpoint search (ic : bool) (r : RegExp) (prev : option char) (s : jsstring) : bool :=
  match exec_at ic r prev s with
  | Some _ => true
  | None =>
      match s with
      | [] => false
      | c :: s' => search ic r (Some c) s'
      end
  end.

Definition test (ic : bool) (r : RegExp) (s : jsstring) : bool :=
  search ic r None s.

(** [String.prototype.replace] with a global regex and a replacement
    string: matches are found left to right from [lastIndex]; after an
    empty match [lastIndex] advances by one code unit. *)
Fixpoint replace_loop (n : nat) (r : RegExp) (by_ : jsstring)
         (prev : option char) (s : jsstring) : jsstring :=
  match n with
  | O => s
  | S n' =>
      let step :=
        match s with
        | [] => []
        | c :: s' => c :: replace_loop n' r by_ (Some c) s'
        end in
      match exec_at false r prev s with
      | Some (prev', rest) =>
          if List.length rest <? List.length s
          then by_ ++ replace_loop n' r by_ prev' rest
          else by_ ++ step
      | None => step
      end
  end.

Definition replace_all (r : RegExp) (by_ : jsstring) (s : jsstring) : jsstring :=
  replace_loop (S (List.length s)) r by_ None s.

(** [String.prototype.split] with a regex separator (no capture groups, no
    limit).  [acc] holds, reversed, the code units since the start [p] of
    the current piece; [s] is the input from the scan position [q]. *)
Fixpoint split_loop (n : nat) (r : RegExp) (acc : jsstring)
         (prev : option char) (s : jsstring) : list jsstring :=
  match n with
  | O => [List.rev acc ++ s]
  | S n' =>
      match s with
      | [] => [List.rev acc]
      | c :: s' =>
          match exec_at false r prev s with
          | None => split_loop n' r (c :: acc) (Some c) s'
          | Some (prev', rest) =>
              if (List.length rest =? List.length s) && negb (truthy acc)
              then split_loop n' r (c :: acc) (Some c) s'
              else List.rev acc :: split_loop n' r [] prev' rest
          end
      end
  end.

Definition split (r : RegExp) (s : jsstring) : list jsstring :=
  match s with
  | [] => match exec_at false r None [] with Some _ => [] | None => [[]] end
  | _ :: _ => split_loop (S (2 * List.length s)) r [] None s
  end.

(** [Array.prototype.join]. *)
Fixpoint join (sep : jsstring) (parts : list jsstring) : jsstring :=
  match parts with
  | [] => []
  | [p] => p
  | p :: ps => p ++ sep ++ join sep ps
  end.

Fixpoint trimStart (s : jsstring) : jsstring :=
  match s with
  | c :: s' => if is_space c then trimStart s' else s
  | [] => []
  end.

Definition trimEnd (s : jsstring) : jsstring :=
  List.rev (trimStart (List.rev s)).

(** [String.prototype.trim]. *)
Definition trim (s : jsstring) : jsstring := trimEnd (trimStart s).

Fixpoint startsWith (s sub : jsstring) : bool :=
  match sub, s with
  | [], _ => true
  | y :: sub', x :: s' => N.eqb x y && startsWith s' sub'
  | _ :: _, [] => false
  end.

(** [String.prototype.includes]. *)
Fixpoint includes (s sub : jsstring) : bool :=
  startsWith s sub ||
  match s with
  | [] => false
  | _ :: s' => includes s' sub
  end.

(** [Array.prototype.includes] on an array of strings. *)
Definition array_includes (arr : list jsstring) (x : jsstring) : bool :=
  List.existsb (eqb x) arr.

End JS.

Import JS.

(* ===================================================================== *)
(** ** Node's [path.basename] (POSIX flavour)                             *)
(* ===================================================================== *)

Module Path.

Definition slash : char := 47%N.

Fixpoint dropSlashes (s : jsstring) : jsstring :=
  match s with
  | c :: s' => if N.eqb c slash then dropSlashes s' else s
  | [] => []
  end.

Fixpoint takeToSlash (s : jsstring) : jsstring :=
  match s with
  | c :: s' => if N.eqb c slash then [] else c :: takeToSlash s'
  | [] => []
  end.

(** [path.posix.basename(p)]: scanning from the end, trailing slashes are
    skipped ([end] is set at the last non-slash code unit) and the scan
    stops at the first slash met after that ([start]). *)
Definition basename (p : jsstring) : jsstring :=
  List.rev (takeToSlash (dropSlashes (List.rev p))).

End Path.

(* ===================================================================== *)
(** ** BlocklistChecker                                                   *)
(* ===================================================================== *)

Definition quote : char := 39%N.
Definition dquote : char := 34%N.
Definition backtick : char := 96%N.
Definition backslash : char := 92%N.
Definition space : char := 32%N.
Definition pipe : char := 124%N.
Definition amp : char := 38%N.
Definition semicolon : char := 59%N.

(** [/''|""|``/g] *)
Definition re_empty_quotes : RegExp :=
  Disj (Seq (Char quote) (Char quote))
       (Disj (Seq (Char dquote) (Char dquote))
             (Seq (Char backtick) (Char backtick))).

(** [/\\/g] *)
Definition re_backslash : RegExp := Char backslash.

(** [/\s+/] *)
Definition re_spaces : RegExp := Plus (CharSet is_space).

Definition is_single_separator (c : char) : bool :=
  N.eqb c pipe || N.eqb c semicolon || N.eqb c amp.

(** [/\s*(?:\|\||&&|[|;&])\s*/] *)
Definition re_separator : RegExp :=
  Seq (Star (CharSet is_space))
      (Seq (Disj (Seq (Char pipe) (Char pipe))
                 (Disj (Seq (Char amp) (Char amp))
                       (CharSet is_single_separator)))
           (Star (CharSet is_space))).

Definition normalizeCommand (command : jsstring) : jsstring :=
  let normalized := replace_all re_empty_quotes [] command in
  let parts := split re_spaces normalized in
  match parts with
  | p0 :: ps => join [space] (replace_all re_backslash [] p0 :: ps)
  | [] => normalized
  end.

Definition extractCommandName (commandToken : jsstring) : jsstring :=
  Path.basename commandToken.

Definition wrappers : list jsstring :=
  [js "sudo"; js "env"; js "command"; js "nohup"; js "nice"; js "time"].

(** The loop [while (i < tokens.length && wrappers.includes(tokens[i])) i++];
    [rest] is [tokens] from index [i] on. *)
Fixpoint skipWrappers (rest : list jsstring) (i : nat) : nat :=
  match rest with
  | t :: rest' => if array_includes wrappers t then skipWrappers rest' (S i) else i
  | [] => i
  end.

(** The command token chosen among the tokens of one segment:
    [tokens[0]], replaced by [tokens[i]] when the wrapper loop stops
    inside the array. *)
Definition commandToken (tokens : list jsstring) : option jsstring :=
  let i := skipWrappers tokens 0 in
  match List.nth_error tokens i with
  | Some t => Some t
  | None => List.nth_error tokens 0
  end.

(** One iteration of the loop over segments: the names it pushes. *)
Definition segmentCommandNames (segment : jsstring) : list jsstring :=
  let trimmed := trim segment in
  if negb (truthy trimmed) then []
  else
    match commandToken (split re_spaces trimmed) with
    | Some cmdToken =>
        if truthy cmdToken then [extractCommandName cmdToken] else []
    | None => []
    end.

Definition extractAllCommandNames (command : jsstring) : list jsstring :=
  List.flat_map segmentCommandNames (split re_separator command).

(** Result of [new RegExp(pattern, 'i')]: a regex, of which only the
    [test] method is used, or a thrown [SyntaxError] with its message. *)
Inductive Compiled : Type :=
| Regex (test_ : jsstring -> bool)
| SyntaxError (message : jsstring).

(** [/^[a-z0-9_-]+$/i] *)
Definition is_simple_class (c : char) : bool :=
  ((97 <=? c) && (c <=? 122) || (48 <=? c) && (c <=? 57) || (c =? 95)
   || (c =? 45))%N.

Definition re_simple_command : RegExp :=
  Seq InputStart (Seq (Plus (CharSet is_simple_class)) InputEnd).

Record Validation : Type := { isValid : bool; error : option jsstring }.

Section Runtime.

(** [String.prototype.toLowerCase] and the [RegExp] constructor with the
    flag [i] are provided by the JavaScript runtime. *)
Variable toLowerCase : jsstring -> jsstring.
Variable newRegExp_i : jsstring -> Compiled.

(** The callback given to [patterns.some]. *)
Definition patternBlocks (normalizedCommand : jsstring)
           (commandNames : list jsstring) (pattern : jsstring) : bool :=
  let patternLower := trim (toLowerCase pattern) in
  if negb (truthy patternLower) then false
  else if List.existsb (fun cmdName => eqb (toLowerCase cmdName) patternLower)
                       commandNames
  then true
  else
    let isSimpleCommand := test true re_simple_command patternLower in
    let compiled :=
      if isSimpleCommand then
        let hasWordBoundary := includes pattern (js "\b") in
        let regexPattern :=
          if hasWordBoundary then pattern
          else js "\b" ++ pattern ++ js "\b" in
        newRegExp_i regexPattern
      else newRegExp_i pattern in
    match compiled with
    | Regex test_ => test_ normalizedCommand
    | SyntaxError _ =>
        includes (toLowerCase normalizedCommand) patternLower
    end.

Definition isCommandBlocked (command : jsstring) (patterns : list jsstring)
           (enableBlocklist : bool) : bool :=
  if negb enableBlocklist || negb (truthy command) then false
  else
    let normalizedCommand := normalizeCommand command in
    let commandNames := extractAllCommandNames normalizedCommand in
    List.existsb (patternBlocks normalizedCommand commandNames) patterns.

Definition validateBlocklistPattern (pattern : jsstring) : Validation :=
  if negb (truthy (trim pattern))
  then {| isValid := false; error := Some (js "Pattern cannot be empty") |}
  else
    match newRegExp_i pattern with
    | Regex _ => {| isValid := true; error := None |}
    | SyntaxError message =>
        {| isValid := true;
           error := Some (js "Invalid regex, will use substring match: "
                          ++ message) |}
    end.

End Runtime.

(* ===================================================================== *)
(** ** Hook-input type guards                                             *)
(* ===================================================================== *)

(** JavaScript values as far as the guards inspect them. *)
Inductive value : Type :=
| VUndefined
| VNull
| VBoolean (b : bool)
| VNumber (n : N)
| VString (s : jsstring)
| VObject (props : list (jsstring * value)).

Definition object := list (jsstring * value).

(** Property read [obj.key]: [undefined] when the property is absent. *)
Fixpoint get (props : object) (key : jsstring) : value :=
  match props with
  | [] => VUndefined
  | (k, v) :: props' => if eqb k key then v else get props' key
  end.

Definition is_string (v : value) : bool :=
  match v with VString _ => true | _ => false end.

(** [typeof v === 'object' && v !== null] *)
Definition is_non_null_object (v : value) : bool :=
  match v with VObject _ => true | _ => false end.

Definition isHookToolInput (input : value) : bool :=
  match input with
  | VObject obj =>
      is_string (get obj (js "tool_name"))
      && is_non_null_object (get obj (js "tool_input"))
  | _ => false
  end.

Definition tool_name (input : value) : jsstring :=
  match input with
  | VObject obj =>
      match get obj (js "tool_name") with VString s => s | _ => [] end
  | _ => []
  end.

Definition tool_input (input : value) : object :=
  match input with
  | VObject obj =>
      match get obj (js "tool_input") with VObject o => o | _ => [] end
  | _ => []
  end.

Definition isBashHookInput (input : value) : bool :=
  if negb (isHookToolInput input) then false
  else eqb (tool_name input) (js "Bash").

Definition extractBashCommand (input : value) : jsstring :=
  if negb (isBashHookInput input) then []
  else
    match get (tool_input input) (js "command") with
    | VString command => command
    | _ => []
    end.

Definition extractToolName (input : value) : jsstring :=
  if negb (isHookToolInput input) then [] else tool_name input.

Definition extractToolInput (input : value) : object :=
  if negb (isHookToolInput input) then [] else tool_input input.

(* ===================================================================== *)
(** ** Security hooks                                                     *)
(* ===================================================================== *)

(** The hook output: [{ continue: true }], or [{ continue: false,
    hookSpecificOutput: { hookEventName: 'PreToolUse', permissionDecision:
    'deny', permissionDecisionReason } }]. *)
Inductive HookResult : Type :=
| Continue
| Deny (permissionDecisionReason : jsstring).

(** [PathAccessType] is a union of string literals; the hook compares it
    with [===] against ['vault'], ['readwrite'], ['context'], ['export']. *)
Definition PathAccessType := jsstring.

(** Modelled from the spec: the declaration of [DangerousConstruct] lives in
    the path validator, which is not among the sources.  Its variants are
    those of the data model (command_substitution, backtick_substitution,
    process_substitution, hex_escape, dangerous_builtin), each carrying the
    matched literal or the offending command, exactly the cases and fields
    the hook's [switch] reads. *)
Inductive DangerousConstruct : Type :=
| command_substitution (pattern : jsstring)
| backtick_substitution (pattern : jsstring)
| dangerous_builtin (command : jsstring)
| hex_escape (pattern : jsstring)
| process_substitution (pattern : jsstring).

(** A path violation as the hook reads it: its [type] tag and [path]. *)
Record PathViolation : Type := { type_ : jsstring; path : jsstring }.

(** Calls to the collaborators, in the order in which they are made. *)
Inductive Call : Type :=
| CallFindDangerousConstruct (command : jsstring)
| CallFindBashCommandPathViolation (command : jsstring)
| CallGetPathAccessType (filePath : jsstring).

(** A computation together with the calls it made. *)
Definition Traced (A : Type) : Type := A * list Call.

Definition ret {A : Type} (a : A) : Traced A := (a, []).

Definition bind {A B : Type} (c : Traced A) (f : A -> Traced B) : Traced B :=
  let (a, t1) := c in
  let (b, t2) := f a in
  (b, t1 ++ t2).

Definition call {A : Type} (e : Call) (a : A) : Traced A := (a, [e]).

Declare Scope traced_scope.
Delimit Scope traced_scope with traced.
Notation "x <- c ;; k" := (bind c (fun x => k))
  (at level 61, c at next level, right associativity) : traced_scope.

(** The text between the double quotes of a denial reason. *)
Definition quoted (s : jsstring) : jsstring := [dquote] ++ s ++ [dquote].

Definition constructReason (d : DangerousConstruct) : jsstring :=
  match d with
  | command_substitution pattern =>
      js "Access denied: Command substitution " ++ quoted pattern
      ++ js " is not allowed as it could execute arbitrary code."
  | backtick_substitution pattern =>
      js "Access denied: Backtick substitution " ++ quoted pattern
      ++ js " is not allowed as it could execute arbitrary code."
  | dangerous_builtin command =>
      js "Access denied: The " ++ quoted command
      ++ js " command is not allowed as it could execute arbitrary code."
  | hex_escape pattern =>
      js "Access denied: Hex/octal escape sequences " ++ quoted pattern
      ++ js " are not allowed as they could obfuscate malicious paths."
  | process_substitution pattern =>
      js "Access denied: Process substitution " ++ quoted pattern
      ++ js " is not allowed as it could execute arbitrary code."
  end.

Definition exportReason (what p : jsstring) : jsstring :=
  js "Access denied: " ++ what ++ quoted p
  ++ js " is in an allowed export directory, but export paths are write-only.".

Definition outsideReason (what p : jsstring) : jsstring :=
  js "Access denied: " ++ what ++ quoted p
  ++ js " is outside the vault. Agent is restricted to vault directory only.".

Section Hooks.

Local Open Scope traced_scope.

Variable toLowerCase : jsstring -> jsstring.
Variable newRegExp_i : jsstring -> Compiled.

(** Imported from modules that are not among the sources. *)
Variable PlatformBlockedCommands : Type.
Variable getBashToolBlockedCommands : PlatformBlockedCommands -> list jsstring.
Variable TOOL_BASH : jsstring.
Variable isFileTool : jsstring -> bool.
Variable isEditTool : jsstring -> bool.
Variable getPathFromToolInput : jsstring -> object -> option jsstring.
Variable findDangerousConstruct : jsstring -> option DangerousConstruct.
Variable findBashCommandPathViolation :
  jsstring -> (jsstring -> Traced PathAccessType) -> Traced (option PathViolation).

Record BlocklistContext : Type :=
  { blockedCommands : PlatformBlockedCommands; enableBlocklist : bool }.

(** The callback installed by [createBlocklistHook]; [getContext] is the
    context the getter returns for this invocation. *)
Definition createBlocklistHook (getContext : BlocklistContext)
           (hookInput : value) : HookResult :=
  if negb (isHookToolInput hookInput) then Continue
  else
    let command := extractBashCommand hookInput in
    let bashToolCommands :=
      getBashToolBlockedCommands (blockedCommands getContext) in
    if isCommandBlocked toLowerCase newRegExp_i command bashToolCommands
                        (enableBlocklist getContext)
    then Deny (js "Command blocked by blocklist: " ++ command)
    else Continue.

(** The callback installed by [createVaultRestrictionHook]; the context's
    classifier is [getPathAccessType], every call to it is recorded. *)
Definition createVaultRestrictionHook
           (getPathAccessType : jsstring -> PathAccessType)
           (hookInput : value) : Traced HookResult :=
  let classify := fun p => call (CallGetPathAccessType p) (getPathAccessType p) in
  if negb (isHookToolInput hookInput) then ret Continue
  else
    let toolName := extractToolName hookInput in
    if eqb toolName TOOL_BASH then
      let command := extractBashCommand hookInput in
      dangerousConstruct <-
        call (CallFindDangerousConstruct command)
             (findDangerousConstruct command) ;;
      match dangerousConstruct with
      | Some d => ret (Deny (constructReason d))
      | None =>
          violation <-
            (_ <- call (CallFindBashCommandPathViolation command) tt ;;
             findBashCommandPathViolation command classify) ;;
          match violation with
          | Some v =>
              ret (Deny (if eqb (type_ v) (js "export_path_read")
                         then exportReason (js "Command path ") (path v)
                         else outsideReason (js "Command path ") (path v)))
          | None => ret Continue
          end
      end
    else if negb (isFileTool toolName) then ret Continue
    else
      let toolInput := extractToolInput hookInput in
      match getPathFromToolInput toolName toolInput with
      | Some filePath =>
          if truthy filePath then
            accessType <- classify filePath ;;
            if eqb accessType (js "vault") || eqb accessType (js "readwrite")
               || eqb accessType (js "context")
            then ret Continue
            else if isEditTool toolName && eqb accessType (js "export")
            then ret Continue
            else if negb (isEditTool toolName) && eqb accessType (js "export")
            then ret (Deny (exportReason (js "Path ") filePath))
            else ret (Deny (outsideReason (js "Path ") filePath))
          else ret Continue
      | None => ret Continue
      end.

End Hooks.

(* ===================================================================== *)
(** ** Specification vocabulary                                           *)
(* ===================================================================== *)

(** Greedy iteration of a character class with backtracking: the longest
    run is tried first. *)
Fixpoint greedy (p : char -> bool) (k : Continuation)
         (prev : option char) (s : jsstring) : option mstate :=
  match s with
  | c :: s' =>
      if p c then
        match greedy p k (Some c) s' with
        | Some st => Some st
        | None => k prev s
        end
      else k prev s
  | [] => k prev s
  end.

Definition is_quote (c : char) : bool :=
  N.eqb c quote || N.eqb c dquote || N.eqb c backtick.

(** One left-to-right pass deleting adjacent pairs of equal quote
    characters; a quote already deleted cannot pair again. *)
Fixpoint removeEmptyQuotePairs (s : jsstring) : jsstring :=
  match s with
  | a :: s1 =>
      match s1 with
      | b :: s2 =>
          if is_quote a && N.eqb a b then removeEmptyQuotePairs s2
          else a :: removeEmptyQuotePairs s1
      | [] => [a]
      end
  | [] => []
  end.

Fixpoint has_empty_quote_pair (s : jsstring) : bool :=
  match s with
  | a :: s1 =>
      match s1 with
      | b :: _ => (is_quote a && N.eqb a b) || has_empty_quote_pair s1
      | [] => false
      end
  | [] => false
  end.

Definition removeBackslashes (s : jsstring) : jsstring :=
  List.filter (fun c => negb (N.eqb c backslash)) s.

Definition add_to_first (c : char) (fs : list jsstring) : list jsstring :=
  match fs with
  | f :: fs' => (c :: f) :: fs'
  | [] => [[c]]
  end.

(** The whitespace-delimited fields of a string: a run of whitespace ends
    the current field; a string that starts (ends) with whitespace has an
    empty first (last) field.  [after_space] tells that the scan is inside
    a run of whitespace. *)
Fixpoint fields (after_space : bool) (s : jsstring) : list jsstring :=
  match s with
  | [] => [[]]
  | c :: s' =>
      if is_space c then
        if after_space then fields true s' else [] :: fields true s'
      else add_to_first c (fields false s')
  end.

Definition no_space (s : jsstring) : bool := List.forallb (fun c => negb (is_space c)) s.

Definition all_space (s : jsstring) : bool := List.forallb is_space s.

(** Fields after the first: none contains whitespace, and only the last
    may be empty. *)
Fixpoint later_fields_ok (fs : list jsstring) : Prop :=
  match fs with
  | [] => True
  | [f] => no_space f = true
  | f :: fs' => no_space f = true /\ f <> [] /\ later_fields_ok fs'
  end.

Definition fields_ok (fs : list jsstring) : Prop :=
  match fs with
  | [] => False
  | f :: fs' => no_space f = true /\ later_fields_ok fs'
  end.

(** The string is empty or starts with a non-whitespace code unit. *)
Definition no_space_at_head (s : jsstring) : bool :=
  match s with d :: _ => negb (is_space d) | [] => true end.

(** Every whitespace code unit is a U+0020 that is not followed by
    another whitespace code unit: all runs of whitespace are single
    spaces. *)
Fixpoint single_spaced (s : jsstring) : bool :=
  match s with
  | [] => true
  | c :: s' =>
      (if is_space c then N.eqb c space && no_space_at_head s' else true)
      && single_spaced s'
  end.

(** Two strings that differ only in their runs of whitespace: the
    non-whitespace code units are the same, and wherever one has a
    (non-empty) run of whitespace the other has one too. *)
Inductive ws_variant : jsstring -> jsstring -> Prop :=
| wv_nil : ws_variant [] []
| wv_char : forall c s1 s2,
    is_space c = false -> ws_variant s1 s2 -> ws_variant (c :: s1) (c :: s2)
| wv_run : forall w1 w2 s1 s2,
    w1 <> [] -> w2 <> [] -> all_space w1 = true -> all_space w2 = true ->
    ws_variant s1 s2 -> ws_variant (w1 ++ s1) (w2 ++ s2).

(** A string without any of the separator characters [|], [;], [&]. *)
Definition plain (s : jsstring) : bool :=
  List.forallb (fun c => negb (is_single_separator c)) s.


(** The first token that is not a wrapper. *)
Fixpoint firstNonWrapper (tokens : list jsstring) : option jsstring :=
  match tokens with
  | [] => None
  | t :: ts => if array_includes wrappers t then firstNonWrapper ts else Some t
  end.

(** What follows a separator at the front of a string that does not start
    with whitespace: [||] and [&&] are tried before the single
    characters. *)
Definition after_separator (s : jsstring) : option jsstring :=
  match s with
  | a :: s1 =>
      match s1 with
      | b :: s2 =>
          if (N.eqb a pipe && N.eqb b pipe) || (N.eqb a amp && N.eqb b amp)
          then Some (trimStart s2)
          else if is_single_separator a then Some (trimStart s1) else None
      | [] => if is_single_separator a then Some [] else None
      end
  | [] => None
  end.

(** The code unit before the position reached after a run of [p]. *)
Fixpoint last_of_run (p : char -> bool) (prev : option char) (s : jsstring) : option char :=
  match s with
  | c :: s' => if p c then last_of_run p (Some c) s' else prev
  | [] => prev
  end.

Fixpoint dropRun (p : char -> bool) (s : jsstring) : jsstring :=
  match s with
  | c :: s' => if p c then dropRun p s' else s
  | [] => []
  end.

(** Prefix the first piece of a list of pieces. *)
Definition app_to_first (l : jsstring) (fs : list jsstring) : list jsstring :=
  match fs with
  | f :: fs' => (l ++ f) :: fs'
  | [] => [l]
  end.

(** The fields of the normalised command: those of the input once the
    empty quotes are gone, the first one without its backslashes. *)
Definition normalizedFields (command : jsstring) : list jsstring :=
  match fields false (removeEmptyQuotePairs command) with
  | p0 :: ps => removeBackslashes p0 :: ps
  | [] => []
  end.


(** The continuation that consumes the whitespace after an operator. *)
Definition after_spaces : Continuation :=
  fun prev s => Some (last_of_run is_space prev s, trimStart s).

(** The operator alternatives of the separator regex. *)
Definition re_operator : RegExp :=
  Disj (Seq (Char pipe) (Char pipe))
       (Disj (Seq (Char amp) (Char amp)) (CharSet is_single_separator)).


(** A token without slash: a bare name, not a path. *)
Definition no_slash (s : jsstring) : bool :=
  List.forallb (fun c => negb (N.eqb c Path.slash)) s.



(** *** Blocklist patterns *)

(** The regex of a sequence of pattern characters. *)
Fixpoint literal (p : jsstring) : RegExp :=
  match p with
  | [] => Empty
  | c :: p' => Seq (Char c) (literal p')
  end.

(** The regex [\bP\b] for a pattern [P] made of pattern characters. *)
Definition word_bounded (p : jsstring) : RegExp :=
  Seq WordBoundary (Seq (literal p) WordBoundary).

(** A pattern that matches [^[a-z0-9_-]+$]. *)
Definition simple_pattern (p : jsstring) : bool :=
  truthy p && List.forallb is_simple_class p.

(** The pattern begins and ends with a letter, a digit or an underscore. *)
Definition word_edged (p : jsstring) : bool :=
  opt_word (List.hd_error p) && opt_word (List.hd_error (List.rev p)).

(** Equality up to the case of the ASCII letters. *)
Definition same_ignoring_case (a b : jsstring) : Prop :=
  List.map ascii_upper a = List.map ascii_upper b.

(** [p] occurs in [s], up to case, with no letter, digit or underscore
    immediately before or after the occurrence. *)
Definition standalone_occurrence (p s : jsstring) : Prop :=
  exists pre mid post,
    s = pre ++ mid ++ post
    /\ same_ignoring_case mid p
    /\ opt_word (List.hd_error (List.rev pre)) = false
    /\ opt_word (List.hd_error post) = false.

(** The pattern source that [patternBlocks] hands to the constructor. *)
Definition regexSource (toLowerCase : jsstring -> jsstring) (pattern : jsstring)
  : jsstring :=
  if test true re_simple_command (trim (toLowerCase pattern)) then
    if includes pattern (js "\b") then pattern
    else js "\b" ++ pattern ++ js "\b"
  else pattern.

(** *** Assumptions on the JavaScript runtime *)

(** On ASCII text, [toLowerCase] folds the letters [A-Z] and nothing else. *)
Definition lowercase_on_ascii (toLowerCase : jsstring -> jsstring) : Prop :=
  forall s, List.forallb is_ascii s = true ->
            toLowerCase s = List.map ascii_lower s.

(** The constructor accepts [\bP\b] for a simple [P], and the regex it
    builds tests like the matcher of this file. *)
Definition compiles_word_bounded (newRegExp_i : jsstring -> Compiled) : Prop :=
  forall p, simple_pattern p = true ->
            exists test_,
              newRegExp_i (js "\b" ++ p ++ js "\b") = Regex test_
              /\ forall s, test_ s = test true (word_bounded p) s.

(** A pattern made of whitespace only is a valid regex. *)
Definition compiles_blank (newRegExp_i : jsstring -> Compiled) : Prop :=
  forall p, truthy (trim p) = false -> exists test_, newRegExp_i p = Regex test_.

(** *** A small runtime, to instantiate the assumptions

    ASCII case folding, and a constructor for two forms of pattern: a
    sequence of pattern characters, and such a sequence between two [\b].
    Any other source is answered with a [SyntaxError]. *)
Definition sample_toLowerCase (s : jsstring) : jsstring := List.map ascii_lower s.

Definition is_syntax_char (c : char) : bool :=
  List.existsb (N.eqb c)
    [94; 36; 92; 46; 42; 43; 63; 40; 41; 91; 93; 123; 125; 124]%N.

Definition pattern_characters (p : jsstring) : bool :=
  List.forallb (fun c => negb (is_syntax_char c)) p.

Definition between_word_boundaries (source : jsstring) : option jsstring :=
  match source with
  | 92 :: 98 :: rest =>
      match List.rev rest with
      | 98 :: 92 :: mid => Some (List.rev mid)
      | _ => None
      end
  | _ => None
  end%N.

Definition sample_newRegExp_i (source : jsstring) : Compiled :=
  if pattern_characters source then Regex (test true (literal source))
  else
    match between_word_boundaries source with
    | Some p =>
        if pattern_characters p then Regex (test true (word_bounded p))
        else SyntaxError (js "Invalid regular expression")
    | None => SyntaxError (js "Invalid regular expression")
    end.

(** *** Hooks *)



(** Sample collaborators for the examples: the tools [Read], [Write] and
    [Edit] with their [file_path] argument, a platform configuration that
    is the pattern list itself, and the boundary of the end-to-end
    scenario. *)
Definition sample_isEditTool (toolName : jsstring) : bool :=
  eqb toolName (js "Write") || eqb toolName (js "Edit").

Definition sample_isFileTool (toolName : jsstring) : bool :=
  eqb toolName (js "Read") || sample_isEditTool toolName.

Definition sample_getPathFromToolInput (toolName : jsstring) (toolInput : object)
  : option jsstring :=
  match get toolInput (js "file_path") with
  | VString p => Some p
  | _ => None
  end.

Definition sample_getPathAccessType (p : jsstring) : PathAccessType :=
  if eqb p (js "/vault/notes.md") then js "vault"
  else if eqb p (js "/tmp/export/out.csv") then js "export"
  else js "outside".

Definition sample_findDangerousConstruct (command : jsstring)
  : option DangerousConstruct :=
  if includes command (js "$(") then Some (command_substitution (js "$("))
  else None.

Definition sample_findBashCommandPathViolation (command : jsstring)
           (classify : jsstring -> Traced PathAccessType)
  : Traced (option PathViolation) :=
  bind (classify command)
       (fun t => ret (if eqb t (js "outside")
                      then Some {| type_ := js "outside_vault"; path := command |}
                      else None)).

Definition toolCall (toolName : jsstring) (toolInput : object) : value :=
  VObject [(js "tool_name", VString toolName); (js "tool_input", VObject toolInput)].

(** Matching a sequence of pattern characters, up to case, at the front
    of the input. *)
Fixpoint match_prefix (p : jsstring) (prev : option char) (s : jsstring)
  : option mstate :=
  match p with
  | [] => Some (prev, s)
  | c :: p' =>
      match s with
      | x :: s' =>
          if N.eqb (ascii_upper x) (ascii_upper c)
          then match_prefix p' (Some x) s' else None
      | [] => None
      end
  end.

(** The last code unit of [prev], [mid]. *)
Fixpoint last_opt (prev : option char) (mid : jsstring) : option char :=
  match mid with
  | [] => prev
  | x :: m => last_opt (Some x) m
  end.

(* ===================================================================== *)
(** ** Further vocabulary: normal forms and command names                 *)
(* ===================================================================== *)

(** The code units before the first whitespace: [parts[0]] of the split. *)
Fixpoint firstField (s : jsstring) : jsstring :=
  match s with
  | c :: s' => if is_space c then [] else c :: firstField s'
  | [] => []
  end.

Definition no_backslash (s : jsstring) : bool :=
  List.forallb (fun c => negb (N.eqb c backslash)) s.

(** The string ends with one of the three quote characters. *)
Definition ends_with_quote (s : jsstring) : bool :=
  match List.rev s with
  | x :: _ => is_quote x
  | [] => false
  end.

(** The code units the normaliser has no business with: everything but
    quotes, backslashes and whitespace. *)
Definition is_payload (c : char) : bool :=
  negb (is_quote c) && negb (N.eqb c backslash) && negb (is_space c).

(** A code unit that may appear in an extracted command name. *)
Definition name_char (c : char) : bool :=
  negb (N.eqb c Path.slash) && negb (is_space c) && negb (is_single_separator c).

(* ===================================================================== *)
(** ** Hook-input type guards (continued)                                 *)
(* ===================================================================== *)

Definition isFileHookInput (input : value) : bool :=
  if negb (isHookToolInput input) then false
  else
    let toolInput := tool_input input in
    is_string (get toolInput (js "file_path"))
    || is_string (get toolInput (js "path")).

(* ===================================================================== *)
(** ** More string methods                                                *)
(* ===================================================================== *)

(** [String.prototype.replace] with a string pattern and a replacement
    string without [$]: the first occurrence is replaced. *)
Fixpoint replace_string (s pattern by_ : jsstring) : jsstring :=
  if startsWith s pattern then by_ ++ List.skipn (List.length pattern) s
  else
    match s with
    | [] => []
    | c :: s' => c :: replace_string s' pattern by_
    end.

(** [String.prototype.replace] with a regex without the [g] flag: the
    leftmost match is replaced. *)
Fixpoint replace_first (r : RegExp) (by_ : jsstring) (prev : option char)
         (s : jsstring) : jsstring :=
  match exec_at false r prev s with
  | Some (_, rest) => by_ ++ rest
  | None =>
      match s with
      | [] => []
      | c :: s' => c :: replace_first r by_ (Some c) s'
      end
  end.

(* ===================================================================== *)
(** ** SlashCommandStorage: paths, names and ids                          *)
(* ===================================================================== *)

Module SlashCommandStorage.

Definition dash : char := 45%N.
Definition underscore : char := 95%N.
Definition dot : char := 46%N.

Definition COMMANDS_PATH : jsstring := js ".claude/commands".

(** [/\.md$/] *)
Definition re_md_suffix : RegExp :=
  Seq (Char dot) (Seq (Char 109%N) (Seq (Char 100%N) InputEnd)).

(** [/-/g] and [/\//g] *)
Definition re_dash : RegExp := Char dash.
Definition re_slash : RegExp := Char Path.slash.

(** [[a-zA-Z0-9_/-]] *)
Definition is_safe_name_char (c : char) : bool :=
  ((97 <=? c) && (c <=? 122) || (65 <=? c) && (c <=? 90)
   || (48 <=? c) && (c <=? 57) || (c =? 95) || (c =? 47) || (c =? 45))%N.

(** [/[^a-zA-Z0-9_/-]/g] *)
Definition re_unsafe : RegExp := CharSet (fun c => negb (is_safe_name_char c)).

(** The fields of a slash command; the optional ones may be absent. *)
Record SlashCommand : Type :=
  { id : jsstring;
    name : jsstring;
    description : option jsstring;
    argumentHint : option jsstring;
    allowedTools : option (list jsstring);
    model : option jsstring;
    content : jsstring }.

(** What [parseSlashCommandContent] returns. *)
Record ParsedSlashCommandContent : Type :=
  { parsed_description : option jsstring;
    parsed_argumentHint : option jsstring;
    parsed_allowedTools : option (list jsstring);
    parsed_model : option jsstring;
    promptContent : jsstring }.

Definition getFilePath (command : SlashCommand) : jsstring :=
  let safeName := replace_all re_unsafe [dash] (name command) in
  COMMANDS_PATH ++ js "/" ++ safeName ++ js ".md".

Definition filePathToId (filePath : jsstring) : jsstring :=
  let relativePath :=
    replace_first re_md_suffix [] None
      (replace_string filePath (COMMANDS_PATH ++ js "/") []) in
  let escaped :=
    replace_all re_slash (js "--") (replace_all re_dash (js "-_") relativePath) in
  js "cmd-" ++ escaped.

Definition filePathToName (filePath : jsstring) : jsstring :=
  replace_first re_md_suffix [] None
    (replace_string filePath (COMMANDS_PATH ++ js "/") []).

Section Parsing.

(** Imported from the slash-command utilities, not among the sources. *)
Variable parseSlashCommandContent : jsstring -> ParsedSlashCommandContent.

Definition parseFile (content_ filePath : jsstring) : SlashCommand :=
  let parsed := parseSlashCommandContent content_ in
  {| id := filePathToId filePath;
     name := filePathToName filePath;
     description := parsed_description parsed;
     argumentHint := parsed_argumentHint parsed;
     allowedTools := parsed_allowedTools parsed;
     model := parsed_model parsed;
     content := promptContent parsed |}.

Definition parseFileFromGlobal (content_ relativePath : jsstring) : SlashCommand :=
  let parsed := parseSlashCommandContent content_ in
  let name_ := replace_first re_md_suffix [] None relativePath in
  let id_ :=
    js "global-cmd-"
    ++ replace_all re_slash (js "--") (replace_all re_dash (js "-_") name_) in
  {| id := id_;
     name := name_;
     description := parsed_description parsed;
     argumentHint := parsed_argumentHint parsed;
     allowedTools := parsed_allowedTools parsed;
     model := parsed_model parsed;
     content := promptContent parsed |}.

End Parsing.

(** The merge that ends [loadAll], on the commands loaded from the
    plugins, from the global folder and from the vault: a name taken by a
    source of higher priority hides the commands of that name below. *)
Definition mergedCommands (pluginCommands globalCommands vaultCommands : list SlashCommand)
  : list SlashCommand :=
  let vaultNames := List.map name vaultCommands in
  let globalNames := List.map name globalCommands in
  List.filter (fun c => negb (array_includes globalNames (name c))
                        && negb (array_includes vaultNames (name c)))
              pluginCommands
  ++ List.filter (fun c => negb (array_includes vaultNames (name c)))
                 globalCommands
  ++ vaultCommands.

(** The encoding of one code unit of a relative path in an id. *)
Definition escapeChar (c : char) : jsstring :=
  if N.eqb c dash then [dash; underscore]
  else if N.eqb c Path.slash then [dash; dash]
  else [c].

Definition sanitizeChar (c : char) : char :=
  if is_safe_name_char c then c else dash.

End SlashCommandStorage.

(* ===================================================================== *)
(** ** TtlMap: a map whose entries expire                                 *)
(* ===================================================================== *)

(** Times and durations are JavaScript numbers holding integers
    (milliseconds), modelled as [Z].  A value of type [V | undefined] is an
    [option V], [None] being [undefined].  The underlying [Map] is the list
    of its entries in insertion order, one entry per key; [Date.now()] is an
    argument of every method that reads the clock. *)

Module TtlMap.

Section Definitions.

Variables K V : Type.

(** Equality of keys in a [Map]. *)
Variable K_eqb : K -> K -> bool.

Record TtlEntry : Type :=
  { value : option V;
    expiresAt : Z }.

Definition Entries : Type := list (K * TtlEntry).

(** [Map.prototype.get], [set], [delete], [has]. *)
Fixpoint map_get (m : Entries) (key : K) : option TtlEntry :=
  match m with
  | [] => None
  | (k, e) :: rest => if K_eqb k key then Some e else map_get rest key
  end.

Fixpoint map_set (m : Entries) (key : K) (entry : TtlEntry) : Entries :=
  match m with
  | [] => [(key, entry)]
  | (k, e) :: rest =>
      if K_eqb k key then (k, entry) :: rest else (k, e) :: map_set rest key entry
  end.

Definition map_delete (m : Entries) (key : K) : Entries :=
  List.filter (fun ke => negb (K_eqb (fst ke) key)) m.

Definition map_has (m : Entries) (key : K) : bool :=
  match map_get m key with Some _ => true | None => false end.

(** The fields of a [TtlMap]; [cleanupInterval] tells whether the timer is
    scheduled. *)
Record State : Type :=
  { ttlMs : Z;
    cleanupIntervalMs : Z;
    map : Entries;
    cleanupInterval : bool }.

Definition with_map (this : State) (m : Entries) : State :=
  {| ttlMs := ttlMs this;
     cleanupIntervalMs := cleanupIntervalMs this;
     map := m;
     cleanupInterval := cleanupInterval this |}.

Definition startCleanup (this : State) : State :=
  if cleanupInterval this then this
  else {| ttlMs := ttlMs this;
          cleanupIntervalMs := cleanupIntervalMs this;
          map := map this;
          cleanupInterval := true |}.

Definition stopCleanup (this : State) : State :=
  if cleanupInterval this
  then {| ttlMs := ttlMs this;
          cleanupIntervalMs := cleanupIntervalMs this;
          map := map this;
          cleanupInterval := false |}
  else this.

Definition constructor (ttlMs_ cleanupIntervalMs_ : Z) : State :=
  startCleanup {| ttlMs := ttlMs_;
                  cleanupIntervalMs := cleanupIntervalMs_;
                  map := [];
                  cleanupInterval := false |}.

Definition set (now : Z) (key : K) (value_ : option V) (this : State) : State :=
  with_map this
    (map_set (map this) key {| value := value_; expiresAt := (now + ttlMs this)%Z |}).

Definition get (now : Z) (key : K) (this : State) : option V * State :=
  match map_get (map this) key with
  | None => (None, this)
  | Some entry =>
      if (now >? expiresAt entry)%Z
      then (None, with_map this (map_delete (map this) key))
      else (value entry, this)
  end.

Definition getAndDelete (now : Z) (key : K) (this : State) : option V * State :=
  let (value_, this1) := get now key this in
  match value_ with
  | Some _ => (value_, with_map this1 (map_delete (map this1) key))
  | None => (value_, this1)
  end.

Definition has (now : Z) (key : K) (this : State) : bool * State :=
  let (value_, this1) := get now key this in
  (match value_ with Some _ => true | None => false end, this1).

Definition delete (key : K) (this : State) : bool * State :=
  (map_has (map this) key, with_map this (map_delete (map this) key)).

Definition clear (this : State) : State := with_map this [].

Definition size (this : State) : nat := List.length (map this).

Definition dispose (this : State) : State :=
  let this1 := stopCleanup this in
  with_map this1 [].

Definition cleanup (now : Z) (this : State) : State :=
  with_map this
    (List.filter (fun ke => negb (now >? expiresAt (snd ke))%Z) (map this)).

End Definitions.

End TtlMap.

(* ===================================================================== *)
(** ** selectModelUsage                                                   *)
(* ===================================================================== *)

(** Token counts are JavaScript numbers, that is IEEE 754 doubles.  The
    model covers the finite doubles that hold an integer: a count is the
    [Z] it holds, and a sum is the exact sum rounded to the nearest double
    (53 significant bits, ties to even), or an infinity when it overflows.
    [usageByModel] is a plain object, given by its own entries in the order
    of [Object.entries]; reading a property that is not its own finds the
    ones every plain object inherits. *)

Module SelectModelUsage.

(** The value of a sum of counts. *)
Inductive number : Type :=
| Finite (n : Z)
| PosInfinity
| NegInfinity.

(** The double nearest to an integer: below [2 ^ 53] every integer is a
    double; above, the doubles are the multiples of [2 ^ (k - 52)] for a
    magnitude of [k + 1] bits, a tie goes to the even significand, and a
    result of [2 ^ 1024] or more is an infinity. *)
Definition roundToDouble (x : Z) : number :=
  let m := Z.abs x in
  let k := Z.log2 m in
  let r :=
    if (k <=? 52)%Z then m
    else
      let ulp := (2 ^ (k - 52))%Z in
      let q := (m / ulp)%Z in
      let rest := (m mod ulp)%Z in
      let half := (ulp / 2)%Z in
      let q' :=
        if (rest <? half)%Z then q
        else if (half <? rest)%Z then (q + 1)%Z
        else if Z.even q then q else (q + 1)%Z in
      (q' * ulp)%Z in
  if (2 ^ 1024 <=? r)%Z then (if (x <? 0)%Z then NegInfinity else PosInfinity)
  else Finite (Z.sgn x * r).

(** [x + y] for a sum so far and a count. *)
Definition add (x : number) (y : Z) : number :=
  match x with
  | Finite a => roundToDouble (a + y)
  | PosInfinity => PosInfinity
  | NegInfinity => NegInfinity
  end.

(** [x > y] *)
Definition gtb (x y : number) : bool :=
  match x, y with
  | Finite a, Finite b => (a >? b)%Z
  | Finite _, PosInfinity => false
  | Finite _, NegInfinity => true
  | PosInfinity, PosInfinity => false
  | PosInfinity, _ => true
  | NegInfinity, _ => false
  end.

(** The fields of [ModelUsageInfo] that the function reads. *)
Record ModelUsageInfo : Type :=
  { inputTokens : option Z;
    cacheCreationInputTokens : option Z;
    cacheReadInputTokens : option Z }.

(** What [usageByModel[key]] evaluates to when it is not undefined: an
    entry of the record, or a property inherited from [Object.prototype]. *)
Inductive PropertyValue : Type :=
| Own (usage : ModelUsageInfo)
| Inherited.

Definition objectPrototypeKeys : list jsstring :=
  [ js "constructor"; js "__proto__"; js "hasOwnProperty"; js "isPrototypeOf";
    js "propertyIsEnumerable"; js "toLocaleString"; js "toString"; js "valueOf";
    js "__defineGetter__"; js "__defineSetter__"; js "__lookupGetter__";
    js "__lookupSetter__" ].

Fixpoint ownProperty (entries : list (jsstring * ModelUsageInfo)) (key : jsstring)
  : option ModelUsageInfo :=
  match entries with
  | [] => None
  | (k, u) :: rest => if eqb k key then Some u else ownProperty rest key
  end.

Definition getProperty (entries : list (jsstring * ModelUsageInfo)) (key : jsstring)
  : option PropertyValue :=
  match ownProperty entries key with
  | Some u => Some (Own u)
  | None => if array_includes objectPrototypeKeys key then Some Inherited else None
  end.

(** [x ?? 0] *)
Definition orZero (x : option Z) : Z :=
  match x with Some n => n | None => 0%Z end.

Definition contextTokens (usage : ModelUsageInfo) : number :=
  add (add (Finite (orZero (inputTokens usage)))
           (orZero (cacheCreationInputTokens usage)))
      (orZero (cacheReadInputTokens usage)).

(** The loop of the last resort, from the values of [bestEntry] and
    [maxTokens] on entry. *)
Fixpoint pickHighest (entries : list (jsstring * ModelUsageInfo))
         (bestEntry : option (jsstring * PropertyValue)) (maxTokens : number)
  : option (jsstring * PropertyValue) :=
  match entries with
  | [] => bestEntry
  | (modelName, usage) :: rest =>
      if gtb (contextTokens usage) maxTokens
      then pickHighest rest (Some (modelName, Own usage)) (contextTokens usage)
      else pickHighest rest bestEntry maxTokens
  end.

(** [messageModel && usageByModel[messageModel]] *)
Definition named (entries : list (jsstring * ModelUsageInfo)) (model : option jsstring)
  : option (jsstring * PropertyValue) :=
  match model with
  | Some m =>
      if truthy m then
        match getProperty entries m with
        | Some v => Some (m, v)
        | None => None
        end
      else None
  | None => None
  end.

Definition selectModelUsage (usageByModel : list (jsstring * ModelUsageInfo))
           (messageModel intendedModel : option jsstring)
  : option (jsstring * PropertyValue) :=
  let entries := usageByModel in
  match entries with
  | [] => None
  | _ :: _ =>
      match named usageByModel messageModel with
      | Some r => Some r
      | None =>
          match named usageByModel intendedModel with
          | Some r => Some r
          | None => pickHighest entries None (Finite (-1))
          end
      end
  end.

End SelectModelUsage.

(** A [Map] holds one entry per key. *)
Definition unique_keys (K V : Type) (this : TtlMap.State K V) : Prop :=
  NoDup (List.map fst (TtlMap.map this)).

(* ===================================================================== *)
(** ** The string primitives on the regular expressions of the code       *)
(* ===================================================================== *)

Unset Implicit Arguments.

Lemma eqb_eq : forall a b, eqb a b = true <-> a = b.
Proof.
  induction a as [|x a IH]; destruct b as [|y b]; simpl; split; intros H;
    try reflexivity; try discriminate.
  - apply andb_true_iff in H. destruct H as [H1 H2].
    apply N.eqb_eq in H1. apply IH in H2. congruence.
  - inversion H; subst. rewrite N.eqb_refl. simpl. now apply IH.
Qed.

Lemma eqb_refl : forall a, eqb a a = true.
Proof. intros a. now apply eqb_eq. Qed.

Lemma eqb_neq : forall a b, eqb a b = false <-> a <> b.
Proof.
  intros a b. split; intros H.
  - intros E. apply eqb_eq in E. congruence.
  - destruct (eqb a b) eqn:E; [apply eqb_eq in E; contradiction | reflexivity].
Qed.

Lemma matcher_star_class : forall ic p k prev s,
  matcher ic (Star (CharSet p)) prev s k = greedy (in_class ic p) k prev s.
Proof.
  intros ic p k prev s. simpl.
  generalize (Nat.le_refl (List.length s)).
  generalize (List.length s) at 2 3 as n.
  intros n; revert prev s.
  induction n as [|n IH]; intros prev s Hn.
  - destruct s; [reflexivity | simpl in Hn; lia].
  - destruct s as [|c s']; [reflexivity|].
    simpl in Hn. cbn [greedy].
    destruct (in_class ic p c) eqn:E.
    + replace (List.length s' <? List.length (c :: s')) with true
        by (symmetry; apply Nat.ltb_lt; simpl; lia).
      rewrite IH by lia. reflexivity.
    + reflexivity.
Qed.



Lemma in_class_false : forall p c, in_class false p c = p c.
Proof. intros. unfold in_class. simpl. now rewrite orb_false_r. Qed.

Lemma greedy_ext : forall p q k prev s,
  (forall c, p c = q c) -> greedy p k prev s = greedy q k prev s.
Proof.
  intros p q k prev s H. revert prev.
  induction s as [|c s IH]; intros prev; simpl; [reflexivity|].
  rewrite H, IH. reflexivity.
Qed.

Lemma greedy_final : forall p prev s,
  greedy p (fun a b => Some (a, b)) prev s = Some (last_of_run p prev s, dropRun p s).
Proof.
  intros p prev s. revert prev.
  induction s as [|c s IH]; intros prev; simpl; [reflexivity|].
  destruct (p c); [rewrite IH|]; reflexivity.
Qed.

(** When the continuation rejects every input that starts inside the run,
    backtracking cannot help: the continuation is run after the whole run. *)
Lemma greedy_commit : forall p (k : Continuation) prev s,
  (forall prev' c s', p c = true -> k prev' (c :: s') = None) ->
  greedy p k prev s = k (last_of_run p prev s) (dropRun p s).
Proof.
  intros p k prev s Hk. revert prev.
  induction s as [|c s IH]; intros prev; simpl; [reflexivity|].
  destruct (p c) eqn:E; [|reflexivity].
  rewrite IH. destruct (k _ _) eqn:K; [reflexivity|].
  now apply Hk.
Qed.

Lemma dropRun_space : forall s, dropRun is_space s = trimStart s.
Proof. induction s as [|c s IH]; simpl; [reflexivity|]. now rewrite IH. Qed.

Lemma trimStart_length : forall s, List.length (trimStart s) <= List.length s.
Proof.
  induction s as [|c s IH]; simpl; [lia|]. destruct (is_space c); simpl; lia.
Qed.

Lemma exec_spaces : forall prev s,
  exec_at false re_spaces prev s =
  match s with
  | c :: s' =>
      if is_space c then Some (last_of_run is_space (Some c) s', trimStart s')
      else None
  | [] => None
  end.
Proof.
  intros prev s. unfold exec_at, re_spaces, Plus.
  cbn [matcher]. destruct s as [|c s']; [reflexivity|].
  rewrite in_class_false. destruct (is_space c); [|reflexivity].
  change ((fix repeat (n : nat) (prev0 : option char) (s : jsstring) {struct n} : option mstate := _) (List.length s') (Some c) s')
    with (matcher false (Star (CharSet is_space)) (Some c) s' (fun a b => Some (a, b))).
  rewrite matcher_star_class.
  rewrite (greedy_ext _ is_space) by apply in_class_false.
  rewrite greedy_final, dropRun_space. reflexivity.
Qed.

Lemma exec_empty_quotes : forall prev s,
  exec_at false re_empty_quotes prev s =
  match s with
  | a :: s1 =>
      match s1 with
      | b :: s2 => if is_quote a && N.eqb a b then Some (Some b, s2) else None
      | [] => None
      end
  | [] => None
  end.
Proof.
  intros prev s. unfold exec_at, re_empty_quotes. cbn [matcher canonicalize].
  destruct s as [|a [|b s2]]; try reflexivity.
  - destruct (N.eqb a quote), (N.eqb a dquote), (N.eqb a backtick); reflexivity.
  - unfold is_quote.
    destruct (N.eqb_spec a quote) as [->|H1];
      [|destruct (N.eqb_spec a dquote) as [->|H2];
        [|destruct (N.eqb_spec a backtick) as [->|H3]]];
      cbn [orb andb];
      try match goal with
          | |- context [N.eqb ?q b] => rewrite (N.eqb_sym q b); destruct (N.eqb b q)
          end; reflexivity.
Qed.

Lemma replace_empty_quotes_loop : forall n prev s,
  List.length s < n ->
  replace_loop n re_empty_quotes [] prev s = removeEmptyQuotePairs s.
Proof.
  induction n as [|n IH]; intros prev s Hn; [lia|].
  cbn [replace_loop]. rewrite exec_empty_quotes.
  destruct s as [|a [|b s2]].
  - reflexivity.
  - simpl. destruct n; [simpl in Hn; lia|]. reflexivity.
  - cbn [removeEmptyQuotePairs].
    destruct (is_quote a && N.eqb a b).
    + replace (List.length s2 <? List.length (a :: b :: s2)) with true
        by (symmetry; apply Nat.ltb_lt; simpl; lia).
      simpl. apply IH. simpl in Hn. lia.
    + f_equal. apply IH. simpl in *. lia.
Qed.

Lemma replace_empty_quotes : forall s,
  replace_all re_empty_quotes [] s = removeEmptyQuotePairs s.
Proof. intros s. apply replace_empty_quotes_loop. lia. Qed.

Lemma exec_backslash : forall prev s,
  exec_at false re_backslash prev s =
  match s with
  | c :: s' => if N.eqb c backslash then Some (Some c, s') else None
  | [] => None
  end.
Proof. intros prev [|c s']; reflexivity. Qed.

Lemma replace_backslash_loop : forall n prev s,
  List.length s < n ->
  replace_loop n re_backslash [] prev s = removeBackslashes s.
Proof.
  induction n as [|n IH]; intros prev s Hn; [lia|].
  cbn [replace_loop]. rewrite exec_backslash.
  destruct s as [|c s']; [reflexivity|].
  unfold removeBackslashes. cbn [List.filter].
  destruct (N.eqb c backslash); cbn [negb].
  - replace (List.length s' <? List.length (c :: s')) with true
      by (symmetry; apply Nat.ltb_lt; simpl; lia).
    simpl. apply IH. simpl in Hn. lia.
  - f_equal. apply IH. simpl in Hn. lia.
Qed.

Lemma replace_backslash : forall s,
  replace_all re_backslash [] s = removeBackslashes s.
Proof. intros s. apply replace_backslash_loop. lia. Qed.

Lemma fields_true_trim : forall s, fields true s = fields false (trimStart s).
Proof.
  induction s as [|c s IH]; simpl; [reflexivity|].
  destruct (is_space c) eqn:E; [assumption|].
  simpl. now rewrite E.
Qed.

Lemma fields_not_nil : forall b s, fields b s <> [].
Proof.
  intros b s. revert b. induction s as [|c s IH]; intros b; simpl; [discriminate|].
  destruct (is_space c).
  - destruct b; [apply IH | discriminate].
  - unfold add_to_first. destruct (fields false s); discriminate.
Qed.

Lemma split_spaces_loop : forall n acc prev s,
  List.length s < n ->
  split_loop n re_spaces acc prev s = app_to_first (List.rev acc) (fields false s).
Proof.
  induction n as [|n IH]; intros acc prev s Hn; [lia|].
  cbn [split_loop]. destruct s as [|c s'].
  - simpl. now rewrite app_nil_r.
  - rewrite exec_spaces. cbn [fields].
    pose proof (trimStart_length s') as Hl.
    destruct (is_space c) eqn:E.
    + replace (List.length (trimStart s') =? List.length (c :: s')) with false
        by (symmetry; apply Nat.eqb_neq; simpl; lia).
      cbn [andb]. rewrite IH by (simpl in Hn; lia).
      rewrite fields_true_trim. simpl. rewrite app_nil_r.
      destruct (fields false (trimStart s')) eqn:F; [now apply fields_not_nil in F|].
      reflexivity.
    + rewrite IH by (simpl in Hn; lia).
      cbn [List.rev]. destruct (fields false s') as [|f fs]; cbn [add_to_first app_to_first];
        rewrite <- ?app_assoc; reflexivity.
Qed.

Lemma split_spaces : forall s, split re_spaces s = fields false s.
Proof.
  intros [|c s]; [reflexivity|].
  unfold split. rewrite split_spaces_loop by (simpl; lia).
  pose proof (fields_not_nil false (c :: s)) as F.
  destruct (fields false (c :: s)); [contradiction | reflexivity].
Qed.

Theorem normalizeCommand_unfold : forall command,
  normalizeCommand command =
  match fields false (removeEmptyQuotePairs command) with
  | p0 :: ps => join [space] (removeBackslashes p0 :: ps)
  | [] => removeEmptyQuotePairs command
  end.
Proof.
  intros. unfold normalizeCommand.
  rewrite replace_empty_quotes, split_spaces.
  destruct (fields _ _); [reflexivity|]. now rewrite replace_backslash.
Qed.

(* ===================================================================== *)
(** ** Fields and joins                                                   *)
(* ===================================================================== *)

Lemma fields_shape : forall s,
  fields_ok (fields false s) /\ later_fields_ok (fields true s).
Proof.
  induction s as [|c s [IH1 IH2]]; [simpl; auto|].
  cbn [fields]. destruct (is_space c) eqn:E.
  - split; [|assumption]. simpl. auto.
  - assert (H : fields_ok (add_to_first c (fields false s))
                /\ later_fields_ok (add_to_first c (fields false s))).
    { destruct (fields false s) as [|f fs]; [contradiction|].
      destruct IH1 as [Hf Hfs]. cbn [add_to_first].
      assert (Hc : no_space (c :: f) = true) by (simpl; now rewrite E, Hf).
      split; [split; assumption|].
      destruct fs; [assumption|]. split; [assumption|]. split; [discriminate|assumption]. }
    exact H.
Qed.

Lemma add_app_to_first : forall c g l,
  app_to_first (c :: g) l = add_to_first c (app_to_first g l).
Proof. intros c g [|f fs]; reflexivity. Qed.

Lemma fields_no_space_prefix : forall g s,
  no_space g = true ->
  fields false (g ++ s) = app_to_first g (fields false s).
Proof.
  induction g as [|c g IH]; intros s H.
  - simpl. pose proof (fields_not_nil false s).
    destruct (fields false s); [contradiction|reflexivity].
  - simpl in H. apply andb_true_iff in H. destruct H as [Hc Hg].
    apply negb_true_iff in Hc.
    rewrite add_app_to_first, <- IH by assumption.
    simpl. now rewrite Hc.
Qed.

Lemma fields_true_no_space_prefix : forall g s,
  no_space g = true -> g <> [] ->
  fields true (g ++ s) = app_to_first g (fields false s).
Proof.
  intros [|c g] s H Hne; [contradiction|].
  rewrite <- fields_no_space_prefix by assumption.
  simpl in H. apply andb_true_iff in H. destruct H as [Hc _].
  apply negb_true_iff in Hc. simpl. now rewrite Hc.
Qed.

Lemma fields_space_cons : forall b s,
  fields b (space :: s) = if b then fields true s else [] :: fields true s.
Proof. reflexivity. Qed.

Lemma fields_of_no_space : forall b g, no_space g = true -> fields b g = [g].
Proof.
  intros b g H. destruct g as [|c g]; [reflexivity|].
  assert (E : fields b (c :: g) = fields false ((c :: g) ++ [])).
  { rewrite app_nil_r. simpl in *. apply andb_true_iff in H. destruct H as [Hc _].
    apply negb_true_iff in Hc. now rewrite Hc. }
  rewrite E, fields_no_space_prefix by assumption. simpl. now rewrite app_nil_r.
Qed.

Lemma fields_join_later : forall fs,
  later_fields_ok fs -> fs <> [] -> fields true (join [space] fs) = fs.
Proof.
  induction fs as [|f fs IH]; intros H Hne; [contradiction|].
  destruct fs as [|f' fs'].
  - simpl in *. now apply fields_of_no_space.
  - destruct H as [Hf [Hnn Hl]].
    change (join [space] (f :: f' :: fs')) with (f ++ space :: join [space] (f' :: fs')).
    rewrite fields_true_no_space_prefix by assumption.
    rewrite fields_space_cons, IH by (assumption || discriminate).
    simpl. now rewrite app_nil_r.
Qed.

(** Splitting a joined list of fields gives the fields back. *)
Lemma fields_join : forall fs,
  fields_ok fs -> fields false (join [space] fs) = fs.
Proof.
  intros [|f fs] H; [contradiction|]. destruct H as [Hf Hl].
  destruct fs as [|f' fs'].
  - simpl. now apply fields_of_no_space.
  - change (join [space] (f :: f' :: fs')) with (f ++ space :: join [space] (f' :: fs')).
    rewrite fields_no_space_prefix by assumption.
    rewrite fields_space_cons, fields_join_later by (assumption || discriminate).
    simpl. now rewrite app_nil_r.
Qed.

Lemma removeBackslashes_no_space : forall s,
  no_space s = true -> no_space (removeBackslashes s) = true.
Proof.
  induction s as [|c s IH]; intros H; [reflexivity|].
  simpl in H. apply andb_true_iff in H. destruct H as [Hc Hs].
  unfold removeBackslashes. simpl. destruct (N.eqb c backslash); simpl.
  - now apply IH.
  - rewrite Hc. now apply IH.
Qed.

Lemma removeBackslashes_idem : forall s,
  removeBackslashes (removeBackslashes s) = removeBackslashes s.
Proof.
  induction s as [|c s IH]; [reflexivity|].
  unfold removeBackslashes in *. simpl.
  destruct (N.eqb c backslash) eqn:E; simpl; [assumption|].
  rewrite E. simpl. now f_equal.
Qed.

Lemma removeBackslashes_length : forall s,
  List.length (removeBackslashes s) <= List.length s.
Proof.
  induction s as [|c s IH]; [simpl; lia|].
  unfold removeBackslashes in *. simpl. destruct (negb _); simpl; lia.
Qed.

Lemma normalizeCommand_fields : forall command,
  normalizeCommand command = join [space] (normalizedFields command)
  /\ fields_ok (normalizedFields command).
Proof.
  intros command. rewrite normalizeCommand_unfold. unfold normalizedFields.
  pose proof (proj1 (fields_shape (removeEmptyQuotePairs command))) as H.
  destruct (fields false _) as [|p0 ps]; [contradiction|].
  split; [reflexivity|]. destruct H as [H0 Hl]. split; [|assumption].
  now apply removeBackslashes_no_space.
Qed.

(* ===================================================================== *)
(** ** Normalisation: repeated application                                *)
(* ===================================================================== *)

Lemma removeEmptyQuotePairs_fixed : forall s,
  has_empty_quote_pair s = false -> removeEmptyQuotePairs s = s.
Proof.
  induction s as [|a s IH]; intros H; [reflexivity|].
  destruct s as [|b s2]; [reflexivity|].
  cbn [has_empty_quote_pair] in H. apply orb_false_iff in H. destruct H as [H1 H2].
  cbn [removeEmptyQuotePairs]. rewrite H1. f_equal. now apply IH.
Qed.

Lemma removeEmptyQuotePairs_cons2 : forall a b s,
  removeEmptyQuotePairs (a :: b :: s) =
  if is_quote a && N.eqb a b then removeEmptyQuotePairs s
  else a :: removeEmptyQuotePairs (b :: s).
Proof. reflexivity. Qed.

Lemma has_empty_quote_pair_cons2 : forall a b s,
  has_empty_quote_pair (a :: b :: s) =
  (is_quote a && N.eqb a b) || has_empty_quote_pair (b :: s).
Proof. reflexivity. Qed.

Lemma removeEmptyQuotePairs_length_strong : forall n s,
  List.length s <= n ->
  List.length (removeEmptyQuotePairs s) <= List.length s
  /\ (has_empty_quote_pair s = true ->
      List.length (removeEmptyQuotePairs s) < List.length s).
Proof.
  induction n as [|n IH]; intros s Hn.
  - destruct s; [simpl; split; [lia|discriminate] | simpl in Hn; lia].
  - destruct s as [|a [|b s2]]; try (simpl; split; [lia|discriminate]).
    rewrite removeEmptyQuotePairs_cons2, has_empty_quote_pair_cons2.
    destruct (is_quote a && N.eqb a b) eqn:E.
    + assert (Hs : List.length s2 <= n) by (simpl in Hn; lia).
      destruct (IH s2 Hs) as [H1 _]. cbn [List.length]. split; intros; lia.
    + assert (Hs : List.length (b :: s2) <= n) by (simpl in Hn; simpl; lia).
      destruct (IH (b :: s2) Hs) as [H1 H2].
      cbn [orb]. cbn [List.length] in *. split; [lia|].
      intros H. specialize (H2 H). lia.
Qed.

Lemma removeEmptyQuotePairs_length : forall s,
  List.length (removeEmptyQuotePairs s) <= List.length s.
Proof. intros s. now apply (removeEmptyQuotePairs_length_strong (List.length s)). Qed.

Lemma removeEmptyQuotePairs_shrinks : forall s,
  has_empty_quote_pair s = true ->
  List.length (removeEmptyQuotePairs s) < List.length s.
Proof. intros s. now apply (removeEmptyQuotePairs_length_strong (List.length s)). Qed.

Lemma join_cons_cons : forall sep p q ps,
  join sep (p :: q :: ps) = p ++ sep ++ join sep (q :: ps).
Proof. reflexivity. Qed.

Lemma join_add_to_first_length : forall sep c fs,
  List.length (join sep (add_to_first c fs)) = S (List.length (join sep fs)).
Proof. intros sep c [|f [|f' fs]]; reflexivity. Qed.

Lemma join_fields_length : forall s b,
  List.length (join [space] (fields b s)) <= List.length s.
Proof.
  induction s as [|c s IH]; intros b; [simpl; lia|].
  cbn [fields]. destruct (is_space c).
  - destruct b.
    + specialize (IH true). simpl. lia.
    + specialize (IH true). pose proof (fields_not_nil true s).
      destruct (fields true s); [contradiction|].
      rewrite join_cons_cons. simpl in *. lia.
  - rewrite join_add_to_first_length. specialize (IH false). simpl. lia.
Qed.

Lemma join_first_length : forall sep p q ps,
  List.length p <= List.length q ->
  List.length (join sep (p :: ps)) <= List.length (join sep (q :: ps)).
Proof.
  intros sep p q [|r ps] H; [assumption|].
  rewrite !join_cons_cons, !length_app. lia.
Qed.

Lemma normalizeCommand_length : forall s,
  List.length (normalizeCommand s) <= List.length (removeEmptyQuotePairs s).
Proof.
  intros s. rewrite normalizeCommand_unfold.
  pose proof (join_fields_length (removeEmptyQuotePairs s) false) as H.
  destruct (fields false _) as [|p0 ps]; [lia|].
  eapply Nat.le_trans; [|exact H].
  apply join_first_length, removeBackslashes_length.
Qed.

Lemma normalizeCommand_stable : forall command,
  has_empty_quote_pair (normalizeCommand command) = false ->
  normalizeCommand (normalizeCommand command) = normalizeCommand command.
Proof.
  intros command H.
  destruct (normalizeCommand_fields command) as [E Hok].
  rewrite (normalizeCommand_unfold (normalizeCommand command)).
  rewrite removeEmptyQuotePairs_fixed by assumption.
  rewrite E at 1 2. rewrite fields_join by assumption.
  rewrite E. unfold normalizedFields in *.
  destruct (fields false (removeEmptyQuotePairs command)); [contradiction|].
  now rewrite removeBackslashes_idem.
Qed.

Lemma normalizeCommand_unstable : forall command,
  has_empty_quote_pair (normalizeCommand command) = true ->
  normalizeCommand (normalizeCommand command) <> normalizeCommand command.
Proof.
  intros command H E.
  pose proof (normalizeCommand_length (normalizeCommand command)) as L.
  pose proof (removeEmptyQuotePairs_shrinks _ H) as L'.
  rewrite E in L. lia.
Qed.

(* ===================================================================== *)
(** ** Normalisation and whitespace                                       *)
(* ===================================================================== *)

Lemma single_spaced_no_space_prefix : forall g s,
  no_space g = true -> single_spaced (g ++ s) = single_spaced s.
Proof.
  induction g as [|c g IH]; intros s H; [reflexivity|].
  simpl in H. apply andb_true_iff in H. destruct H as [Hc Hg].
  apply negb_true_iff in Hc. simpl. rewrite Hc. simpl. now apply IH.
Qed.

Lemma no_space_head : forall g s,
  no_space g = true -> g <> [] -> no_space_at_head (g ++ s) = true.
Proof.
  intros [|c g] s H Hne; [contradiction|].
  simpl in *. now apply andb_true_iff in H.
Qed.

Lemma join_later_head : forall fs,
  later_fields_ok fs -> no_space_at_head (join [space] fs) = true.
Proof.
  intros [|f [|f' fs']] H; [reflexivity| |].
  - simpl in *. destruct f; [reflexivity|]. simpl in *. now apply andb_true_iff in H.
  - destruct H as [Hf [Hne _]]. rewrite join_cons_cons. now apply no_space_head.
Qed.

Lemma join_later_single_spaced : forall fs,
  later_fields_ok fs -> single_spaced (join [space] fs) = true.
Proof.
  induction fs as [|f fs IH]; intros H; [reflexivity|].
  destruct fs as [|f' fs'].
  - simpl in *. rewrite <- (app_nil_r f). now rewrite single_spaced_no_space_prefix.
  - destruct H as [Hf [Hne Hl]]. rewrite join_cons_cons.
    rewrite single_spaced_no_space_prefix by assumption.
    change ([space] ++ join [space] (f' :: fs')) with (space :: join [space] (f' :: fs')).
    cbn [single_spaced]. rewrite IH by assumption.
    rewrite join_later_head by assumption. reflexivity.
Qed.

Lemma join_single_spaced : forall fs,
  fields_ok fs -> single_spaced (join [space] fs) = true.
Proof.
  intros [|f fs] H; [contradiction|]. destruct H as [Hf Hl].
  destruct fs as [|f' fs'].
  - simpl. rewrite <- (app_nil_r f). now rewrite single_spaced_no_space_prefix.
  - rewrite join_cons_cons, single_spaced_no_space_prefix by assumption.
    change ([space] ++ join [space] (f' :: fs')) with (space :: join [space] (f' :: fs')).
    cbn [single_spaced]. rewrite join_later_single_spaced, join_later_head by assumption.
    reflexivity.
Qed.

Lemma space_not_quote : forall c, is_space c = true -> is_quote c = false.
Proof.
  intros c H. unfold is_quote.
  destruct (N.eqb_spec c quote) as [->|_]; [discriminate|].
  destruct (N.eqb_spec c dquote) as [->|_]; [discriminate|].
  destruct (N.eqb_spec c backtick) as [->|_]; [discriminate|reflexivity].
Qed.

Lemma removeEmptyQuotePairs_cons_other : forall a s,
  is_quote a = false ->
  removeEmptyQuotePairs (a :: s) = a :: removeEmptyQuotePairs s.
Proof.
  intros a [|b s] H; [reflexivity|].
  rewrite removeEmptyQuotePairs_cons2, H. reflexivity.
Qed.

Lemma removeEmptyQuotePairs_space_run : forall w s,
  all_space w = true ->
  removeEmptyQuotePairs (w ++ s) = w ++ removeEmptyQuotePairs s.
Proof.
  induction w as [|c w IH]; intros s H; [reflexivity|].
  simpl in H. apply andb_true_iff in H. destruct H as [Hc Hw].
  simpl app. rewrite removeEmptyQuotePairs_cons_other by now apply space_not_quote.
  now rewrite IH.
Qed.

Lemma removeEmptyQuotePairs_ws_variant_strong : forall n s1 s2,
  List.length s1 <= n -> ws_variant s1 s2 ->
  ws_variant (removeEmptyQuotePairs s1) (removeEmptyQuotePairs s2).
Proof.
  induction n as [|n IH]; intros s1 s2 Hn H.
  - destruct s1; [|simpl in Hn; lia].
    inversion H as [| |w1 w2 t1 t2 Hw1 Hw2 Ha1 Ha2 Ht E1 E2]; subst; [constructor|].
    destruct w1; [congruence | discriminate].
  - inversion H as [|c t1 t2 Hc Ht|w1 w2 t1 t2 Hw1 Hw2 Ha1 Ha2 Ht]; subst.
    + constructor.
    + destruct (is_quote c) eqn:Q.
      * inversion Ht as [|d u1 u2 Hd Hu|v1 v2 u1 u2 Hv1 Hv2 Hb1 Hb2 Hu]; subst.
        -- simpl. now constructor.
        -- rewrite !removeEmptyQuotePairs_cons2, Q. cbn [andb].
           destruct (N.eqb c d).
           ++ apply IH; [simpl in Hn |- *; lia | assumption].
           ++ constructor; [assumption|]. apply IH; [simpl in Hn |- *; lia | assumption].
        -- destruct v1 as [|x v1]; [contradiction|].
           destruct v2 as [|y v2]; [contradiction|].
           simpl in Hb1, Hb2.
           apply andb_true_iff in Hb1. destruct Hb1 as [Hx _].
           apply andb_true_iff in Hb2. destruct Hb2 as [Hy _].
           simpl app. rewrite !removeEmptyQuotePairs_cons2.
           assert (Ex : N.eqb c x = false).
           { apply N.eqb_neq. intros ->. rewrite Hx in Hc. discriminate. }
           assert (Ey : N.eqb c y = false).
           { apply N.eqb_neq. intros ->. rewrite Hy in Hc. discriminate. }
           rewrite Ex, Ey, andb_false_r.
           constructor; [assumption|].
           apply IH; [simpl in Hn |- *; lia | assumption].
      * rewrite !removeEmptyQuotePairs_cons_other by assumption.
        constructor; [assumption|]. apply IH; [simpl in Hn |- *; lia | assumption].
    + rewrite !removeEmptyQuotePairs_space_run by assumption.
      constructor; try assumption.
      apply IH; [|assumption].
      destruct w1; [contradiction|]. simpl in Hn. rewrite length_app in Hn. lia.
Qed.

Lemma removeEmptyQuotePairs_ws_variant : forall s1 s2,
  ws_variant s1 s2 ->
  ws_variant (removeEmptyQuotePairs s1) (removeEmptyQuotePairs s2).
Proof. intros s1 s2. now apply (removeEmptyQuotePairs_ws_variant_strong (List.length s1)). Qed.

Lemma fields_true_space_run : forall w s,
  all_space w = true -> fields true (w ++ s) = fields true s.
Proof.
  induction w as [|c w IH]; intros s H; [reflexivity|].
  simpl in H. apply andb_true_iff in H. destruct H as [Hc Hw].
  simpl. rewrite Hc. now apply IH.
Qed.

Lemma fields_space_run : forall b w s,
  all_space w = true -> w <> [] ->
  fields b (w ++ s) = if b then fields true s else [] :: fields true s.
Proof.
  intros b [|c w] s H Hne; [contradiction|].
  simpl in H. apply andb_true_iff in H. destruct H as [Hc Hw].
  simpl. rewrite Hc, fields_true_space_run by assumption. reflexivity.
Qed.

Lemma fields_ws_variant : forall s1 s2,
  ws_variant s1 s2 -> forall b, fields b s1 = fields b s2.
Proof.
  induction 1 as [|c s1 s2 Hc _ IH|w1 w2 s1 s2 H1 H2 A1 A2 _ IH]; intros b.
  - reflexivity.
  - simpl. rewrite Hc. now rewrite IH.
  - rewrite !fields_space_run by assumption. now rewrite IH.
Qed.

Lemma normalizeCommand_ws_variant : forall c1 c2,
  ws_variant c1 c2 -> normalizeCommand c1 = normalizeCommand c2.
Proof.
  intros c1 c2 H. rewrite !normalizeCommand_unfold.
  apply removeEmptyQuotePairs_ws_variant in H.
  rewrite (fields_ws_variant _ _ H false).
  destruct (fields false (removeEmptyQuotePairs c2)) eqn:F; [|reflexivity].
  now apply fields_not_nil in F.
Qed.

(** For a command that starts with whitespace the first piece is empty:
    the backslash removal has nothing to work on. *)
Lemma normalizeCommand_leading_space : forall c s,
  is_space c = true ->
  normalizeCommand (c :: s)
  = join [space] (fields false (removeEmptyQuotePairs (c :: s))).
Proof.
  intros c s H. rewrite normalizeCommand_unfold.
  rewrite removeEmptyQuotePairs_cons_other by now apply space_not_quote.
  cbn [fields]. now rewrite H.
Qed.

(* ===================================================================== *)
(** ** Trimming                                                           *)
(* ===================================================================== *)

Lemma trimStart_app : forall a b,
  trimStart (a ++ b) =
  match trimStart a with [] => trimStart b | r => r ++ b end.
Proof.
  induction a as [|c a IH]; intros b; simpl.
  - destruct (trimStart b); reflexivity.
  - destruct (is_space c); [apply IH | reflexivity].
Qed.

Lemma trimStart_all_space : forall s, all_space s = true <-> trimStart s = [].
Proof.
  induction s as [|c s IH]; simpl; [tauto|].
  destruct (is_space c); simpl; [assumption|].
  split; discriminate.
Qed.

Lemma all_space_rev : forall s, all_space (List.rev s) = all_space s.
Proof.
  intros s. unfold all_space. induction s as [|c s IH]; [reflexivity|].
  simpl. rewrite forallb_app, IH. simpl. rewrite andb_true_r. apply andb_comm.
Qed.

(** [trimEnd] by recursion from the front. *)
Lemma trimEnd_cons : forall c s,
  trimEnd (c :: s) = if all_space (c :: s) then [] else c :: trimEnd s.
Proof.
  intros c s. unfold trimEnd. cbn [List.rev]. rewrite trimStart_app.
  destruct (trimStart (List.rev s)) as [|x r] eqn:E.
  - apply trimStart_all_space in E. rewrite all_space_rev in E.
    cbn [all_space List.forallb] in *. unfold all_space in E. rewrite E, andb_true_r.
    simpl. destruct (is_space c); reflexivity.
  - assert (A : all_space s = false).
    { destruct (all_space s) eqn:A; [|reflexivity].
      rewrite <- all_space_rev in A. apply trimStart_all_space in A. congruence. }
    cbn [all_space List.forallb]. unfold all_space in A. rewrite A, andb_false_r.
    rewrite rev_app_distr. reflexivity.
Qed.


Lemma trimEnd_all_space : forall s, all_space s = true -> trimEnd s = [].
Proof.
  intros [|c s] H; [reflexivity|]. now rewrite trimEnd_cons, H.
Qed.

Lemma all_space_cons : forall c s,
  all_space (c :: s) = is_space c && all_space s.
Proof. reflexivity. Qed.

Lemma trimStart_trimEnd : forall s, trimStart (trimEnd s) = trimEnd (trimStart s).
Proof.
  induction s as [|c s IH]; [reflexivity|].
  rewrite trimEnd_cons. destruct (all_space (c :: s)) eqn:A.
  - symmetry. apply trimEnd_all_space.
    rewrite all_space_cons in A. apply andb_true_iff in A. destruct A as [Hc Hs].
    simpl. rewrite Hc. apply trimStart_all_space in Hs.
    rewrite Hs. reflexivity.
  - simpl. destruct (is_space c) eqn:Hc; [assumption|].
    rewrite trimEnd_cons, A. reflexivity.
Qed.






Lemma trimStart_head : forall s, no_space_at_head (trimStart s) = true.
Proof.
  induction s as [|c s IH]; [reflexivity|].
  simpl. destruct (is_space c) eqn:Hc; [assumption|]. simpl. now rewrite Hc.
Qed.



(* ===================================================================== *)
(** ** Tokens of a segment and the wrapper loop                           *)
(* ===================================================================== *)



Lemma array_includes_In : forall arr x, array_includes arr x = true <-> In x arr.
Proof.
  intros arr x. unfold array_includes. rewrite existsb_exists. split.
  - intros [y [Hy E]]. apply eqb_eq in E. now subst.
  - intros H. exists x. split; [assumption | apply eqb_refl].
Qed.

Lemma skipWrappers_index : forall rest pre,
  List.nth_error (pre ++ rest) (skipWrappers rest (List.length pre))
  = firstNonWrapper rest.
Proof.
  induction rest as [|t rest IH]; intros pre.
  - simpl. rewrite app_nil_r. apply nth_error_None. lia.
  - cbn [skipWrappers firstNonWrapper]. destruct (array_includes wrappers t).
    + specialize (IH (pre ++ [t])).
      rewrite <- app_assoc, length_app in IH. cbn [List.length app] in IH.
      now rewrite Nat.add_1_r in IH.
    + rewrite nth_error_app2, Nat.sub_diag by lia. reflexivity.
Qed.

(** The command token is the first token that is not a wrapper, or
    [tokens[0]] when there is none. *)
Lemma commandToken_spec : forall tokens,
  commandToken tokens =
  match firstNonWrapper tokens with
  | Some t => Some t
  | None => List.hd_error tokens
  end.
Proof.
  intros tokens. unfold commandToken.
  pose proof (skipWrappers_index tokens []) as H. simpl in H. rewrite H.
  destruct (firstNonWrapper tokens); [reflexivity|].
  destruct tokens; reflexivity.
Qed.

Lemma firstNonWrapper_Some : forall tokens t,
  firstNonWrapper tokens = Some t ->
  In t tokens /\ array_includes wrappers t = false.
Proof.
  induction tokens as [|x tokens IH]; intros t H; [discriminate|].
  cbn [firstNonWrapper] in H. destruct (array_includes wrappers x) eqn:W.
  - destruct (IH _ H) as [H1 H2]. split; [now right | assumption].
  - injection H as <-. split; [now left | assumption].
Qed.



Lemma truthy_true : forall s, truthy s = true <-> s <> [].
Proof. intros [|c s]; simpl; split; congruence. Qed.



(* ===================================================================== *)
(** ** The separator regex and the segments of a command                  *)
(* ===================================================================== *)

Lemma matcher_seq : forall ic r1 r2 prev s k,
  matcher ic (Seq r1 r2) prev s k =
  matcher ic r1 prev s (fun prev' s' => matcher ic r2 prev' s' k).
Proof. reflexivity. Qed.

Lemma matcher_ext : forall ic r prev s (k k' : Continuation),
  (forall p t, k p t = k' p t) -> matcher ic r prev s k = matcher ic r prev s k'.
Proof.
  intros ic r. induction r as [|c|p| | | |r1 IH1 r2 IH2|r1 IH1 r2 IH2|r IH];
    intros prev s k k' H; cbn [matcher].
  - apply H.
  - destruct s; [reflexivity|]. now rewrite H.
  - destruct s; [reflexivity|]. now rewrite H.
  - now rewrite H.
  - destruct prev; [reflexivity | apply H].
  - destruct s; [apply H | reflexivity].
  - apply IH1. intros p t. now apply IH2.
  - rewrite (IH1 prev s k k' H), (IH2 prev s k k' H). reflexivity.
  - generalize (List.length s) as n. intros n. revert prev s.
    induction n as [|n IHn]; intros prev s; [apply H|].
    rewrite H.
    rewrite (IH prev s _ (fun prev' s' =>
               if List.length s' <? List.length s
               then (fix repeat (n : nat) (prev : option char) (s : jsstring) {struct n} : option mstate :=
                       match n with
                       | O => k' prev s
                       | S n' =>
                           match matcher ic r prev s
                                   (fun prev' s' =>
                                      if List.length s' <? List.length s
                                      then repeat n' prev' s' else None) with
                           | Some st => Some st
                           | None => k' prev s
                           end
                       end) n prev' s'
               else None)).
    + reflexivity.
    + intros p t. destruct (List.length t <? List.length s); [apply IHn | reflexivity].
Qed.

Lemma matcher_star_spaces : forall prev s,
  matcher false (Star (CharSet is_space)) prev s (fun a b => Some (a, b))
  = after_spaces prev s.
Proof.
  intros prev s. rewrite matcher_star_class.
  rewrite (greedy_ext _ is_space) by apply in_class_false.
  rewrite greedy_final, dropRun_space. reflexivity.
Qed.

Lemma matcher_operator : forall prev t,
  option_map snd (matcher false re_operator prev t after_spaces)
  = after_separator t.
Proof.
  intros prev t. unfold re_operator, after_spaces.
  cbn [matcher canonicalize]. unfold in_class. cbn [andb]. rewrite ?orb_false_r.
  destruct t as [|a [|b t2]].
  - reflexivity.
  - cbn [after_separator].
    destruct (N.eqb a pipe), (N.eqb a amp); destruct (is_single_separator a); reflexivity.
  - cbn [after_separator].
    destruct (N.eqb a pipe), (N.eqb b pipe), (N.eqb a amp), (N.eqb b amp);
      destruct (is_single_separator a); reflexivity.
Qed.

Lemma operator_rejects_space : forall prev c s,
  is_space c = true ->
  matcher false re_operator prev (c :: s) after_spaces = None.
Proof.
  intros prev c s H.
  assert (E : option_map snd (matcher false re_operator prev (c :: s) after_spaces) = None).
  { rewrite matcher_operator.
    assert (Hp : N.eqb c pipe = false) by (apply N.eqb_neq; intros ->; discriminate).
    assert (Ha : N.eqb c amp = false) by (apply N.eqb_neq; intros ->; discriminate).
    assert (Hs : N.eqb c semicolon = false) by (apply N.eqb_neq; intros ->; discriminate).
    unfold after_separator, is_single_separator. rewrite Hp, Ha, Hs.
    destruct s; reflexivity. }
  destruct (matcher _ _ _ _ _); [discriminate | reflexivity].
Qed.

Lemma greedy_ext_k : forall p (k k' : Continuation) prev s,
  (forall a t, k a t = k' a t) -> greedy p k prev s = greedy p k' prev s.
Proof.
  intros p k k' prev s H. revert prev.
  induction s as [|c s IH]; intros prev; simpl; [apply H|].
  rewrite IH, H. reflexivity.
Qed.

Lemma operator_then_spaces : forall prev t,
  matcher false (Seq re_operator (Star (CharSet is_space))) prev t
          (fun a b => Some (a, b))
  = matcher false re_operator prev t after_spaces.
Proof.
  intros prev t. rewrite matcher_seq. apply matcher_ext.
  intros p u. apply matcher_star_spaces.
Qed.

(** A match of the separator regex: skip the whitespace, then an operator
    (the two-character ones first), then the whitespace after it. *)
Lemma exec_separator : forall prev s,
  option_map snd (exec_at false re_separator prev s)
  = after_separator (trimStart s).
Proof.
  intros prev s. unfold exec_at.
  change re_separator
    with (Seq (Star (CharSet is_space)) (Seq re_operator (Star (CharSet is_space)))).
  rewrite matcher_seq, matcher_star_class.
  rewrite (greedy_ext _ is_space) by apply in_class_false.
  rewrite (greedy_ext_k _ _ (fun p t => matcher false re_operator p t after_spaces))
    by apply operator_then_spaces.
  rewrite greedy_commit by (intros; now apply operator_rejects_space).
  rewrite dropRun_space. apply matcher_operator.
Qed.

Lemma after_separator_shorter : forall s rest,
  after_separator s = Some rest -> List.length rest < List.length s.
Proof.
  intros [|a [|b s2]] rest H; simpl in H; try discriminate.
  - destruct (is_single_separator a); [|discriminate]. injection H as <-. simpl. lia.
  - pose proof (trimStart_length s2). pose proof (trimStart_length (b :: s2)).
    destruct (_ || _).
    + injection H as <-. simpl. lia.
    + destruct (is_single_separator a); [|discriminate]. injection H as <-.
      simpl in *. lia.
Qed.

Lemma exec_separator_cases : forall prev s,
  match after_separator (trimStart s) with
  | Some rest =>
      exists prev', exec_at false re_separator prev s = Some (prev', rest)
                    /\ List.length rest < List.length s
  | None => exec_at false re_separator prev s = None
  end.
Proof.
  intros prev s. pose proof (exec_separator prev s) as H.
  destruct (after_separator (trimStart s)) as [rest|] eqn:A.
  - destruct (exec_at false re_separator prev s) as [[p r]|]; [|discriminate].
    simpl in H. injection H as ->. exists p. split; [reflexivity|].
    apply after_separator_shorter in A. pose proof (trimStart_length s). lia.
  - destruct (exec_at false re_separator prev s); [discriminate | reflexivity].
Qed.

Lemma split_separator_match : forall n acc prev c s rest,
  after_separator (trimStart (c :: s)) = Some rest ->
  exists prev',
    split_loop (S n) re_separator acc prev (c :: s)
    = List.rev acc :: split_loop n re_separator [] prev' rest.
Proof.
  intros n acc prev c s rest A.
  pose proof (exec_separator_cases prev (c :: s)) as H. rewrite A in H.
  destruct H as [prev' [E L]]. exists prev'.
  cbn [split_loop]. rewrite E.
  replace (List.length rest =? List.length (c :: s)) with false
    by (symmetry; apply Nat.eqb_neq; lia).
  reflexivity.
Qed.

Lemma split_separator_skip : forall n acc prev c s,
  after_separator (trimStart (c :: s)) = None ->
  split_loop (S n) re_separator acc prev (c :: s)
  = split_loop n re_separator (c :: acc) (Some c) s.
Proof.
  intros n acc prev c s A.
  pose proof (exec_separator_cases prev (c :: s)) as H. rewrite A in H.
  cbn [split_loop]. now rewrite H.
Qed.

(** With enough fuel, the loop depends neither on the fuel nor on the code
    unit before the scan position. *)
Lemma split_separator_indep : forall n1 n2 acc p1 p2 s,
  List.length s < n1 -> List.length s < n2 ->
  split_loop n1 re_separator acc p1 s = split_loop n2 re_separator acc p2 s.
Proof.
  induction n1 as [|n1 IH]; intros n2 acc p1 p2 s H1 H2; [lia|].
  destruct n2 as [|n2]; [lia|].
  destruct s as [|c s]; [reflexivity|].
  destruct (after_separator (trimStart (c :: s))) as [rest|] eqn:A.
  - destruct (split_separator_match n1 acc p1 _ _ _ A) as [q1 E1].
    destruct (split_separator_match n2 acc p2 _ _ _ A) as [q2 E2].
    rewrite E1, E2. f_equal.
    apply after_separator_shorter in A. pose proof (trimStart_length (c :: s)).
    apply IH; simpl in *; lia.
  - rewrite !split_separator_skip by assumption.
    apply IH; simpl in *; lia.
Qed.

Lemma split_separator_loop : forall s n prev,
  List.length s < n ->
  split_loop n re_separator [] prev s = split re_separator s.
Proof.
  intros [|c s] n prev H.
  - destruct n; [lia|]. reflexivity.
  - unfold split. apply split_separator_indep; simpl in *; lia.
Qed.

Lemma plain_cons : forall c s,
  plain (c :: s) = negb (is_single_separator c) && plain s.
Proof. reflexivity. Qed.

Lemma after_separator_other : forall c s,
  is_single_separator c = false -> after_separator (c :: s) = None.
Proof.
  intros c s H. unfold is_single_separator in H.
  apply orb_false_iff in H. destruct H as [H Ha].
  apply orb_false_iff in H. destruct H as [Hp Hs].
  unfold after_separator, is_single_separator. rewrite Hp, Hs, Ha.
  destruct s; reflexivity.
Qed.

Lemma plain_trimStart : forall s, plain s = true -> plain (trimStart s) = true.
Proof.
  induction s as [|c s IH]; intros H; [reflexivity|].
  rewrite plain_cons in H. apply andb_true_iff in H. destruct H as [Hc Hs].
  simpl. destruct (is_space c); [now apply IH|].
  rewrite plain_cons, Hc. assumption.
Qed.

(** No separator can match where the next non-whitespace code unit belongs
    to a plain piece. *)
Lemma after_separator_plain : forall a tail,
  plain a = true -> all_space a = false ->
  after_separator (trimStart (a ++ tail)) = None.
Proof.
  intros a tail Hp Ha. rewrite trimStart_app.
  destruct (trimStart a) as [|x r] eqn:E.
  - apply trimStart_all_space in E. congruence.
  - apply plain_trimStart in Hp. rewrite E, plain_cons in Hp.
    apply andb_true_iff in Hp. destruct Hp as [Hx _].
    apply negb_true_iff in Hx. simpl. now apply after_separator_other.
Qed.



Lemma split_separator_plain_loop : forall t n acc prev,
  plain t = true -> List.length t < n ->
  split_loop n re_separator acc prev t = [List.rev acc ++ t].
Proof.
  induction t as [|c t IH]; intros n acc prev Hp Hn.
  - destruct n; [lia|]. simpl. now rewrite app_nil_r.
  - destruct n; [lia|].
    assert (A : after_separator (trimStart (c :: t)) = None).
    { destruct (all_space (c :: t)) eqn:Ha.
      - apply trimStart_all_space in Ha. now rewrite Ha.
      - rewrite <- (app_nil_r (c :: t)). now apply after_separator_plain. }
    rewrite split_separator_skip by assumption.
    rewrite plain_cons in Hp. apply andb_true_iff in Hp. destruct Hp as [_ Hp].
    rewrite IH by (assumption || (simpl in *; lia)).
    cbn [List.rev]. now rewrite <- app_assoc.
Qed.

(** A command without separator characters is a single segment. *)
Lemma split_separator_plain : forall t,
  plain t = true -> split re_separator t = [t].
Proof.
  intros t H. rewrite <- (split_separator_loop t (S (List.length t)) None) by lia.
  now rewrite split_separator_plain_loop by (assumption || lia).
Qed.






Lemma extractAllCommandNames_plain : forall t,
  plain t = true -> extractAllCommandNames t = segmentCommandNames t.
Proof.
  intros t H. unfold extractAllCommandNames.
  rewrite split_separator_plain by assumption. simpl. apply app_nil_r.
Qed.


(* ===================================================================== *)
(** ** Simple patterns and word boundaries                                *)
(* ===================================================================== *)

Ltac char_prop H :=
  repeat (rewrite ?orb_true_iff, ?andb_true_iff, ?N.leb_le, ?N.eqb_eq,
           ?N.ltb_lt, ?negb_true_iff, ?N.eqb_neq in H).

Ltac char_false :=
  apply not_true_iff_false;
  let G := fresh "G" in
  intros G; char_prop G.

Lemma simple_class_facts : forall c,
  is_simple_class c = true ->
  is_ascii c = true /\ ascii_lower c = c /\ is_space c = false
  /\ N.eqb c backslash = false /\ is_syntax_char c = false
  /\ in_class true is_simple_class c = true.
Proof.
  intros c H. assert (H' := H). unfold is_simple_class in H. char_prop H.
  repeat split.
  - unfold is_ascii. apply N.ltb_lt. lia.
  - unfold ascii_lower.
    replace ((65 <=? c) && (c <=? 90))%N with false; [reflexivity|].
    symmetry. char_false. lia.
  - unfold is_space. char_false. lia.
  - apply N.eqb_neq. unfold backslash. lia.
  - unfold is_syntax_char. cbn [List.existsb]. char_false. lia.
  - unfold in_class. now rewrite H'.
Qed.

Lemma word_char_ignoring_case : forall x c,
  ascii_upper x = ascii_upper c -> is_word_char c = true -> is_word_char x = true.
Proof.
  intros x c E H. unfold is_word_char in *. unfold ascii_upper in E.
  char_prop H. repeat (rewrite ?orb_true_iff, ?andb_true_iff, ?N.leb_le, ?N.eqb_eq).
  destruct ((97 <=? x) && (x <=? 122))%N eqn:X;
    destruct ((97 <=? c) && (c <=? 122))%N eqn:C;
    char_prop X; char_prop C; lia.
Qed.

Lemma simple_pattern_forall : forall p,
  simple_pattern p = true -> p <> [] /\ Forall (fun c => is_simple_class c = true) p.
Proof.
  intros p H. unfold simple_pattern in H. apply andb_true_iff in H.
  destruct H as [H1 H2]. split; [now apply truthy_true|].
  apply Forall_forall. now apply forallb_forall.
Qed.

Lemma Forall_simple_ascii : forall p,
  Forall (fun c => is_simple_class c = true) p -> List.forallb is_ascii p = true.
Proof.
  induction 1 as [|c p Hc _ IH]; [reflexivity|].
  simpl. rewrite IH, andb_true_r. now apply simple_class_facts.
Qed.

Lemma Forall_simple_lower : forall p,
  Forall (fun c => is_simple_class c = true) p -> List.map ascii_lower p = p.
Proof.
  induction 1 as [|c p Hc _ IH]; [reflexivity|].
  simpl. rewrite IH. f_equal. now apply simple_class_facts.
Qed.

Lemma Forall_simple_no_space : forall p,
  Forall (fun c => is_simple_class c = true) p -> no_space p = true.
Proof.
  induction 1 as [|c p Hc _ IH]; [reflexivity|].
  simpl. rewrite IH, andb_true_r. apply negb_true_iff. now apply simple_class_facts.
Qed.

Lemma Forall_simple_pattern_characters : forall p,
  Forall (fun c => is_simple_class c = true) p -> pattern_characters p = true.
Proof.
  induction 1 as [|c p Hc _ IH]; [reflexivity|].
  unfold pattern_characters in *. simpl. rewrite IH, andb_true_r.
  apply negb_true_iff. now apply simple_class_facts.
Qed.

Lemma trimEnd_no_space : forall s, no_space s = true -> trimEnd s = s.
Proof.
  induction s as [|c s IH]; intros H; [reflexivity|].
  simpl in H. apply andb_true_iff in H. destruct H as [Hc Hs].
  apply negb_true_iff in Hc.
  rewrite trimEnd_cons, all_space_cons, Hc. simpl. now rewrite IH.
Qed.

Lemma trim_no_space : forall s, no_space s = true -> trim s = s.
Proof.
  intros s H. unfold trim.
  assert (E : trimStart s = s).
  { destruct s as [|c s]; [reflexivity|]. simpl in *.
    apply andb_true_iff in H. destruct H as [Hc _].
    apply negb_true_iff in Hc. now rewrite Hc. }
  rewrite E. now apply trimEnd_no_space.
Qed.

Lemma includes_absent_head : forall s c sub,
  Forall (fun x => N.eqb x c = false) s -> includes s (c :: sub) = false.
Proof.
  induction 1 as [|x s Hx _ IH]; [reflexivity|].
  cbn [includes startsWith]. now rewrite Hx, IH.
Qed.

Lemma simple_pattern_no_word_boundary : forall p,
  Forall (fun c => is_simple_class c = true) p -> includes p (js "\b") = false.
Proof.
  intros p H. apply (includes_absent_head p backslash).
  eapply Forall_impl; [|exact H]. intros c Hc. now apply simple_class_facts.
Qed.

Lemma greedy_all : forall p (k : Continuation) prev s,
  List.forallb p s = true ->
  (forall q, k q [] <> None) ->
  greedy p k prev s <> None.
Proof.
  intros p k prev s H Hk. revert prev.
  induction s as [|c s IH]; intros prev; simpl; [apply Hk|].
  simpl in H. apply andb_true_iff in H. destruct H as [Hc Hs].
  rewrite Hc. specialize (IH Hs (Some c)).
  destruct (greedy p k (Some c) s); [discriminate | contradiction].
Qed.

Lemma matcher_input_start : forall ic s k,
  matcher ic InputStart None s k = k None s.
Proof. reflexivity. Qed.

Lemma matcher_class_cons : forall ic p prev c s k,
  matcher ic (CharSet p) prev (c :: s) k
  = if in_class ic p c then k (Some c) s else None.
Proof. reflexivity. Qed.

Lemma matcher_word_boundary : forall ic prev s k,
  matcher ic WordBoundary prev s k
  = if at_word_boundary prev s then k prev s else None.
Proof. reflexivity. Qed.

(** A string of one or more code units of [[a-z0-9_-]] passes the
    simple-command test. *)
Lemma test_simple_command : forall p,
  simple_pattern p = true -> test true re_simple_command p = true.
Proof.
  intros p H. destruct (simple_pattern_forall p H) as [Hne Hall].
  destruct p as [|c p]; [contradiction|].
  inversion Hall as [|? ? Hc Hp]; subst.
  unfold test. cbn [search].
  assert (E : exec_at true re_simple_command None (c :: p) <> None).
  { unfold exec_at, re_simple_command, Plus.
    rewrite matcher_seq, matcher_input_start, !matcher_seq, matcher_class_cons.
    replace (in_class true is_simple_class c) with true
      by (symmetry; now apply simple_class_facts).
    rewrite matcher_star_class. apply greedy_all.
    - apply forallb_forall. intros x Hx. rewrite Forall_forall in Hp.
      now apply simple_class_facts, Hp.
    - intros q. simpl. discriminate. }
  destruct (exec_at true re_simple_command None (c :: p)); [reflexivity | contradiction].
Qed.

Lemma matcher_literal : forall p prev s (k : Continuation),
  matcher true (literal p) prev s k
  = match match_prefix p prev s with
    | Some (q, t) => k q t
    | None => None
    end.
Proof.
  induction p as [|c p IH]; intros prev s k; [reflexivity|].
  cbn [literal match_prefix]. rewrite matcher_seq. cbn [matcher canonicalize].
  destruct s as [|x s]; [reflexivity|].
  destruct (N.eqb (ascii_upper x) (ascii_upper c)); [apply IH | reflexivity].
Qed.

Lemma match_prefix_sound : forall p prev s q t,
  match_prefix p prev s = Some (q, t) ->
  exists mid, s = mid ++ t /\ same_ignoring_case mid p /\ q = last_opt prev mid.
Proof.
  induction p as [|c p IH]; intros prev s q t H.
  - injection H as <- <-. exists []. repeat split.
  - destruct s as [|x s]; [discriminate|]. cbn [match_prefix] in H.
    destruct (N.eqb_spec (ascii_upper x) (ascii_upper c)) as [E|]; [|discriminate].
    destruct (IH _ _ _ _ H) as [mid [-> [Hm ->]]].
    exists (x :: mid). repeat split. unfold same_ignoring_case in *.
    simpl. now rewrite E, Hm.
Qed.

Lemma match_prefix_complete : forall p prev mid t,
  same_ignoring_case mid p ->
  match_prefix p prev (mid ++ t) = Some (last_opt prev mid, t).
Proof.
  induction p as [|c p IH]; intros prev mid t H; unfold same_ignoring_case in H.
  - destruct mid; [reflexivity | discriminate].
  - destruct mid as [|x mid]; [discriminate|].
    simpl in H. injection H as E Hm.
    simpl. rewrite E, N.eqb_refl. now apply IH.
Qed.

Lemma last_opt_app : forall a b prev,
  last_opt prev (a ++ b) = last_opt (last_opt prev a) b.
Proof. induction a as [|x a IH]; intros b prev; [reflexivity | apply IH]. Qed.

Lemma last_opt_rev : forall mid prev,
  last_opt prev mid = match List.rev mid with x :: _ => Some x | [] => prev end.
Proof.
  induction mid as [|x mid IH]; intros prev; [reflexivity|].
  simpl. rewrite IH. destruct (List.rev mid); reflexivity.
Qed.

Lemma last_opt_None : forall pre, last_opt None pre = List.hd_error (List.rev pre).
Proof. intros pre. rewrite last_opt_rev. destruct (List.rev pre); reflexivity. Qed.

(** [search] succeeds exactly when a match exists at some position. *)
Lemma search_true : forall ic r s prev,
  search ic r prev s = true <->
  exists pre post, s = pre ++ post /\ exec_at ic r (last_opt prev pre) post <> None.
Proof.
  intros ic r. induction s as [|c s IH]; intros prev; cbn [search].
  - destruct (exec_at ic r prev []) eqn:E.
    + split; [|reflexivity]. intros _. exists [], []. split; [reflexivity|].
      simpl. now rewrite E.
    + split; [discriminate|]. intros [pre [post [Hs H]]].
      destruct pre; [|discriminate]. destruct post; [|discriminate].
      simpl in H. contradiction.
  - destruct (exec_at ic r prev (c :: s)) eqn:E.
    + split; [|reflexivity]. intros _. exists [], (c :: s). split; [reflexivity|].
      simpl. now rewrite E.
    + rewrite IH. split.
      * intros [pre [post [-> H]]]. exists (c :: pre), post. split; [reflexivity | exact H].
      * intros [pre [post [Hs H]]]. destruct pre as [|x pre].
        -- simpl in *. subst. contradiction.
        -- injection Hs as <- ->. exists pre, post. split; [reflexivity | exact H].
Qed.

Lemma exec_word_bounded : forall p prev s,
  exec_at true (word_bounded p) prev s
  = if at_word_boundary prev s then
      match match_prefix p prev s with
      | Some (q, t) => if at_word_boundary q t then Some (q, t) else None
      | None => None
      end
    else None.
Proof.
  intros p prev s. unfold exec_at, word_bounded.
  rewrite matcher_seq, matcher_word_boundary.
  destruct (at_word_boundary prev s); [|reflexivity].
  rewrite matcher_seq, matcher_literal.
  destruct (match_prefix p prev s) as [[q t]|]; reflexivity.
Qed.

Lemma same_ignoring_case_rev : forall a b,
  same_ignoring_case a b -> same_ignoring_case (List.rev a) (List.rev b).
Proof.
  intros a b H. unfold same_ignoring_case in *. now rewrite !map_rev, H.
Qed.

Lemma same_ignoring_case_head : forall a b,
  same_ignoring_case a b -> opt_word (List.hd_error b) = true ->
  opt_word (List.hd_error a) = true.
Proof.
  intros [|x a] [|c b] H Hw; try discriminate.
  unfold same_ignoring_case in H. simpl in *. injection H as E _.
  now apply (word_char_ignoring_case x c).
Qed.

(** An occurrence, up to case, of a pattern that begins and ends with a
    word character begins and ends with one. *)
Lemma word_edged_occurrence : forall mid p prev t,
  word_edged p = true -> same_ignoring_case mid p ->
  opt_word (List.hd_error (mid ++ t)) = true
  /\ opt_word (last_opt prev mid) = true.
Proof.
  intros mid p prev t Hw H. unfold word_edged in Hw.
  apply andb_true_iff in Hw. destruct Hw as [Hh Hl].
  pose proof (same_ignoring_case_head _ _ H Hh) as H1.
  pose proof (same_ignoring_case_head _ _ (same_ignoring_case_rev _ _ H) Hl) as H2.
  split.
  - destruct mid; [discriminate | exact H1].
  - rewrite last_opt_rev. destruct (List.rev mid); [discriminate | exact H2].
Qed.

(** The regex [\bP\b] finds exactly the standalone occurrences of [P]. *)
Lemma test_word_bounded : forall p s,
  word_edged p = true ->
  test true (word_bounded p) s = true <-> standalone_occurrence p s.
Proof.
  intros p s Hw. unfold test. rewrite search_true. split.
  - intros [pre [post [-> H]]]. rewrite exec_word_bounded in H.
    destruct (at_word_boundary (last_opt None pre) post) eqn:B1; [|contradiction].
    destruct (match_prefix p (last_opt None pre) post) as [[q t]|] eqn:M; [|contradiction].
    destruct (at_word_boundary q t) eqn:B2; [|contradiction].
    destruct (match_prefix_sound _ _ _ _ _ M) as [mid [-> [Hm ->]]].
    destruct (word_edged_occurrence mid p (last_opt None pre) t Hw Hm) as [W1 W2].
    exists pre, mid, t. split; [reflexivity|]. split; [assumption|].
    unfold at_word_boundary in B1, B2. rewrite W1 in B1. rewrite W2 in B2.
    rewrite last_opt_None in B1.
    split.
    + destruct (opt_word (List.hd_error (List.rev pre))); [discriminate | reflexivity].
    + destruct (opt_word (List.hd_error t)); [discriminate | reflexivity].
  - intros [pre [mid [post [-> [Hm [P1 P2]]]]]].
    exists pre, (mid ++ post). split; [reflexivity|].
    rewrite exec_word_bounded, match_prefix_complete by assumption.
    destruct (word_edged_occurrence mid p (last_opt None pre) post Hw Hm) as [W1 W2].
    unfold at_word_boundary. rewrite W1, W2, last_opt_None, P1, P2. simpl. discriminate.
Qed.

(* ===================================================================== *)
(** ** The blocklist matcher                                              *)
(* ===================================================================== *)

Section Matcher.

Variable toLowerCase : jsstring -> jsstring.
Variable newRegExp_i : jsstring -> Compiled.

Lemma isCommandBlocked_single : forall command pattern,
  truthy command = true ->
  isCommandBlocked toLowerCase newRegExp_i command [pattern] true
  = patternBlocks toLowerCase newRegExp_i (normalizeCommand command)
                  (extractAllCommandNames (normalizeCommand command)) pattern.
Proof.
  intros command pattern H. unfold isCommandBlocked. rewrite H. simpl.
  apply orb_false_r.
Qed.

Lemma patternBlocks_compiled : forall nc names pattern,
  patternBlocks toLowerCase newRegExp_i nc names pattern
  = let patternLower := trim (toLowerCase pattern) in
    truthy patternLower
    && (List.existsb (fun n => eqb (toLowerCase n) patternLower) names
        || match newRegExp_i (regexSource toLowerCase pattern) with
           | Regex test_ => test_ nc
           | SyntaxError _ => includes (toLowerCase nc) patternLower
           end).
Proof.
  intros nc names pattern. unfold patternBlocks, regexSource. cbv zeta.
  destruct (truthy (trim (toLowerCase pattern))); [|reflexivity].
  cbn [negb andb].
  destruct (List.existsb _ names); [reflexivity|]. cbn [orb].
  destruct (test true re_simple_command (trim (toLowerCase pattern)));
    [destruct (includes pattern (js "\b"))|]; reflexivity.
Qed.

Hypothesis lower_ok : lowercase_on_ascii toLowerCase.

Lemma simple_pattern_lower : forall p,
  simple_pattern p = true -> trim (toLowerCase p) = p.
Proof.
  intros p H. destruct (simple_pattern_forall p H) as [_ Hall].
  rewrite lower_ok by now apply Forall_simple_ascii.
  rewrite Forall_simple_lower by assumption.
  apply trim_no_space. now apply Forall_simple_no_space.
Qed.

Lemma simple_pattern_source : forall p,
  simple_pattern p = true ->
  regexSource toLowerCase p = js "\b" ++ p ++ js "\b".
Proof.
  intros p H. unfold regexSource.
  rewrite simple_pattern_lower, test_simple_command by assumption.
  destruct (simple_pattern_forall p H) as [_ Hall].
  now rewrite simple_pattern_no_word_boundary.
Qed.

Hypothesis regex_ok : compiles_word_bounded newRegExp_i.

(** A simple pattern blocks through an equal command name or through
    the regex [\bP\b] on the normalised command. *)
Lemma patternBlocks_simple : forall nc names p,
  simple_pattern p = true ->
  patternBlocks toLowerCase newRegExp_i nc names p
  = List.existsb (fun n => eqb (toLowerCase n) p) names
    || test true (word_bounded p) nc.
Proof.
  intros nc names p H. rewrite patternBlocks_compiled. cbv zeta.
  rewrite simple_pattern_lower, simple_pattern_source by assumption.
  destruct (regex_ok p H) as [t [E Ht]]. rewrite E, Ht.
  destruct (simple_pattern_forall p H) as [Hne _].
  apply truthy_true in Hne. now rewrite Hne.
Qed.

Lemma name_match_iff : forall names p,
  List.existsb (fun n => eqb (toLowerCase n) p) names = true
  <-> exists name, In name names /\ toLowerCase name = p.
Proof.
  intros names p. rewrite existsb_exists. split.
  - intros [n [Hn E]]. exists n. split; [assumption | now apply eqb_eq].
  - intros [n [Hn E]]. exists n. split; [assumption | now apply eqb_eq].
Qed.

Lemma isCommandBlocked_simple : forall p command,
  simple_pattern p = true -> truthy command = true ->
  isCommandBlocked toLowerCase newRegExp_i command [p] true
  = List.existsb (fun n => eqb (toLowerCase n) p)
                 (extractAllCommandNames (normalizeCommand command))
    || test true (word_bounded p) (normalizeCommand command).
Proof.
  intros p command Hp Hc.
  now rewrite isCommandBlocked_single, patternBlocks_simple.
Qed.

End Matcher.

(** The sample runtime meets the assumptions. *)
Lemma sample_lowercase_on_ascii : lowercase_on_ascii sample_toLowerCase.
Proof. intros s _. reflexivity. Qed.

Lemma between_word_boundaries_wrap : forall p,
  between_word_boundaries (js "\b" ++ p ++ js "\b") = Some p.
Proof.
  intros p. change (js "\b") with [92; 98]%N.
  cbn [app between_word_boundaries].
  rewrite rev_app_distr. simpl. now rewrite rev_involutive.
Qed.

Lemma sample_compiles_word_bounded : compiles_word_bounded sample_newRegExp_i.
Proof.
  intros p H. exists (test true (word_bounded p)). split; [|reflexivity].
  unfold sample_newRegExp_i.
  replace (pattern_characters (js "\b" ++ p ++ js "\b")) with false by reflexivity.
  rewrite between_word_boundaries_wrap.
  destruct (simple_pattern_forall p H) as [_ Hall].
  now rewrite Forall_simple_pattern_characters.
Qed.

Lemma trimEnd_nil_all_space : forall s, trimEnd s = [] -> all_space s = true.
Proof.
  intros [|c s] H; [reflexivity|]. rewrite trimEnd_cons in H.
  destruct (all_space (c :: s)); [reflexivity | discriminate].
Qed.

Lemma blank_all_space : forall p, truthy (trim p) = false -> all_space p = true.
Proof.
  intros p H. destruct (trim p) eqn:E; [|discriminate].
  unfold trim in E. apply trimEnd_nil_all_space in E.
  pose proof (trimStart_head p) as Hh.
  apply trimStart_all_space.
  destruct (trimStart p) as [|x r]; [reflexivity|].
  simpl in Hh, E. apply andb_true_iff in E. destruct E as [Ex _].
  rewrite Ex in Hh. discriminate.
Qed.

Lemma space_pattern_character : forall c,
  is_space c = true -> is_syntax_char c = false.
Proof.
  intros c H. unfold is_syntax_char. cbn [List.existsb].
  repeat match goal with
         | |- context [N.eqb c ?k] =>
             destruct (N.eqb_spec c k) as [->|_]; [discriminate|]
         end.
  reflexivity.
Qed.

Lemma sample_compiles_blank : compiles_blank sample_newRegExp_i.
Proof.
  intros p H. apply blank_all_space in H.
  exists (test true (literal p)). unfold sample_newRegExp_i.
  replace (pattern_characters p) with true; [reflexivity|].
  symmetry. unfold pattern_characters. apply forallb_forall. intros c Hc.
  unfold all_space in H. rewrite forallb_forall in H.
  apply negb_true_iff, space_pattern_character. now apply H.
Qed.

(* --- bare names --- *)

Lemma forallb_rev_iff : forall (p : char -> bool) s,
  List.forallb p (List.rev s) = List.forallb p s.
Proof.
  intros p s. induction s as [|c s IH]; [reflexivity|].
  simpl. rewrite forallb_app, IH. simpl. rewrite andb_true_r. apply andb_comm.
Qed.

Lemma dropSlashes_head : forall s,
  s <> [] -> no_slash s = true -> forall t, Path.dropSlashes (s ++ t) = s ++ t.
Proof.
  intros [|c s] Hne H t; [contradiction|].
  unfold no_slash in H. simpl in H. apply andb_true_iff in H. destruct H as [Hc _].
  apply negb_true_iff in Hc. simpl. now rewrite Hc.
Qed.

Lemma takeToSlash_all : forall s, no_slash s = true -> Path.takeToSlash s = s.
Proof.
  induction s as [|c s IH]; intros H; [reflexivity|].
  unfold no_slash in H. simpl in H. apply andb_true_iff in H. destruct H as [Hc Hs].
  apply negb_true_iff in Hc. simpl. rewrite Hc. f_equal. now apply IH.
Qed.

Lemma no_slash_rev : forall s, no_slash (List.rev s) = no_slash s.
Proof. intros s. apply forallb_rev_iff. Qed.


(* ===================================================================== *)
(** ** Properties of the normaliser                                       *)
(* ===================================================================== *)

(** C1. The backslashes are removed from [parts[0]], the piece before the
    first run of whitespace.  For a command that starts with whitespace
    that piece is empty, and the backslash of the command name survives:
    [" r\m -rf /"] is returned unchanged, while ["r\m -rf /"] becomes
    ["rm -rf /"]. *)
Theorem normalizeCommand_leading_whitespace :
  normalizeCommand (js " r\m -rf /") = js " r\m -rf /"
  /\ normalizeCommand (js "r\m -rf /") = js "rm -rf /".
Proof. split; reflexivity. Qed.

(** C2, as stated, fails: the quote pairs are removed in one pass, so the
    removal can bring two quotes together.  From ['""'] the first
    normalisation makes [''], the second the empty string. *)
Lemma normalizeCommand_not_idempotent :
  normalizeCommand (normalizeCommand [quote; dquote; dquote; quote])
  <> normalizeCommand [quote; dquote; dquote; quote].
Proof. vm_compute. discriminate. Qed.

(** C2, amended.  A second normalisation changes nothing exactly when the
    first one has left no adjacent pair of equal quote characters. *)
Theorem normalizeCommand_idempotent_iff : forall command,
  normalizeCommand (normalizeCommand command) = normalizeCommand command
  <-> has_empty_quote_pair (normalizeCommand command) = false.
Proof.
  intros command. split.
  - intros E. destruct (has_empty_quote_pair (normalizeCommand command)) eqn:H;
      [|reflexivity].
    now apply normalizeCommand_unstable in H.
  - apply normalizeCommand_stable.
Qed.

Lemma normalizeCommand_idempotent_iff_witness :
  normalizeCommand (normalizeCommand (js "r''m  -rf /"))
  = normalizeCommand (js "r''m  -rf /").
Proof.
  apply (proj2 (normalizeCommand_idempotent_iff (js "r''m  -rf /"))).
  reflexivity.
Defined.

(** C10.  The normalised command is its fields joined by single spaces:
    every whitespace code unit of the result is a U+0020 with no
    whitespace after it, and two commands that differ only in their runs
    of whitespace have the same normal form. *)
Theorem normalizeCommand_collapses_whitespace :
  (forall command,
      normalizeCommand command = join [space] (normalizedFields command)
      /\ single_spaced (normalizeCommand command) = true)
  /\ (forall c1 c2, ws_variant c1 c2 -> normalizeCommand c1 = normalizeCommand c2).
Proof.
  split.
  - intros command. destruct (normalizeCommand_fields command) as [E Hok].
    split; [assumption|]. rewrite E. now apply join_single_spaced.
  - apply normalizeCommand_ws_variant.
Qed.

Lemma normalizeCommand_collapses_whitespace_witness :
  normalizeCommand (js "ls   -la") = normalizeCommand (js "ls -la").
Proof.
  apply (proj2 normalizeCommand_collapses_whitespace).
  apply wv_char; [reflexivity|]. apply wv_char; [reflexivity|].
  apply (@wv_run (js "   ") (js " ") (js "-la") (js "-la"));
    try discriminate; try reflexivity.
  repeat (apply wv_char; [reflexivity|]). apply wv_nil.
Defined.

(* ===================================================================== *)
(** ** Properties of the command-name extraction                          *)
(* ===================================================================== *)






(* ===================================================================== *)
(** ** Properties of the blocklist matcher                                *)
(* ===================================================================== *)

(** C5, as stated, fails for the simple patterns that begin or end with a
    hyphen: [\b] before a hyphen asks for a word character in front of it,
    so the pattern [-rf] does not block [rm -rf /tmp], where it stands
    alone between two spaces. *)
Lemma isCommandBlocked_hyphen_pattern :
  simple_pattern (js "-rf") = true
  /\ standalone_occurrence (js "-rf") (normalizeCommand (js "rm -rf /tmp"))
  /\ isCommandBlocked sample_toLowerCase sample_newRegExp_i
                      (js "rm -rf /tmp") [js "-rf"] true = false
  /\ (forall toLowerCase newRegExp_i,
         lowercase_on_ascii toLowerCase -> compiles_word_bounded newRegExp_i ->
         isCommandBlocked toLowerCase newRegExp_i
                          (js "rm -rf /tmp") [js "-rf"] true = false).
Proof.
  split; [reflexivity|]. split; [|split; [vm_compute; reflexivity|]].
  - exists (js "rm "), (js "-rf"), (js " /tmp"). repeat split.
  - intros toLowerCase newRegExp_i Hl Hr.
    rewrite (isCommandBlocked_simple _ _ Hl Hr) by reflexivity.
    replace (extractAllCommandNames (normalizeCommand (js "rm -rf /tmp")))
      with [js "rm"] by (vm_compute; reflexivity).
    cbn [List.existsb]. rewrite (Hl (js "rm")) by reflexivity.
    vm_compute. reflexivity.
Qed.

(** C5, amended.  For a simple pattern that begins and ends with a letter,
    a digit or an underscore, a command is blocked exactly when the pattern
    is the lower-cased name of one of its commands, or occurs in the
    normalised command with no word character right before or after it.
    With the pattern [rm]: [format-disk] and [format C:] pass,
    [rm -rf /tmp] and [/bin/rm file.txt] are blocked. *)
Theorem isCommandBlocked_simple_pattern : forall toLowerCase newRegExp_i,
  lowercase_on_ascii toLowerCase -> compiles_word_bounded newRegExp_i ->
  (forall p command,
      simple_pattern p = true -> word_edged p = true ->
      (isCommandBlocked toLowerCase newRegExp_i command [p] true = true
       <-> (exists name,
               In name (extractAllCommandNames (normalizeCommand command))
               /\ toLowerCase name = p)
           \/ standalone_occurrence p (normalizeCommand command)))
  /\ isCommandBlocked toLowerCase newRegExp_i (js "format-disk") [js "rm"] true = false
  /\ isCommandBlocked toLowerCase newRegExp_i (js "format C:") [js "rm"] true = false
  /\ isCommandBlocked toLowerCase newRegExp_i (js "rm -rf /tmp") [js "rm"] true = true
  /\ isCommandBlocked toLowerCase newRegExp_i (js "/bin/rm file.txt") [js "rm"] true = true.
Proof.
  intros toLowerCase newRegExp_i Hl Hr. split.
  - intros p command Hp Hw.
    destruct command as [|c command].
    + split; [discriminate|]. intros [[name [[] _]]|[pre [mid [post [E [Hm _]]]]]].
      destruct pre; [|discriminate]. destruct mid; [|discriminate].
      destruct p; discriminate.
    + rewrite (isCommandBlocked_simple _ _ Hl Hr) by (assumption || reflexivity).
      rewrite orb_true_iff, name_match_iff, test_word_bounded by assumption.
      reflexivity.
  - repeat split; rewrite (isCommandBlocked_simple _ _ Hl Hr) by reflexivity.
    + replace (extractAllCommandNames (normalizeCommand (js "format-disk")))
        with [js "format-disk"] by (vm_compute; reflexivity).
      cbn [List.existsb]. rewrite (Hl (js "format-disk")) by reflexivity.
      vm_compute. reflexivity.
    + replace (extractAllCommandNames (normalizeCommand (js "format C:")))
        with [js "format"] by (vm_compute; reflexivity).
      cbn [List.existsb]. rewrite (Hl (js "format")) by reflexivity.
      vm_compute. reflexivity.
    + replace (extractAllCommandNames (normalizeCommand (js "rm -rf /tmp")))
        with [js "rm"] by (vm_compute; reflexivity).
      cbn [List.existsb]. rewrite (Hl (js "rm")) by reflexivity.
      vm_compute. reflexivity.
    + replace (extractAllCommandNames (normalizeCommand (js "/bin/rm file.txt")))
        with [js "rm"] by (vm_compute; reflexivity).
      cbn [List.existsb]. rewrite (Hl (js "rm")) by reflexivity.
      vm_compute. reflexivity.
Qed.

Lemma isCommandBlocked_simple_pattern_witness :
  isCommandBlocked sample_toLowerCase sample_newRegExp_i
                   (js "/bin/rm file.txt") [js "rm"] true = true
  /\ isCommandBlocked sample_toLowerCase sample_newRegExp_i
                      (js "format-disk") [js "rm"] true = false.
Proof.
  destruct (isCommandBlocked_simple_pattern
              sample_toLowerCase sample_newRegExp_i
              sample_lowercase_on_ascii sample_compiles_word_bounded)
    as [_ [H1 [_ [_ H4]]]].
  split; [exact H4 | exact H1].
Defined.

(** C6.  [isCommandBlocked] answers [false] when the blocklist is disabled
    and when the command is empty, whatever the patterns; a hook input
    whose [command] is absent or not a string has the empty command, and
    the blocklist hook lets it continue. *)
Theorem blocklist_nothing_to_check : forall toLowerCase newRegExp_i,
  (forall command patterns,
      isCommandBlocked toLowerCase newRegExp_i command patterns false = false)
  /\ (forall patterns enableBlocklist,
         isCommandBlocked toLowerCase newRegExp_i [] patterns enableBlocklist = false)
  /\ (forall (PlatformBlockedCommands : Type)
             (getBashToolBlockedCommands : PlatformBlockedCommands -> list jsstring)
             (getContext : BlocklistContext PlatformBlockedCommands) hookInput,
         is_string (get (tool_input hookInput) (js "command")) = false ->
         extractBashCommand hookInput = []
         /\ createBlocklistHook toLowerCase newRegExp_i
                                getBashToolBlockedCommands getContext hookInput
            = Continue).
Proof.
  intros toLowerCase newRegExp_i. split; [reflexivity|].
  split; [intros patterns []; reflexivity|].
  intros PBC getCommands getContext hookInput H.
  assert (E : extractBashCommand hookInput = []).
  { unfold extractBashCommand. destruct (isBashHookInput hookInput); [|reflexivity].
    cbn [negb]. destruct (get (tool_input hookInput) (js "command"));
      try reflexivity. discriminate. }
  split; [exact E|].
  unfold createBlocklistHook. rewrite E.
  destruct (isHookToolInput hookInput); [|reflexivity].
  cbn [negb]. unfold isCommandBlocked. now rewrite orb_true_r.
Qed.

Lemma blocklist_nothing_to_check_witness :
  createBlocklistHook sample_toLowerCase sample_newRegExp_i
    (fun patterns : list jsstring => patterns)
    {| blockedCommands := [js "rm"]; enableBlocklist := true |}
    (toolCall (js "Bash") [(js "command", VNumber 7)])
  = Continue.
Proof.
  apply (blocklist_nothing_to_check sample_toLowerCase sample_newRegExp_i).
  reflexivity.
Defined.

(** C7.  When the constructor throws on the source built for a pattern,
    the pattern blocks exactly through an equal command name or through
    its lower-cased, trimmed text being a substring of the lower-cased
    normalised command; and [validateBlocklistPattern] reports a pattern
    that does not compile as valid, with the substring-match warning. *)
Theorem invalid_regex_falls_back : forall toLowerCase newRegExp_i,
  (forall command pattern message,
      truthy command = true ->
      newRegExp_i (regexSource toLowerCase pattern) = SyntaxError message ->
      isCommandBlocked toLowerCase newRegExp_i command [pattern] true
      = let patternLower := trim (toLowerCase pattern) in
        truthy patternLower
        && (List.existsb (fun n => eqb (toLowerCase n) patternLower)
                         (extractAllCommandNames (normalizeCommand command))
            || includes (toLowerCase (normalizeCommand command)) patternLower))
  /\ (compiles_blank newRegExp_i ->
      forall pattern message,
        newRegExp_i pattern = SyntaxError message ->
        validateBlocklistPattern newRegExp_i pattern
        = {| isValid := true;
             error := Some (js "Invalid regex, will use substring match: "
                            ++ message) |}).
Proof.
  intros toLowerCase newRegExp_i. split.
  - intros command pattern message Hc E.
    rewrite isCommandBlocked_single, patternBlocks_compiled by assumption.
    now rewrite E.
  - intros Hb pattern message E. unfold validateBlocklistPattern.
    destruct (truthy (trim pattern)) eqn:T.
    + cbn [negb]. now rewrite E.
    + destruct (Hb pattern T) as [t Ht]. congruence.
Qed.

Lemma invalid_regex_falls_back_witness :
  isCommandBlocked sample_toLowerCase sample_newRegExp_i
                   (js "echo (X") [js "(x"] true = true
  /\ validateBlocklistPattern sample_newRegExp_i (js "(x")
     = {| isValid := true;
          error := Some (js "Invalid regex, will use substring match: "
                         ++ js "Invalid regular expression") |}.
Proof.
  destruct (invalid_regex_falls_back sample_toLowerCase sample_newRegExp_i)
    as [H1 H2].
  split.
  - rewrite (H1 (js "echo (X") (js "(x") (js "Invalid regular expression"));
      reflexivity.
  - apply (H2 sample_compiles_blank). reflexivity.
Defined.

(* ===================================================================== *)
(** ** Properties of the vault-restriction hook                           *)
(* ===================================================================== *)

Section VaultHook.

Variable TOOL_BASH : jsstring.
Variable isFileTool : jsstring -> bool.
Variable isEditTool : jsstring -> bool.
Variable getPathFromToolInput : jsstring -> object -> option jsstring.
Variable findDangerousConstruct : jsstring -> option DangerousConstruct.
Variable findBashCommandPathViolation :
  jsstring -> (jsstring -> Traced PathAccessType) -> Traced (option PathViolation).
Variable getPathAccessType : jsstring -> PathAccessType.

Local Abbreviation hook :=
  (createVaultRestrictionHook TOOL_BASH isFileTool isEditTool
     getPathFromToolInput findDangerousConstruct findBashCommandPathViolation
     getPathAccessType).




End VaultHook.



(* ===================================================================== *)
(** ** Worked examples                                                    *)
(* ===================================================================== *)

Example normalize_split_name :
  normalizeCommand (js "r''m -rf /") = js "rm -rf /".
Proof. reflexivity. Qed.

Example normalize_keeps_argument_backslashes :
  normalizeCommand (js "c\at  my\ file") = js "cat my\ file".
Proof. reflexivity. Qed.

Example names_of_pipeline :
  extractAllCommandNames (js "env FOO=1 ./run.sh | nohup /usr/bin/tee log ;; ls")
  = [js "FOO=1"; js "tee"; js "ls"].
Proof. reflexivity. Qed.

Example path_prefixed_wrapper :
  extractAllCommandNames (js "/usr/bin/sudo rm -rf /") = [js "sudo"].
Proof. reflexivity. Qed.

Example write_into_export :
  createVaultRestrictionHook (js "Bash") sample_isFileTool sample_isEditTool
    sample_getPathFromToolInput sample_findDangerousConstruct
    sample_findBashCommandPathViolation sample_getPathAccessType
    (toolCall (js "Write") [(js "file_path", VString (js "/tmp/export/out.csv"))])
  = (Continue, [CallGetPathAccessType (js "/tmp/export/out.csv")]).
Proof. reflexivity. Qed.

Example any_tool_outside :
  fst (createVaultRestrictionHook (js "Bash") sample_isFileTool sample_isEditTool
         sample_getPathFromToolInput sample_findDangerousConstruct
         sample_findBashCommandPathViolation sample_getPathAccessType
         (toolCall (js "Edit") [(js "file_path", VString (js "/etc/hosts"))]))
  = Deny (outsideReason (js "Path ") (js "/etc/hosts")).
Proof. reflexivity. Qed.

(* ===================================================================== *)
(** ** Further properties of the normaliser                               *)
(* ===================================================================== *)

Lemma join_add_to_first : forall sep c fs,
  fs <> [] -> join sep (add_to_first c fs) = c :: join sep fs.
Proof. intros sep c [|f [|f' fs]] H; [contradiction | reflexivity | reflexivity]. Qed.

Lemma fields_true_head : forall s,
  no_space_at_head s = true -> fields true s = fields false s.
Proof.
  intros [|c s] H; [reflexivity|]. simpl in H. apply negb_true_iff in H.
  simpl. now rewrite H.
Qed.

(** Joining the fields of a single-spaced string gives the string back. *)
Lemma join_fields_single_spaced : forall s,
  single_spaced s = true -> join [space] (fields false s) = s.
Proof.
  induction s as [|c s IH]; intros H; [reflexivity|].
  cbn [single_spaced] in H. apply andb_true_iff in H. destruct H as [Hc Hs].
  cbn [fields]. destruct (is_space c) eqn:E.
  - apply andb_true_iff in Hc. destruct Hc as [Hc Hh].
    apply N.eqb_eq in Hc. subst c.
    rewrite fields_true_head by assumption.
    pose proof (fields_not_nil false s) as Hn. specialize (IH Hs).
    destruct (fields false s) as [|f fs]; [contradiction|].
    rewrite join_cons_cons, IH. reflexivity.
  - rewrite join_add_to_first by apply fields_not_nil. now rewrite IH.
Qed.

Lemma fields_head_firstField : forall s,
  List.hd [] (fields false s) = firstField s.
Proof.
  induction s as [|c s IH]; [reflexivity|].
  cbn [fields firstField]. destruct (is_space c); [reflexivity|].
  rewrite <- IH. destruct (fields false s); reflexivity.
Qed.

Lemma removeBackslashes_fixed : forall s,
  removeBackslashes s = s <-> no_backslash s = true.
Proof.
  intros s. unfold removeBackslashes, no_backslash. split.
  - intros H. rewrite <- H. apply forallb_forall. intros x Hx.
    apply filter_In in Hx. tauto.
  - intros H. induction s as [|c s IH]; [reflexivity|].
    simpl in *. apply andb_true_iff in H. destruct H as [Hc Hs].
    rewrite Hc. f_equal. now apply IH.
Qed.

Lemma removeBackslashes_clean : forall s, no_backslash (removeBackslashes s) = true.
Proof. intros s. apply removeBackslashes_fixed, removeBackslashes_idem. Qed.

Lemma has_pair_or_not : forall s,
  has_empty_quote_pair s = false \/ has_empty_quote_pair s = true.
Proof. intros s. destruct (has_empty_quote_pair s); auto. Qed.

(** X1.  [normalizeCommand] returns its argument unchanged exactly when the
    argument has no adjacent pair of equal quote characters, its whitespace
    consists of single spaces, and its first whitespace-delimited field
    has no backslash. *)
Theorem normalizeCommand_fixed_point_iff : forall c,
  normalizeCommand c = c
  <-> has_empty_quote_pair c = false
      /\ single_spaced c = true
      /\ no_backslash (firstField c) = true.
Proof.
  intros c. split.
  - intros E.
    assert (Hp : has_empty_quote_pair c = false).
    { destruct (has_empty_quote_pair c) eqn:P; [|reflexivity].
      pose proof (normalizeCommand_length c) as L.
      pose proof (removeEmptyQuotePairs_shrinks c P) as L'.
      rewrite E in L. lia. }
    destruct (normalizeCommand_fields c) as [J Hok].
    split; [assumption|]. split.
    + rewrite <- E, J. now apply join_single_spaced.
    + rewrite <- fields_head_firstField.
      assert (F : fields false c = normalizedFields c).
      { rewrite <- E at 1. rewrite J. now apply fields_join. }
      rewrite F. unfold normalizedFields.
      destruct (fields false (removeEmptyQuotePairs c)); [reflexivity|].
      apply removeBackslashes_clean.
  - intros [Hp [Hs Hb]]. rewrite normalizeCommand_unfold.
    rewrite removeEmptyQuotePairs_fixed by assumption.
    rewrite <- fields_head_firstField in Hb.
    pose proof (join_fields_single_spaced c Hs) as J.
    destruct (fields false c) as [|f fs]; [reflexivity|].
    simpl in Hb. apply removeBackslashes_fixed in Hb. now rewrite Hb.
Qed.

Lemma normalizeCommand_fixed_point_iff_witness :
  normalizeCommand (js "rm -rf /") = js "rm -rf /".
Proof.
  apply (proj2 (normalizeCommand_fixed_point_iff (js "rm -rf /"))).
  vm_compute. repeat split.
Defined.

Lemma normalizeCommand_same_quotes : forall c1 c2,
  removeEmptyQuotePairs c1 = removeEmptyQuotePairs c2 ->
  normalizeCommand c1 = normalizeCommand c2.
Proof. intros c1 c2 H. now rewrite !normalizeCommand_unfold, H. Qed.

Lemma ends_with_quote_cons : forall x y s,
  ends_with_quote (x :: y :: s) = ends_with_quote (y :: s).
Proof.
  intros x y s. unfold ends_with_quote. cbn [List.rev].
  destruct (List.rev s ++ [y]) eqn:E; [|reflexivity].
  destruct (List.rev s); discriminate.
Qed.

(** The pass over [a ++ s] is the pass over [a] followed by the pass over
    [s] when [a] does not end with a quote: no pair straddles the seam. *)
Lemma removeEmptyQuotePairs_app_strong : forall n a s,
  List.length a <= n -> ends_with_quote a = false ->
  removeEmptyQuotePairs (a ++ s) = removeEmptyQuotePairs a ++ removeEmptyQuotePairs s.
Proof.
  induction n as [|n IH]; intros a s Hn He.
  - destruct a; [reflexivity | simpl in Hn; lia].
  - destruct a as [|x [|y a]]; [reflexivity| |].
    + unfold ends_with_quote in He. simpl in He.
      simpl app. rewrite removeEmptyQuotePairs_cons_other by assumption. reflexivity.
    + rewrite ends_with_quote_cons in He.
      change ((x :: y :: a) ++ s) with (x :: y :: (a ++ s)).
      rewrite !removeEmptyQuotePairs_cons2.
      destruct (is_quote x && N.eqb x y) eqn:P.
      * apply IH; [simpl in Hn; lia|].
        destruct a as [|z a]; [reflexivity|]. now rewrite ends_with_quote_cons in He.
      * change (y :: a ++ s) with ((y :: a) ++ s).
        rewrite IH by (simpl in Hn |- *; try lia; assumption). reflexivity.
Qed.

Lemma removeEmptyQuotePairs_app : forall a s,
  ends_with_quote a = false ->
  removeEmptyQuotePairs (a ++ s) = removeEmptyQuotePairs a ++ removeEmptyQuotePairs s.
Proof. intros a s. now apply (removeEmptyQuotePairs_app_strong (List.length a)). Qed.

Lemma removeEmptyQuotePairs_pair : forall q s,
  is_quote q = true -> removeEmptyQuotePairs (q :: q :: s) = removeEmptyQuotePairs s.
Proof.
  intros q s H. now rewrite removeEmptyQuotePairs_cons2, H, N.eqb_refl.
Qed.

(** X2.  An empty pair of quotes inserted into a command, anywhere but
    directly after a quote character, does not change what
    [normalizeCommand] returns. *)
Theorem normalizeCommand_inserted_quotes : forall a q b,
  is_quote q = true -> ends_with_quote a = false ->
  normalizeCommand (a ++ q :: q :: b) = normalizeCommand (a ++ b).
Proof.
  intros a q b Hq Ha. apply normalizeCommand_same_quotes.
  rewrite !removeEmptyQuotePairs_app by assumption.
  now rewrite removeEmptyQuotePairs_pair.
Qed.

Lemma normalizeCommand_inserted_quotes_witness :
  normalizeCommand (js "r''m -rf /") = normalizeCommand (js "rm -rf /").
Proof.
  exact (normalizeCommand_inserted_quotes (js "r") quote (js "m -rf /")
           eq_refl eq_refl).
Defined.

Lemma removeEmptyQuotePairs_no_space : forall n s,
  List.length s <= n -> no_space s = true -> no_space (removeEmptyQuotePairs s) = true.
Proof.
  induction n as [|n IH]; intros s Hn H.
  - destruct s; [reflexivity | simpl in Hn; lia].
  - destruct s as [|x [|y s]]; [reflexivity | exact H |].
    rewrite removeEmptyQuotePairs_cons2.
    simpl in H. apply andb_true_iff in H. destruct H as [Hx H].
    destruct (is_quote x && N.eqb x y).
    + apply andb_true_iff in H. destruct H as [_ H].
      apply IH; [simpl in Hn; lia | assumption].
    + cbn [no_space List.forallb]. rewrite Hx. cbn [andb].
      apply IH; [simpl in Hn |- *; lia | exact H].
Qed.

Lemma backslash_not_quote : is_quote backslash = false.
Proof. reflexivity. Qed.

Lemma backslash_not_space : is_space backslash = false.
Proof. reflexivity. Qed.

Lemma removeBackslashes_app : forall x y,
  removeBackslashes (x ++ y) = removeBackslashes x ++ removeBackslashes y.
Proof. intros x y. apply filter_app. Qed.

Lemma app_to_first_add : forall g c fs,
  app_to_first g (add_to_first c fs) = app_to_first (g ++ [c]) fs.
Proof.
  intros g c [|f fs]; cbn [add_to_first app_to_first].
  - reflexivity.
  - now rewrite <- app_assoc.
Qed.

(** X3.  A backslash inserted into the command name (before the first
    whitespace of the command, and not directly after a quote character)
    does not change what [normalizeCommand] returns. *)
Theorem normalizeCommand_inserted_backslash : forall a b,
  no_space a = true -> ends_with_quote a = false ->
  normalizeCommand (a ++ backslash :: b) = normalizeCommand (a ++ b).
Proof.
  intros a b Hs Hq. rewrite !normalizeCommand_unfold.
  rewrite !removeEmptyQuotePairs_app by assumption.
  rewrite removeEmptyQuotePairs_cons_other by apply backslash_not_quote.
  pose proof (removeEmptyQuotePairs_no_space (List.length a) a (Nat.le_refl _) Hs) as Hr.
  rewrite !fields_no_space_prefix by assumption.
  cbn [fields]. rewrite backslash_not_space.
  rewrite app_to_first_add.
  pose proof (fields_not_nil false (removeEmptyQuotePairs b)) as Hn.
  destruct (fields false (removeEmptyQuotePairs b)) as [|f fs]; [contradiction|].
  cbn [app_to_first]. rewrite !removeBackslashes_app.
  cbn [removeBackslashes List.filter]. rewrite N.eqb_refl. cbn [negb].
  now rewrite app_nil_r.
Qed.

Lemma normalizeCommand_inserted_backslash_witness :
  normalizeCommand (js "r\m -rf /") = normalizeCommand (js "rm -rf /").
Proof.
  exact (normalizeCommand_inserted_backslash (js "r") (js "m -rf /")
           eq_refl eq_refl).
Defined.

(* --- payload --- *)

Lemma filter_payload_quotes : forall n s,
  List.length s <= n ->
  List.filter is_payload (removeEmptyQuotePairs s) = List.filter is_payload s.
Proof.
  induction n as [|n IH]; intros s Hn.
  - destruct s; [reflexivity | simpl in Hn; lia].
  - destruct s as [|x [|y s]]; [reflexivity | reflexivity |].
    rewrite removeEmptyQuotePairs_cons2.
    destruct (is_quote x && N.eqb x y) eqn:P.
    + apply andb_true_iff in P. destruct P as [Q E]. apply N.eqb_eq in E. subst y.
      assert (Hx : is_payload x = false) by (unfold is_payload; now rewrite Q).
      cbn [List.filter]. rewrite Hx.
      apply IH. simpl in Hn. lia.
    + cbn [List.filter]. rewrite (IH (y :: s)) by (simpl in Hn |- *; lia).
      reflexivity.
Qed.

Lemma filter_payload_backslashes : forall s,
  List.filter is_payload (removeBackslashes s) = List.filter is_payload s.
Proof.
  induction s as [|c s IH]; [reflexivity|].
  unfold removeBackslashes in *. cbn [List.filter].
  destruct (N.eqb c backslash) eqn:E; cbn [negb].
  - assert (Hc : is_payload c = false)
      by (unfold is_payload; now rewrite E, andb_false_r).
    rewrite Hc. exact IH.
  - cbn [List.filter]. now rewrite IH.
Qed.

Lemma filter_payload_join_cons : forall f fs,
  List.filter is_payload (join [space] (f :: fs))
  = List.filter is_payload f ++ List.filter is_payload (join [space] fs).
Proof.
  intros f [|f' fs]; [simpl; now rewrite app_nil_r|].
  rewrite join_cons_cons, !filter_app. reflexivity.
Qed.

Lemma filter_payload_fields : forall s b,
  List.filter is_payload (join [space] (fields b s)) = List.filter is_payload s.
Proof.
  induction s as [|c s IH]; intros b; [reflexivity|].
  cbn [fields]. destruct (is_space c) eqn:E.
  - assert (Hc : is_payload c = false) by (unfold is_payload; now rewrite E, andb_false_r).
    cbn [List.filter]. rewrite Hc.
    destruct b; [apply IH|]. rewrite filter_payload_join_cons. apply IH.
  - rewrite join_add_to_first by apply fields_not_nil.
    cbn [List.filter]. now rewrite IH.
Qed.

(** X4.  [normalizeCommand] only touches quote characters, backslashes and
    whitespace: the other code units of the command come out all, once
    each and in the same order. *)
Theorem normalizeCommand_payload : forall c,
  List.filter is_payload (normalizeCommand c) = List.filter is_payload c.
Proof.
  intros c. rewrite normalizeCommand_unfold.
  rewrite <- (filter_payload_quotes (List.length c) c (Nat.le_refl _)).
  rewrite <- (filter_payload_fields (removeEmptyQuotePairs c) false).
  pose proof (fields_not_nil false (removeEmptyQuotePairs c)) as Hn.
  destruct (fields false (removeEmptyQuotePairs c)) as [|f fs]; [contradiction|].
  rewrite !filter_payload_join_cons. now rewrite filter_payload_backslashes.
Qed.

(* ===================================================================== *)
(** ** Further properties of the command-name extraction                  *)
(* ===================================================================== *)


Lemma forallb_trimStart : forall (p : char -> bool) s,
  List.forallb p s = true -> List.forallb p (trimStart s) = true.
Proof.
  intros p. induction s as [|c s IH]; intros H; [reflexivity|].
  simpl. destruct (is_space c); [|exact H].
  simpl in H. apply andb_true_iff in H. now apply IH.
Qed.

Lemma forallb_trim : forall (p : char -> bool) s,
  List.forallb p s = true -> List.forallb p (trim s) = true.
Proof.
  intros p s H. unfold trim, trimEnd.
  rewrite forallb_rev_iff. apply forallb_trimStart.
  rewrite forallb_rev_iff. now apply forallb_trimStart.
Qed.

Lemma forallb_fields : forall (p : char -> bool) s b,
  List.forallb p s = true ->
  Forall (fun f => List.forallb p f = true) (fields b s).
Proof.
  intros p. induction s as [|c s IH]; intros b H.
  - constructor; [reflexivity | constructor].
  - simpl in H. apply andb_true_iff in H. destruct H as [Hc Hs].
    cbn [fields]. destruct (is_space c).
    + destruct b; [now apply IH|]. constructor; [reflexivity | now apply IH].
    + specialize (IH false Hs).
      destruct (fields false s) as [|f fs]; cbn [add_to_first].
      * constructor; [simpl; now rewrite Hc | constructor].
      * inversion IH; subst. constructor; [simpl; now rewrite Hc | assumption].
Qed.

Lemma fields_no_space : forall s b,
  Forall (fun f => no_space f = true) (fields b s).
Proof.
  induction s as [|c s IH]; intros b.
  - constructor; [reflexivity | constructor].
  - cbn [fields]. destruct (is_space c) eqn:E.
    + destruct b; [apply IH|]. constructor; [reflexivity | apply IH].
    + specialize (IH false).
      destruct (fields false s) as [|f fs]; cbn [add_to_first].
      * constructor; [simpl; now rewrite E | constructor].
      * inversion IH; subst. constructor; [simpl; now rewrite E | assumption].
Qed.

Lemma forallb_dropSlashes : forall (p : char -> bool) s,
  List.forallb p s = true -> List.forallb p (Path.dropSlashes s) = true.
Proof.
  intros p. induction s as [|c s IH]; intros H; [reflexivity|].
  simpl. destruct (N.eqb c Path.slash); [|exact H].
  simpl in H. apply andb_true_iff in H. now apply IH.
Qed.

Lemma forallb_takeToSlash : forall (p : char -> bool) s,
  List.forallb p s = true -> List.forallb p (Path.takeToSlash s) = true.
Proof.
  intros p. induction s as [|c s IH]; intros H; [reflexivity|].
  simpl in H. apply andb_true_iff in H. destruct H as [Hc Hs].
  simpl. destruct (N.eqb c Path.slash); [reflexivity|].
  simpl. rewrite Hc. now apply IH.
Qed.

Lemma takeToSlash_no_slash : forall s, no_slash (Path.takeToSlash s) = true.
Proof.
  induction s as [|c s IH]; [reflexivity|].
  simpl. destruct (N.eqb c Path.slash) eqn:E; [reflexivity|].
  unfold no_slash in *. simpl. now rewrite E, IH.
Qed.

Lemma forallb_basename : forall (p : char -> bool) s,
  List.forallb p s = true -> List.forallb p (Path.basename s) = true.
Proof.
  intros p s H. unfold Path.basename. rewrite forallb_rev_iff.
  apply forallb_takeToSlash, forallb_dropSlashes. now rewrite forallb_rev_iff.
Qed.

Lemma basename_no_slash : forall s, no_slash (Path.basename s) = true.
Proof.
  intros s. unfold Path.basename, no_slash. rewrite forallb_rev_iff.
  apply takeToSlash_no_slash.
Qed.

Lemma after_separator_at_separator : forall c s,
  is_single_separator c = true -> after_separator (trimStart (c :: s)) <> None.
Proof.
  intros c s H.
  assert (Hs : is_space c = false).
  { unfold is_single_separator in H.
    destruct (N.eqb_spec c pipe) as [->|_]; [reflexivity|].
    destruct (N.eqb_spec c semicolon) as [->|_]; [reflexivity|].
    destruct (N.eqb_spec c amp) as [->|_]; [reflexivity | discriminate]. }
  simpl. rewrite Hs. unfold after_separator. rewrite H.
  destruct s; [discriminate|]. destruct (_ || _); discriminate.
Qed.

Lemma plain_rev : forall s, plain (List.rev s) = plain s.
Proof. intros s. apply forallb_rev_iff. Qed.

(** No piece of a segmented command contains [|], [;] or [&]. *)
Lemma split_separator_pieces_loop : forall n acc prev s,
  List.length s < n -> plain acc = true ->
  Forall (fun piece => plain piece = true) (split_loop n re_separator acc prev s).
Proof.
  induction n as [|n IH]; intros acc prev s Hn Ha; [lia|].
  destruct s as [|c s].
  - simpl. constructor; [now rewrite plain_rev | constructor].
  - destruct (after_separator (trimStart (c :: s))) as [rest|] eqn:A.
    + destruct (split_separator_match n acc prev _ _ _ A) as [q E]. rewrite E.
      constructor; [now rewrite plain_rev|].
      apply IH; [|reflexivity].
      apply after_separator_shorter in A. pose proof (trimStart_length (c :: s)).
      simpl in *. lia.
    + rewrite split_separator_skip by assumption.
      apply IH; [simpl in Hn; lia|].
      rewrite plain_cons, Ha, andb_true_r. apply negb_true_iff.
      destruct (is_single_separator c) eqn:S1; [|reflexivity].
      now apply (after_separator_at_separator c s) in S1.
Qed.

Lemma split_separator_pieces : forall command,
  Forall (fun piece => plain piece = true) (split re_separator command).
Proof.
  intros command.
  rewrite <- (split_separator_loop command (S (List.length command)) None) by lia.
  apply split_separator_pieces_loop; [lia | reflexivity].
Qed.

Lemma commandToken_In : forall tokens t,
  commandToken tokens = Some t -> In t tokens.
Proof.
  intros tokens t H. rewrite commandToken_spec in H.
  destruct (firstNonWrapper tokens) as [x|] eqn:F.
  - injection H as <-. now apply firstNonWrapper_Some in F.
  - destruct tokens; [discriminate|]. injection H as <-. now left.
Qed.

Lemma name_char_forallb : forall s,
  no_slash s = true -> no_space s = true -> plain s = true ->
  List.forallb name_char s = true.
Proof.
  induction s as [|c s IH]; intros H1 H2 H3; [reflexivity|].
  unfold no_slash, no_space, plain in *. simpl in *.
  apply andb_true_iff in H1, H2, H3.
  destruct H1 as [A1 B1], H2 as [A2 B2], H3 as [A3 B3].
  unfold name_char at 1. rewrite A1, A2, A3. simpl. now apply IH.
Qed.

Lemma segmentCommandNames_chars : forall segment name,
  plain segment = true -> In name (segmentCommandNames segment) ->
  List.forallb name_char name = true.
Proof.
  intros segment name Hp Hin. unfold segmentCommandNames in Hin.
  destruct (truthy (trim segment)); [|contradiction]. cbn [negb] in Hin.
  destruct (commandToken (split re_spaces (trim segment))) as [tok|] eqn:C;
    [|contradiction].
  destruct (truthy tok); [|contradiction].
  destruct Hin as [<-|[]].
  apply commandToken_In in C. rewrite split_spaces in C.
  assert (Hpt : plain tok = true).
  { pose proof (forallb_fields _ (trim segment) false
                  (forallb_trim _ segment Hp)) as F.
    rewrite Forall_forall in F. now apply F. }
  assert (Hst : no_space tok = true).
  { pose proof (fields_no_space (trim segment) false) as F.
    rewrite Forall_forall in F. now apply F. }
  apply name_char_forallb.
  - apply basename_no_slash.
  - now apply forallb_basename.
  - now apply forallb_basename.
Qed.

(** X5.  A name returned by [extractAllCommandNames] contains no slash, no
    whitespace and none of the separator characters [|], [;], [&]. *)
Theorem extractAllCommandNames_chars : forall command name,
  In name (extractAllCommandNames command) ->
  List.forallb name_char name = true.
Proof.
  intros command name H. unfold extractAllCommandNames in H.
  apply in_flat_map in H. destruct H as [segment [Hs Hn]].
  pose proof (split_separator_pieces command) as F.
  rewrite Forall_forall in F.
  apply (segmentCommandNames_chars segment); [now apply F | assumption].
Qed.

Lemma extractAllCommandNames_chars_witness :
  List.forallb name_char (js "rm") = true.
Proof.
  apply (extractAllCommandNames_chars (js "/usr/bin/rm -rf /; ls") (js "rm")).
  vm_compute. left. reflexivity.
Defined.

(* --- basename --- *)


Lemma takeToSlash_stop : forall s t,
  no_slash s = true -> Path.takeToSlash (s ++ Path.slash :: t) = s.
Proof.
  induction s as [|c s IH]; intros t H.
  - reflexivity.
  - unfold no_slash in H. simpl in H. apply andb_true_iff in H. destruct H as [Hc Hs].
    apply negb_true_iff in Hc. simpl. rewrite Hc. f_equal. now apply IH.
Qed.



(** X6.  [extractCommandName] (POSIX [path.basename]) leaves a non-empty name
    without slash as it is, and strips any directory prefix and one
    trailing slash from a path that ends in such a name. *)
Theorem extractCommandName_path : forall name,
  name <> [] -> no_slash name = true ->
  extractCommandName name = name
  /\ (forall dir, extractCommandName (dir ++ Path.slash :: name) = name)
  /\ (forall dir, extractCommandName (dir ++ Path.slash :: name ++ [Path.slash]) = name).
Proof.
  intros name Hne Hs.
  assert (Hr : List.rev name <> []).
  { intros E. apply (f_equal (@List.rev char)) in E. rewrite rev_involutive in E.
    now apply Hne. }
  assert (Hsr : no_slash (List.rev name) = true) by now rewrite no_slash_rev.
  unfold extractCommandName, Path.basename. repeat split.
  - rewrite <- (app_nil_r (List.rev name)), dropSlashes_head by assumption.
    rewrite app_nil_r, takeToSlash_all by assumption. apply rev_involutive.
  - intros dir. rewrite rev_app_distr. cbn [List.rev]. rewrite <- app_assoc.
    rewrite dropSlashes_head by assumption.
    cbn [app]. rewrite takeToSlash_stop by assumption. apply rev_involutive.
  - intros dir.
    replace (List.rev (dir ++ Path.slash :: name ++ [Path.slash]))
      with (Path.slash :: List.rev name ++ Path.slash :: List.rev dir).
    + change (Path.dropSlashes (Path.slash :: ?x)) with (Path.dropSlashes x).
      rewrite dropSlashes_head by assumption.
      rewrite takeToSlash_stop by assumption. apply rev_involutive.
    + rewrite rev_app_distr. cbn [List.rev]. rewrite rev_app_distr.
      cbn [List.rev app]. now rewrite <- app_assoc.
Qed.

Lemma extractCommandName_path_witness :
  extractCommandName (js "/usr/bin/rm") = js "rm".
Proof.
  destruct (extractCommandName_path (js "rm") ltac:(discriminate) eq_refl)
    as [_ [H _]].
  exact (H (js "/usr/bin")).
Defined.

(* --- wrappers --- *)

Lemma wrapper_shape : forall w,
  In w wrappers -> w <> [] /\ no_space w = true /\ plain w = true.
Proof.
  intros w H. simpl in H.
  repeat (destruct H as [<-|H]; [repeat split; discriminate|]). contradiction.
Qed.

Lemma trimEnd_no_space_prefix : forall w s,
  no_space w = true -> all_space s = false -> trimEnd (w ++ s) = w ++ trimEnd s.
Proof.
  induction w as [|c w IH]; intros s Hw Hs; [reflexivity|].
  simpl in Hw. apply andb_true_iff in Hw. destruct Hw as [Hc Hw].
  apply negb_true_iff in Hc.
  simpl app. rewrite trimEnd_cons, all_space_cons, Hc. cbn [andb].
  now rewrite IH.
Qed.

Lemma trimStart_no_space_head : forall s,
  no_space_at_head s = true -> trimStart s = s.
Proof.
  intros [|c s] H; [reflexivity|]. simpl in *.
  apply negb_true_iff in H. now rewrite H.
Qed.

Lemma truthy_trim_not_all_space : forall s,
  truthy (trim s) = true -> all_space s = false.
Proof.
  intros s H. destruct (all_space s) eqn:A; [|reflexivity].
  apply trimStart_all_space in A. unfold trim in H. rewrite A in H. discriminate.
Qed.

(** The tokens of a wrapper followed by a segment. *)
Lemma tokens_after_wrapper : forall w s,
  In w wrappers -> truthy (trim s) = true ->
  trim (w ++ space :: s) = w ++ space :: trimEnd s
  /\ fields false (trim (w ++ space :: s)) = w :: fields false (trim s).
Proof.
  intros w s Hw Hs. destruct (wrapper_shape w Hw) as [Hne [Hns _]].
  apply truthy_trim_not_all_space in Hs.
  assert (E : trim (w ++ space :: s) = w ++ space :: trimEnd s).
  { unfold trim. rewrite trimStart_no_space_head by now apply no_space_head.
    rewrite trimEnd_no_space_prefix; [|assumption|].
    - rewrite trimEnd_cons, all_space_cons, Hs, andb_false_r. reflexivity.
    - now rewrite all_space_cons, Hs, andb_false_r. }
  split; [exact E|]. rewrite E.
  rewrite fields_no_space_prefix by assumption.
  rewrite fields_space_cons, fields_true_trim.
  unfold trim. rewrite <- trimStart_trimEnd. cbn [app_to_first].
  now rewrite app_nil_r.
Qed.

Lemma firstNonWrapper_exists : forall tokens t,
  In t tokens -> array_includes wrappers t = false ->
  exists t', firstNonWrapper tokens = Some t'.
Proof.
  induction tokens as [|x tokens IH]; intros t Hin Ht; [contradiction|].
  cbn [firstNonWrapper]. destruct (array_includes wrappers x) eqn:W.
  - destruct Hin as [->|Hin]; [congruence|]. now apply (IH t).
  - now exists x.
Qed.

(** X7.  Putting one of the wrappers ([sudo], [env], [command], [nohup],
    [nice], [time]) and a space in front of a single command (no
    separator character, at least one token that is not a wrapper) does
    not change the names [extractAllCommandNames] returns. *)
Theorem extractAllCommandNames_wrapper_prefix : forall w s t,
  In w wrappers -> plain s = true -> truthy (trim s) = true ->
  In t (split re_spaces (trim s)) -> array_includes wrappers t = false ->
  extractAllCommandNames (w ++ space :: s) = extractAllCommandNames s.
Proof.
  intros w s t Hw Hp Hs Hin Ht.
  destruct (wrapper_shape w Hw) as [_ [_ Hpw]].
  assert (Hpl : plain (w ++ space :: s) = true).
  { unfold plain in *. rewrite forallb_app, Hpw. simpl. exact Hp. }
  rewrite !extractAllCommandNames_plain by assumption.
  unfold segmentCommandNames.
  destruct (tokens_after_wrapper w s Hw Hs) as [E F].
  rewrite Hs. rewrite split_spaces in Hin. rewrite !split_spaces, F.
  assert (Ht' : truthy (trim (w ++ space :: s)) = true).
  { rewrite E. destruct (wrapper_shape w Hw) as [Hne _]. destruct w; [contradiction|reflexivity]. }
  rewrite Ht'. cbn [negb].
  rewrite !commandToken_spec. cbn [firstNonWrapper].
  replace (array_includes wrappers w) with true
    by (symmetry; now apply array_includes_In).
  destruct (firstNonWrapper_exists _ t Hin Ht) as [t' F']. now rewrite F'.
Qed.

Lemma extractAllCommandNames_wrapper_prefix_witness :
  extractAllCommandNames (js "sudo rm -rf /") = extractAllCommandNames (js "rm -rf /").
Proof.
  apply (extractAllCommandNames_wrapper_prefix (js "sudo") (js "rm -rf /") (js "rm")).
  - left. reflexivity.
  - reflexivity.
  - reflexivity.
  - vm_compute. left. reflexivity.
  - reflexivity.
Defined.

(* ===================================================================== *)
(** ** Further properties of the blocklist matcher                        *)
(* ===================================================================== *)

Section MatcherMore.

Variable toLowerCase : jsstring -> jsstring.
Variable newRegExp_i : jsstring -> Compiled.

Lemma some_pattern_blocks : forall command patterns enableBlocklist,
  isCommandBlocked toLowerCase newRegExp_i command patterns enableBlocklist = true
  <-> exists pattern,
        In pattern patterns
        /\ isCommandBlocked toLowerCase newRegExp_i command [pattern] enableBlocklist
           = true.
Proof.
  intros command patterns e. unfold isCommandBlocked.
  destruct (negb e || negb (truthy command)).
  - split; [discriminate|]. intros [p [_ H]]. discriminate.
  - rewrite existsb_exists. split.
    + intros [p [Hin H]]. exists p. split; [assumption|]. simpl. now rewrite H.
    + intros [p [Hin H]]. exists p. split; [assumption|].
      simpl in H. now rewrite orb_false_r in H.
Qed.

Lemma patterns_app : forall command ps1 ps2 enableBlocklist,
  isCommandBlocked toLowerCase newRegExp_i command (ps1 ++ ps2) enableBlocklist
  = isCommandBlocked toLowerCase newRegExp_i command ps1 enableBlocklist
    || isCommandBlocked toLowerCase newRegExp_i command ps2 enableBlocklist.
Proof.
  intros command ps1 ps2 e. unfold isCommandBlocked.
  destruct (negb e || negb (truthy command)); [reflexivity|].
  apply existsb_app.
Qed.

(** X8.  The patterns of a blocklist act independently: a command is blocked
    by a list of patterns exactly when one pattern of the list blocks it
    on its own; so the verdict for a concatenation is the disjunction of
    the verdicts, and the empty list blocks nothing. *)
Theorem isCommandBlocked_patterns_independent : forall command enableBlocklist,
  (forall patterns,
     isCommandBlocked toLowerCase newRegExp_i command patterns enableBlocklist = true
     <-> exists pattern,
           In pattern patterns
           /\ isCommandBlocked toLowerCase newRegExp_i command [pattern]
                               enableBlocklist = true)
  /\ (forall ps1 ps2,
        isCommandBlocked toLowerCase newRegExp_i command (ps1 ++ ps2) enableBlocklist
        = isCommandBlocked toLowerCase newRegExp_i command ps1 enableBlocklist
          || isCommandBlocked toLowerCase newRegExp_i command ps2 enableBlocklist)
  /\ isCommandBlocked toLowerCase newRegExp_i command [] enableBlocklist = false.
Proof.
  intros command e. split; [|split].
  - intros patterns. apply some_pattern_blocks.
  - intros ps1 ps2. apply patterns_app.
  - unfold isCommandBlocked. destruct (negb e || negb (truthy command)); reflexivity.
Qed.

(** X9.  With the blocklist enabled, a non-empty command is blocked as soon
    as the lower-cased name of one of its commands equals the lower-cased,
    trimmed text of a pattern that is not blank; no regular expression is
    consulted for this, so it holds whatever [RegExp] does. *)
Theorem isCommandBlocked_by_name : forall command patterns pattern name,
  truthy command = true ->
  In pattern patterns ->
  In name (extractAllCommandNames (normalizeCommand command)) ->
  toLowerCase name = trim (toLowerCase pattern) ->
  truthy (trim (toLowerCase pattern)) = true ->
  isCommandBlocked toLowerCase newRegExp_i command patterns true = true.
Proof.
  intros command patterns pattern name Hc Hp Hn E Ht.
  apply some_pattern_blocks. exists pattern. split; [assumption|].
  rewrite isCommandBlocked_single by assumption.
  unfold patternBlocks. cbv zeta. rewrite Ht. cbn [negb].
  replace (List.existsb _ _) with true; [reflexivity|].
  symmetry. apply existsb_exists. exists name. split; [assumption|].
  now apply eqb_eq.
Qed.

Lemma all_space_blank : forall p, all_space p = true -> truthy (trim p) = false.
Proof.
  intros p H. apply trimStart_all_space in H. unfold trim. now rewrite H.
Qed.

(** X10.  [validateBlocklistPattern] reports [isValid: false] exactly for
    the patterns made of whitespace only (the empty one included), then
    with the error [Pattern cannot be empty]; and it returns no error
    exactly when the pattern is not blank and compiles. *)
Theorem validateBlocklistPattern_rejects_blank : forall pattern,
  isValid (validateBlocklistPattern newRegExp_i pattern) = negb (all_space pattern)
  /\ (all_space pattern = true ->
      validateBlocklistPattern newRegExp_i pattern
      = {| isValid := false; error := Some (js "Pattern cannot be empty") |})
  /\ (error (validateBlocklistPattern newRegExp_i pattern) = None
      <-> all_space pattern = false
          /\ exists test_, newRegExp_i pattern = Regex test_).
Proof.
  intros pattern. unfold validateBlocklistPattern.
  destruct (all_space pattern) eqn:A.
  - rewrite (all_space_blank pattern A). cbn [negb].
    split; [reflexivity|]. split; [reflexivity|].
    split; [discriminate|]. intros [H _]. discriminate.
  - assert (T : truthy (trim pattern) = true).
    { destruct (truthy (trim pattern)) eqn:T; [reflexivity|].
      apply blank_all_space in T. congruence. }
    rewrite T. cbn [negb].
    destruct (newRegExp_i pattern) as [t|m] eqn:R; cbn.
    + split; [reflexivity|]. split; [discriminate|].
      split; [intros _; split; [reflexivity|now exists t] | reflexivity].
    + split; [reflexivity|]. split; [discriminate|].
      split; [discriminate|]. intros [_ [t Ht]]. discriminate.
Qed.

End MatcherMore.

Lemma isCommandBlocked_patterns_independent_witness :
  isCommandBlocked sample_toLowerCase sample_newRegExp_i
                   (js "rm -rf /") [js "ls"; js "rm"] true = true.
Proof.
  apply (proj1 (isCommandBlocked_patterns_independent
                  sample_toLowerCase sample_newRegExp_i (js "rm -rf /") true)).
  exists (js "rm"). split; [right; left; reflexivity | vm_compute; reflexivity].
Defined.

Lemma isCommandBlocked_by_name_witness :
  isCommandBlocked sample_toLowerCase sample_newRegExp_i
                   (js "sudo /usr/bin/rm -rf /") [js "ls"; js " RM "] true = true.
Proof.
  apply (isCommandBlocked_by_name sample_toLowerCase sample_newRegExp_i
           (js "sudo /usr/bin/rm -rf /") [js "ls"; js " RM "] (js " RM ") (js "rm")).
  - reflexivity.
  - right. left. reflexivity.
  - vm_compute. left. reflexivity.
  - vm_compute. reflexivity.
  - vm_compute. reflexivity.
Defined.

Lemma validateBlocklistPattern_rejects_blank_witness :
  validateBlocklistPattern sample_newRegExp_i (js "   ")
  = {| isValid := false; error := Some (js "Pattern cannot be empty") |}.
Proof.
  apply (proj1 (proj2 (validateBlocklistPattern_rejects_blank
                         sample_newRegExp_i (js "   ")))).
  reflexivity.
Defined.

(* ===================================================================== *)
(** ** Further properties of the type guards and the hooks                *)
(* ===================================================================== *)

Lemma hook_input_shape : forall input,
  isHookToolInput input = true ->
  exists props,
    input = VObject props
    /\ get props (js "tool_name") = VString (extractToolName input)
    /\ get props (js "tool_input") = VObject (extractToolInput input).
Proof.
  intros input H. unfold extractToolName, extractToolInput. rewrite H. cbn [negb].
  destruct input as [| | | | |props]; try discriminate.
  exists props. split; [reflexivity|]. unfold isHookToolInput in H.
  apply andb_true_iff in H. destruct H as [H1 H2].
  unfold tool_name, tool_input.
  destruct (get props (js "tool_name")); try discriminate.
  destruct (get props (js "tool_input")); try discriminate.
  split; reflexivity.
Qed.

Lemma guards_on_other_input : forall input,
  isHookToolInput input = false ->
  extractToolName input = [] /\ extractToolInput input = []
  /\ extractBashCommand input = []
  /\ isBashHookInput input = false /\ isFileHookInput input = false.
Proof.
  intros input H.
  unfold extractToolName, extractToolInput, extractBashCommand,
    isBashHookInput, isFileHookInput.
  rewrite H. repeat split.
Qed.

Lemma extractBashCommand_not_empty : forall input,
  extractBashCommand input <> [] ->
  isHookToolInput input = true
  /\ extractToolName input = js "Bash"
  /\ get (extractToolInput input) (js "command")
     = VString (extractBashCommand input).
Proof.
  intros input H. unfold extractBashCommand in *.
  unfold isBashHookInput in *. unfold extractToolName, extractToolInput.
  destruct (isHookToolInput input); [|contradiction]. cbn [negb] in *.
  destruct (eqb (tool_name input) (js "Bash")) eqn:E; [|contradiction].
  cbn [negb] in H. apply eqb_eq in E.
  destruct (get (tool_input input) (js "command")); try contradiction.
  repeat split. exact E.
Qed.

(** X11.  The extractors agree with the guards.  On an input that passes
    [isHookToolInput], [extractToolName] and [extractToolInput] return the
    input's own [tool_name] and [tool_input]; on any other input all three
    extractors return their empty default and the two narrower guards
    fail; and [extractBashCommand] returns a non-empty string only for a
    hook input of the tool [Bash], and then the string stored under
    [command]. *)
Theorem type_guards_extract_safely : forall input,
  (isHookToolInput input = true ->
   exists props,
     input = VObject props
     /\ get props (js "tool_name") = VString (extractToolName input)
     /\ get props (js "tool_input") = VObject (extractToolInput input))
  /\ (isHookToolInput input = false ->
      extractToolName input = [] /\ extractToolInput input = []
      /\ extractBashCommand input = []
      /\ isBashHookInput input = false /\ isFileHookInput input = false)
  /\ (extractBashCommand input <> [] ->
      isHookToolInput input = true
      /\ extractToolName input = js "Bash"
      /\ get (extractToolInput input) (js "command")
         = VString (extractBashCommand input)).
Proof.
  intros input. split; [apply hook_input_shape|].
  split; [apply guards_on_other_input | apply extractBashCommand_not_empty].
Qed.

Lemma type_guards_extract_safely_witness :
  isHookToolInput (toolCall (js "Bash") [(js "command", VString (js "ls"))]) = true
  /\ extractToolName (toolCall (js "Bash") [(js "command", VString (js "ls"))])
     = js "Bash"
  /\ get (extractToolInput (toolCall (js "Bash") [(js "command", VString (js "ls"))]))
         (js "command")
     = VString (extractBashCommand
                  (toolCall (js "Bash") [(js "command", VString (js "ls"))])).
Proof.
  apply (proj2 (proj2 (type_guards_extract_safely
                         (toolCall (js "Bash") [(js "command", VString (js "ls"))])))).
  vm_compute. discriminate.
Defined.

Section HooksMore.

Variable toLowerCase : jsstring -> jsstring.
Variable newRegExp_i : jsstring -> Compiled.
Variable PlatformBlockedCommands : Type.
Variable getBashToolBlockedCommands : PlatformBlockedCommands -> list jsstring.
Variable TOOL_BASH : jsstring.
Variable isFileTool : jsstring -> bool.
Variable isEditTool : jsstring -> bool.
Variable getPathFromToolInput : jsstring -> object -> option jsstring.
Variable findDangerousConstruct : jsstring -> option DangerousConstruct.
Variable findBashCommandPathViolation :
  jsstring -> (jsstring -> Traced PathAccessType) -> Traced (option PathViolation).
Variable getPathAccessType : jsstring -> PathAccessType.

Local Abbreviation vaultHook :=
  (createVaultRestrictionHook TOOL_BASH isFileTool isEditTool
     getPathFromToolInput findDangerousConstruct findBashCommandPathViolation
     getPathAccessType).

Local Abbreviation blocklistHook :=
  (createBlocklistHook toLowerCase newRegExp_i getBashToolBlockedCommands).

Local Abbreviation classify :=
  (fun p : jsstring => call (CallGetPathAccessType p) (getPathAccessType p)).

Lemma constructReason_prefix : forall d,
  startsWith (constructReason d) (js "Access denied: ") = true.
Proof. intros [p|p|c|p|p]; reflexivity. Qed.

(** X12.  Whatever the collaborators answer, every reason the vault
    restriction hook gives for a denial begins with [Access denied: ]. *)
Theorem vault_hook_denial_prefix : forall hookInput reason,
  fst (vaultHook hookInput) = Deny reason ->
  startsWith reason (js "Access denied: ") = true.
Proof.
  intros hookInput reason. unfold createVaultRestrictionHook.
  destruct (isHookToolInput hookInput); cbn [negb]; [|discriminate].
  destruct (eqb (extractToolName hookInput) TOOL_BASH).
  - unfold bind, call, ret.
    destruct (findDangerousConstruct (extractBashCommand hookInput)) as [d|].
    + cbn. intros H. injection H as <-. apply constructReason_prefix.
    + destruct (findBashCommandPathViolation _ _) as [[v|] t]; cbn;
        [|discriminate].
      intros H. injection H as <-.
      destruct (eqb (type_ v) _); reflexivity.
  - destruct (isFileTool (extractToolName hookInput)); cbn [negb]; [|discriminate].
    destruct (getPathFromToolInput _ _) as [filePath|]; [|discriminate].
    destruct (truthy filePath); [|discriminate].
    unfold bind, call, ret.
    destruct (_ || _); [discriminate|].
    destruct (isEditTool _ && _); [discriminate|].
    destruct (negb (isEditTool _) && _); cbn; intros H; injection H as <-;
      reflexivity.
Qed.

(** X13.  The vault restriction hook lets the call continue, without
    consulting the detector, the path validator or the classifier, when
    the input is not a hook tool input, and for a tool other than
    [TOOL_BASH] when the tool is not a file tool or when no path (or the
    empty path) is found in its input. *)
Theorem vault_hook_nothing_to_check : forall hookInput,
  (isHookToolInput hookInput = false -> vaultHook hookInput = (Continue, []))
  /\ (eqb (extractToolName hookInput) TOOL_BASH = false ->
      isFileTool (extractToolName hookInput) = false ->
      vaultHook hookInput = (Continue, []))
  /\ (eqb (extractToolName hookInput) TOOL_BASH = false ->
      getPathFromToolInput (extractToolName hookInput)
                           (extractToolInput hookInput) = None ->
      vaultHook hookInput = (Continue, []))
  /\ (eqb (extractToolName hookInput) TOOL_BASH = false ->
      getPathFromToolInput (extractToolName hookInput)
                           (extractToolInput hookInput) = Some [] ->
      vaultHook hookInput = (Continue, [])).
Proof.
  intros hookInput. unfold createVaultRestrictionHook.
  repeat split.
  - intros H. now rewrite H.
  - intros Hb Hf. rewrite Hb, Hf. destruct (isHookToolInput hookInput); reflexivity.
  - intros Hb Hp. rewrite Hb, Hp.
    destruct (isHookToolInput hookInput); [|reflexivity].
    destruct (isFileTool _); reflexivity.
  - intros Hb Hp. rewrite Hb, Hp.
    destruct (isHookToolInput hookInput); [|reflexivity].
    destruct (isFileTool _); reflexivity.
Qed.


(** X15.  The blocklist hook denies only a [Bash] hook input whose [command]
    is a non-empty string that [isCommandBlocked] blocks under the
    context's patterns with the blocklist enabled, and its reason is
    [Command blocked by blocklist: ] followed by that command. *)
Theorem blocklist_hook_denial : forall getContext hookInput reason,
  blocklistHook getContext hookInput = Deny reason ->
  isBashHookInput hookInput = true
  /\ enableBlocklist getContext = true
  /\ extractBashCommand hookInput <> []
  /\ get (extractToolInput hookInput) (js "command")
     = VString (extractBashCommand hookInput)
  /\ isCommandBlocked toLowerCase newRegExp_i (extractBashCommand hookInput)
       (getBashToolBlockedCommands (blockedCommands getContext)) true = true
  /\ reason = js "Command blocked by blocklist: " ++ extractBashCommand hookInput.
Proof.
  intros getContext hookInput reason. unfold createBlocklistHook.
  destruct (isHookToolInput hookInput) eqn:Hi; cbn [negb]; [|discriminate].
  destruct (isCommandBlocked _ _ _ _ _) eqn:B; [|discriminate].
  intros H. injection H as <-.
  assert (He : enableBlocklist getContext = true).
  { unfold isCommandBlocked in B. destruct (enableBlocklist getContext);
      [reflexivity | discriminate]. }
  assert (Hc : extractBashCommand hookInput <> []).
  { intros E. rewrite E in B. unfold isCommandBlocked in B.
    rewrite orb_true_r in B. discriminate. }
  destruct (extractBashCommand_not_empty hookInput Hc) as [_ [Hn Hg]].
  repeat split; try assumption.
  - unfold isBashHookInput. rewrite Hi. cbn [negb].
    unfold extractToolName in Hn. rewrite Hi in Hn. cbn [negb] in Hn.
    rewrite Hn. apply eqb_refl.
  - now rewrite He in B.
Qed.

End HooksMore.

Lemma vault_hook_denial_prefix_witness :
  startsWith (outsideReason (js "Path ") (js "/etc/passwd")) (js "Access denied: ")
  = true.
Proof.
  apply (vault_hook_denial_prefix (js "Bash") sample_isFileTool sample_isEditTool
           sample_getPathFromToolInput sample_findDangerousConstruct
           sample_findBashCommandPathViolation sample_getPathAccessType
           (toolCall (js "Read") [(js "file_path", VString (js "/etc/passwd"))])).
  vm_compute. reflexivity.
Defined.

Lemma vault_hook_nothing_to_check_witness :
  createVaultRestrictionHook (js "Bash") sample_isFileTool sample_isEditTool
    sample_getPathFromToolInput sample_findDangerousConstruct
    sample_findBashCommandPathViolation sample_getPathAccessType
    (toolCall (js "WebSearch") [(js "query", VString (js "/etc/passwd"))])
  = (Continue, []).
Proof.
  destruct (vault_hook_nothing_to_check (js "Bash") sample_isFileTool
              sample_isEditTool sample_getPathFromToolInput
              sample_findDangerousConstruct sample_findBashCommandPathViolation
              sample_getPathAccessType
              (toolCall (js "WebSearch") [(js "query", VString (js "/etc/passwd"))]))
    as [_ [H _]].
  apply H; reflexivity.
Defined.


Lemma blocklist_hook_denial_witness :
  isCommandBlocked sample_toLowerCase sample_newRegExp_i
    (extractBashCommand (toolCall (js "Bash") [(js "command", VString (js "rm -rf /"))]))
    [js "rm"] true = true.
Proof.
  apply (blocklist_hook_denial sample_toLowerCase sample_newRegExp_i
           (list jsstring) (fun patterns => patterns)
           {| blockedCommands := [js "rm"]; enableBlocklist := true |}
           (toolCall (js "Bash") [(js "command", VString (js "rm -rf /"))])
           (js "Command blocked by blocklist: rm -rf /")).
  vm_compute. reflexivity.
Defined.

(* ===================================================================== *)
(** ** SlashCommandStorage                                                *)
(* ===================================================================== *)

Lemma exec_char : forall c0 prev s,
  exec_at false (Char c0) prev s =
  match s with
  | c :: s' => if N.eqb c c0 then Some (Some c, s') else None
  | [] => None
  end.
Proof. intros c0 prev [|c s']; reflexivity. Qed.

Lemma exec_class : forall p prev s,
  exec_at false (CharSet p) prev s =
  match s with
  | c :: s' => if p c then Some (Some c, s') else None
  | [] => None
  end.
Proof.
  intros p prev [|c s']; [reflexivity|].
  unfold exec_at. cbn [matcher]. now rewrite in_class_false.
Qed.

Lemma replace_all_char_loop : forall c0 by_ n prev s,
  List.length s < n ->
  replace_loop n (Char c0) by_ prev s
  = List.flat_map (fun c => if N.eqb c c0 then by_ else [c]) s.
Proof.
  intros c0 by_. induction n as [|n IH]; intros prev s Hn; [lia|].
  cbn [replace_loop]. rewrite exec_char.
  destruct s as [|c s']; [reflexivity|].
  cbn [List.flat_map]. destruct (N.eqb c c0).
  - replace (List.length s' <? List.length (c :: s')) with true
      by (symmetry; apply Nat.ltb_lt; simpl; lia).
    f_equal. apply IH. simpl in Hn. lia.
  - cbn [app]. f_equal. apply IH. simpl in Hn. lia.
Qed.

Lemma replace_all_char : forall c0 by_ s,
  replace_all (Char c0) by_ s
  = List.flat_map (fun c => if N.eqb c c0 then by_ else [c]) s.
Proof. intros. apply replace_all_char_loop. lia. Qed.

Lemma replace_all_class_loop : forall p by_ n prev s,
  List.length s < n ->
  replace_loop n (CharSet p) by_ prev s
  = List.flat_map (fun c => if p c then by_ else [c]) s.
Proof.
  intros p by_. induction n as [|n IH]; intros prev s Hn; [lia|].
  cbn [replace_loop]. rewrite exec_class.
  destruct s as [|c s']; [reflexivity|].
  cbn [List.flat_map]. destruct (p c).
  - replace (List.length s' <? List.length (c :: s')) with true
      by (symmetry; apply Nat.ltb_lt; simpl; lia).
    f_equal. apply IH. simpl in Hn. lia.
  - cbn [app]. f_equal. apply IH. simpl in Hn. lia.
Qed.

Lemma replace_all_class : forall p by_ s,
  replace_all (CharSet p) by_ s
  = List.flat_map (fun c => if p c then by_ else [c]) s.
Proof. intros. apply replace_all_class_loop. lia. Qed.

Section SlashCommandStorageFacts.

Import SlashCommandStorage.

Lemma flat_map_twice : forall (f g : char -> jsstring) s,
  List.flat_map g (List.flat_map f s)
  = List.flat_map (fun c => List.flat_map g (f c)) s.
Proof.
  intros f g. induction s as [|c s IH]; [reflexivity|].
  simpl. now rewrite flat_map_app, IH.
Qed.

Lemma flat_map_pointwise : forall (f g : char -> jsstring) s,
  (forall c, f c = g c) -> List.flat_map f s = List.flat_map g s.
Proof.
  intros f g s H. induction s as [|c s IH]; [reflexivity|].
  simpl. now rewrite H, IH.
Qed.

(** The two replacements that build an id encode the path code unit by
    code unit. *)
Lemma escape_flat_map : forall s,
  replace_all re_slash (js "--") (replace_all re_dash (js "-_") s)
  = List.flat_map escapeChar s.
Proof.
  intros s. unfold re_slash, re_dash.
  rewrite !replace_all_char, flat_map_twice.
  apply flat_map_pointwise. intros c. unfold escapeChar.
  destruct (N.eqb_spec c dash) as [->|Hd]; [reflexivity|].
  cbn [List.flat_map]. rewrite app_nil_r.
  destruct (N.eqb c Path.slash); reflexivity.
Qed.

Lemma escape_injective : forall a b,
  List.flat_map escapeChar a = List.flat_map escapeChar b -> a = b.
Proof.
  induction a as [|x a IH]; intros b H.
  - destruct b as [|y b]; [reflexivity|].
    simpl in H. unfold escapeChar in H.
    destruct (N.eqb y dash); [discriminate|].
    destruct (N.eqb y Path.slash); discriminate.
  - destruct b as [|y b].
    + simpl in H. unfold escapeChar in H.
      destruct (N.eqb x dash); [discriminate|].
      destruct (N.eqb x Path.slash); discriminate.
    + cbn [List.flat_map] in H. unfold escapeChar in H.
      destruct (N.eqb_spec x dash) as [->|Hxd];
        destruct (N.eqb_spec y dash) as [->|Hyd].
      * injection H as H. f_equal. now apply IH.
      * destruct (N.eqb_spec y Path.slash) as [->|Hys].
        -- discriminate.
        -- injection H as E _. congruence.
      * destruct (N.eqb_spec x Path.slash) as [->|Hxs].
        -- discriminate.
        -- injection H as E _. congruence.
      * destruct (N.eqb_spec x Path.slash) as [->|Hxs];
          destruct (N.eqb_spec y Path.slash) as [->|Hys].
        -- injection H as H. f_equal. now apply IH.
        -- injection H as E _. congruence.
        -- injection H as E _. congruence.
        -- injection H as E H. subst. f_equal. now apply IH.
Qed.

Lemma startsWith_prefix : forall p s, startsWith (p ++ s) p = true.
Proof.
  induction p as [|c p IH]; intros s; [destruct s; reflexivity|].
  simpl. now rewrite N.eqb_refl, IH.
Qed.

Lemma skipn_prefix : forall (p s : jsstring), List.skipn (List.length p) (p ++ s) = s.
Proof. induction p as [|c p IH]; intros s; [reflexivity | apply IH]. Qed.

Lemma replace_string_prefix : forall p s by_,
  replace_string (p ++ s) p by_ = by_ ++ s.
Proof.
  intros p s by_.
  destruct (p ++ s) as [|c r] eqn:E.
  - destruct p; [|discriminate]. simpl in E. subst. reflexivity.
  - cbn [replace_string]. rewrite <- E, startsWith_prefix, skipn_prefix. reflexivity.
Qed.

Lemma exec_md_suffix : forall prev s,
  exec_at false re_md_suffix prev s
  = match s with
    | [a; b; c] =>
        if N.eqb a dot && N.eqb b 109 && N.eqb c 100 then Some (Some c, []) else None
    | _ => None
    end.
Proof.
  intros prev s. unfold exec_at, re_md_suffix. cbn [matcher canonicalize].
  destruct s as [|a [|b [|c [|d s]]]]; try reflexivity.
  - destruct (N.eqb a dot); reflexivity.
  - destruct (N.eqb a dot); [|reflexivity]. destruct (N.eqb b 109); reflexivity.
  - destruct (N.eqb a dot); [|reflexivity]. destruct (N.eqb b 109); [|reflexivity].
    destruct (N.eqb c 100); reflexivity.
  - destruct (N.eqb a dot); [|reflexivity]. destruct (N.eqb b 109); [|reflexivity].
    destruct (N.eqb c 100); reflexivity.
Qed.

(** Removing the suffix [.md] that was appended gives the string back. *)
Lemma replace_md_suffix : forall s prev,
  replace_first re_md_suffix [] prev (s ++ js ".md") = s.
Proof.
  induction s as [|x s IH]; intros prev.
  - reflexivity.
  - assert (E : exec_at false re_md_suffix prev ((x :: s) ++ js ".md") = None).
    { rewrite exec_md_suffix. destruct s as [|y [|z [|w s]]]; reflexivity. }
    change ((x :: s) ++ js ".md") with (x :: (s ++ js ".md")) in *.
    cbn [replace_first].
    rewrite E. f_equal. apply IH.
Qed.

Lemma filePathToName_of_path : forall rel,
  filePathToName (COMMANDS_PATH ++ js "/" ++ rel ++ js ".md") = rel.
Proof.
  intros rel. unfold filePathToName.
  rewrite app_assoc, replace_string_prefix. cbn [app].
  apply replace_md_suffix.
Qed.

Lemma filePathToId_of_path : forall rel,
  filePathToId (COMMANDS_PATH ++ js "/" ++ rel ++ js ".md")
  = js "cmd-" ++ List.flat_map escapeChar rel.
Proof.
  intros rel. unfold filePathToId. cbv zeta.
  rewrite app_assoc, replace_string_prefix. cbn [app].
  now rewrite replace_md_suffix, escape_flat_map.
Qed.

Lemma sanitize_map : forall s,
  replace_all re_unsafe [dash] s = List.map sanitizeChar s.
Proof.
  intros s. unfold re_unsafe. rewrite replace_all_class.
  induction s as [|c s IH]; [reflexivity|].
  cbn [List.flat_map List.map]. rewrite IH. unfold sanitizeChar.
  destruct (is_safe_name_char c); reflexivity.
Qed.

Lemma sanitize_safe : forall s,
  List.forallb is_safe_name_char s = true -> List.map sanitizeChar s = s.
Proof.
  induction s as [|c s IH]; intros H; [reflexivity|].
  simpl in H. apply andb_true_iff in H. destruct H as [Hc Hs].
  simpl. unfold sanitizeChar at 1. rewrite Hc. f_equal. now apply IH.
Qed.

Lemma sanitize_is_safe : forall s,
  List.forallb is_safe_name_char (List.map sanitizeChar s) = true.
Proof.
  induction s as [|c s IH]; [reflexivity|].
  simpl. rewrite IH, andb_true_r. unfold sanitizeChar.
  destruct (is_safe_name_char c) eqn:E; [assumption | reflexivity].
Qed.

(** X16.  [filePathToId] gives different ids to different command files of
    the commands folder: the encoding of [-] as [-_] and of [/] as [--]
    loses nothing. *)
Theorem command_id_injective : forall rel1 rel2,
  rel1 <> rel2 ->
  filePathToId (COMMANDS_PATH ++ js "/" ++ rel1 ++ js ".md")
  <> filePathToId (COMMANDS_PATH ++ js "/" ++ rel2 ++ js ".md").
Proof.
  intros rel1 rel2 Hne H. rewrite !filePathToId_of_path in H.
  apply app_inv_head in H. now apply Hne, escape_injective.
Qed.

(** X17.  For a global command file [rel.md], [parseFileFromGlobal] gives
    the name [rel]; different files get different ids; and the id of a
    global command is never the id [parseFile] gives to a vault command. *)
Theorem global_command_ids : forall parseSlashCommandContent content1 content2,
  (forall rel,
     name (parseFileFromGlobal parseSlashCommandContent content1 (rel ++ js ".md"))
     = rel)
  /\ (forall rel1 rel2,
        rel1 <> rel2 ->
        id (parseFileFromGlobal parseSlashCommandContent content1 (rel1 ++ js ".md"))
        <> id (parseFileFromGlobal parseSlashCommandContent content2
                                   (rel2 ++ js ".md")))
  /\ (forall filePath relativePath,
        id (parseFile parseSlashCommandContent content1 filePath)
        <> id (parseFileFromGlobal parseSlashCommandContent content2 relativePath)).
Proof.
  intros parse content1 content2. split; [|split].
  - intros rel. unfold parseFileFromGlobal. cbn [name]. apply replace_md_suffix.
  - intros rel1 rel2 Hne H. unfold parseFileFromGlobal in H. cbn [id] in H.
    rewrite !replace_md_suffix, !escape_flat_map in H.
    apply app_inv_head in H. now apply Hne, escape_injective.
  - intros filePath relativePath H. unfold parseFile, parseFileFromGlobal in H.
    cbn [id] in H. unfold filePathToId in H. cbv zeta in H. discriminate.
Qed.

(** X18.  The file a command is saved to reads back under the sanitised
    name: [filePathToName (getFilePath command)] is the command's name with
    every code unit outside [a-zA-Z0-9_/-] replaced by [-], and the id is
    built from that name; a name made of allowed characters only comes
    back unchanged. *)
Theorem command_file_round_trip : forall command,
  let safeName := List.map sanitizeChar (name command) in
  filePathToName (getFilePath command) = safeName
  /\ filePathToId (getFilePath command) = js "cmd-" ++ List.flat_map escapeChar safeName
  /\ List.forallb is_safe_name_char safeName = true
  /\ (List.forallb is_safe_name_char (name command) = true ->
      filePathToName (getFilePath command) = name command).
Proof.
  intros command safeName. unfold getFilePath. cbv zeta.
  rewrite sanitize_map. fold safeName.
  rewrite filePathToName_of_path, filePathToId_of_path.
  repeat split.
  - apply sanitize_is_safe.
  - intros H. unfold safeName. now apply sanitize_safe.
Qed.

Lemma array_includes_not_In : forall arr x, array_includes arr x = false <-> ~ In x arr.
Proof.
  intros arr x. rewrite <- array_includes_In.
  destruct (array_includes arr x); split; congruence.
Qed.

Lemma mergedCommands_In : forall pluginCommands globalCommands vaultCommands c,
  In c (mergedCommands pluginCommands globalCommands vaultCommands) <->
  In c vaultCommands
  \/ (In c globalCommands /\ ~ In (name c) (List.map name vaultCommands))
  \/ (In c pluginCommands /\ ~ In (name c) (List.map name globalCommands)
      /\ ~ In (name c) (List.map name vaultCommands)).
Proof.
  intros P G V c. unfold mergedCommands. cbv zeta.
  rewrite !in_app_iff, !filter_In, andb_true_iff, !negb_true_iff,
    !array_includes_not_In.
  tauto.
Qed.

(** X19.  The merge that ends [loadAll] loses no command name and lets the
    source of highest priority win: the names of the merged list are the
    names of the three sources; a merged command whose name is a vault
    name is a vault command; one whose name is a global name but no vault
    name is a global command; and the vault commands come last, all of
    them, in their order. *)
Theorem mergedCommands_priority : forall pluginCommands globalCommands vaultCommands,
  let merged := mergedCommands pluginCommands globalCommands vaultCommands in
  (forall n,
     In n (List.map name merged) <->
     In n (List.map name (pluginCommands ++ globalCommands ++ vaultCommands)))
  /\ (forall c, In c merged -> In (name c) (List.map name vaultCommands) ->
        In c vaultCommands)
  /\ (forall c, In c merged -> ~ In (name c) (List.map name vaultCommands) ->
        In (name c) (List.map name globalCommands) -> In c globalCommands)
  /\ (exists keptPlugins keptGlobals,
        merged = keptPlugins ++ keptGlobals ++ vaultCommands).
Proof.
  intros P G V merged. unfold merged. repeat split.
  - rewrite !in_map_iff. intros [c [E H]]. exists c. split; [assumption|].
    apply mergedCommands_In in H. rewrite !in_app_iff. tauto.
  - rewrite !in_map_iff. intros [c [E H]]. subst n.
    destruct (array_includes (List.map name V) (name c)) eqn:EV.
    + apply array_includes_In, in_map_iff in EV. destruct EV as [c' [E' H']].
      exists c'. split; [assumption|]. apply mergedCommands_In. now left.
    + apply array_includes_not_In in EV.
      destruct (array_includes (List.map name G) (name c)) eqn:EG.
      * apply array_includes_In, in_map_iff in EG. destruct EG as [c' [E' H']].
        exists c'. split; [assumption|]. apply mergedCommands_In. right. left.
        split; [assumption|]. now rewrite E'.
      * apply array_includes_not_In in EG.
        rewrite !in_app_iff in H. destruct H as [H|[H|H]].
        -- exists c. split; [reflexivity|]. apply mergedCommands_In. tauto.
        -- exfalso. apply EG, in_map_iff. now exists c.
        -- exfalso. apply EV, in_map_iff. now exists c.
  - intros c H HV. apply mergedCommands_In in H. tauto.
  - intros c H HV HG. apply mergedCommands_In in H.
    destruct H as [H|[H|H]]; [|tauto|tauto].
    exfalso. apply HV. now apply in_map.
  - eexists. eexists. unfold mergedCommands. cbv zeta. reflexivity.
Qed.

End SlashCommandStorageFacts.

Lemma command_id_injective_witness :
  SlashCommandStorage.filePathToId (js ".claude/commands/a/b.md")
  <> SlashCommandStorage.filePathToId (js ".claude/commands/a-b.md").
Proof.
  apply (command_id_injective (js "a/b") (js "a-b")).
  discriminate.
Defined.

Lemma global_command_ids_witness :
  SlashCommandStorage.id
    (SlashCommandStorage.parseFileFromGlobal
       (fun content_ =>
          {| SlashCommandStorage.parsed_description := None;
             SlashCommandStorage.parsed_argumentHint := None;
             SlashCommandStorage.parsed_allowedTools := None;
             SlashCommandStorage.parsed_model := None;
             SlashCommandStorage.promptContent := content_ |})
       (js "Review the code") (js "a/b.md"))
  <> SlashCommandStorage.id
       (SlashCommandStorage.parseFileFromGlobal
          (fun content_ =>
             {| SlashCommandStorage.parsed_description := None;
                SlashCommandStorage.parsed_argumentHint := None;
                SlashCommandStorage.parsed_allowedTools := None;
                SlashCommandStorage.parsed_model := None;
                SlashCommandStorage.promptContent := content_ |})
          (js "Deploy") (js "a-b.md")).
Proof.
  apply (proj1 (proj2 (global_command_ids
                         (fun content_ =>
                            {| SlashCommandStorage.parsed_description := None;
                               SlashCommandStorage.parsed_argumentHint := None;
                               SlashCommandStorage.parsed_allowedTools := None;
                               SlashCommandStorage.parsed_model := None;
                               SlashCommandStorage.promptContent := content_ |})
                         (js "Review the code") (js "Deploy")))
           (js "a/b") (js "a-b")).
  discriminate.
Defined.

Lemma command_file_round_trip_witness :
  SlashCommandStorage.filePathToName
    (SlashCommandStorage.getFilePath
       {| SlashCommandStorage.id := js "cmd-code--refactor";
          SlashCommandStorage.name := js "code/refactor";
          SlashCommandStorage.description := None;
          SlashCommandStorage.argumentHint := None;
          SlashCommandStorage.allowedTools := None;
          SlashCommandStorage.model := None;
          SlashCommandStorage.content := js "Refactor the selection" |})
  = js "code/refactor".
Proof.
  apply (proj2 (proj2 (proj2 (command_file_round_trip
           {| SlashCommandStorage.id := js "cmd-code--refactor";
              SlashCommandStorage.name := js "code/refactor";
              SlashCommandStorage.description := None;
              SlashCommandStorage.argumentHint := None;
              SlashCommandStorage.allowedTools := None;
              SlashCommandStorage.model := None;
              SlashCommandStorage.content := js "Refactor the selection" |})))).
  reflexivity.
Defined.

Lemma mergedCommands_priority_witness :
  In {| SlashCommandStorage.id := js "cmd-review";
        SlashCommandStorage.name := js "review";
        SlashCommandStorage.description := None;
        SlashCommandStorage.argumentHint := None;
        SlashCommandStorage.allowedTools := None;
        SlashCommandStorage.model := None;
        SlashCommandStorage.content := js "vault" |}
     [ {| SlashCommandStorage.id := js "cmd-review";
          SlashCommandStorage.name := js "review";
          SlashCommandStorage.description := None;
          SlashCommandStorage.argumentHint := None;
          SlashCommandStorage.allowedTools := None;
          SlashCommandStorage.model := None;
          SlashCommandStorage.content := js "vault" |} ].
Proof.
  apply (proj1 (proj2 (mergedCommands_priority
           [ {| SlashCommandStorage.id := js "plugin-p-review";
                SlashCommandStorage.name := js "review";
                SlashCommandStorage.description := None;
                SlashCommandStorage.argumentHint := None;
                SlashCommandStorage.allowedTools := None;
                SlashCommandStorage.model := None;
                SlashCommandStorage.content := js "plugin" |} ]
           [ {| SlashCommandStorage.id := js "global-cmd-review";
                SlashCommandStorage.name := js "review";
                SlashCommandStorage.description := None;
                SlashCommandStorage.argumentHint := None;
                SlashCommandStorage.allowedTools := None;
                SlashCommandStorage.model := None;
                SlashCommandStorage.content := js "global" |} ]
           [ {| SlashCommandStorage.id := js "cmd-review";
                SlashCommandStorage.name := js "review";
                SlashCommandStorage.description := None;
                SlashCommandStorage.argumentHint := None;
                SlashCommandStorage.allowedTools := None;
                SlashCommandStorage.model := None;
                SlashCommandStorage.content := js "vault" |} ]))).
  - vm_compute. left. reflexivity.
  - vm_compute. left. reflexivity.
Defined.

(* ===================================================================== *)
(** ** selectModelUsage                                                   *)
(* ===================================================================== *)

Section SelectModelUsageFacts.

Import SelectModelUsage.

Local Open Scope Z_scope.

Lemma ownProperty_In : forall entries key u,
  ownProperty entries key = Some u -> In (key, u) entries.
Proof.
  induction entries as [|[k v] rest IH]; intros key u H; [discriminate|].
  cbn [ownProperty] in H. destruct (eqb k key) eqn:E.
  - apply eqb_eq in E. injection H as ->. subst. now left.
  - right. now apply IH.
Qed.

Lemma named_own : forall entries m u,
  m <> [] -> ownProperty entries m = Some u ->
  named entries (Some m) = Some (m, Own u).
Proof.
  intros entries m u Hm H. unfold named, getProperty. rewrite H.
  destruct m; [congruence | reflexivity].
Qed.

Lemma named_Some : forall entries model m v,
  named entries model = Some (m, v) ->
  model = Some m /\ m <> []
  /\ match v with
     | Own u => ownProperty entries m = Some u
     | Inherited => ownProperty entries m = None /\ In m objectPrototypeKeys
     end.
Proof.
  intros entries [x|] m v H; [|discriminate].
  unfold named in H. destruct x as [|c x]; [discriminate|].
  cbn [truthy] in H.
  unfold getProperty in H.
  destruct (ownProperty entries (c :: x)) as [u|] eqn:E.
  - injection H as <- <-. repeat split; [discriminate | assumption].
  - destruct (array_includes objectPrototypeKeys (c :: x)) eqn:A; [|discriminate].
    injection H as <- <-. repeat split;
      [discriminate | assumption | now apply array_includes_In].
Qed.

Lemma gtb_trans : forall x y z, gtb x y = true -> gtb y z = true -> gtb x z = true.
Proof.
  intros [a| |] [b| |] [c| |]; cbn [gtb]; try congruence.
  rewrite !Z.gtb_ltb, !Z.ltb_lt. lia.
Qed.

Lemma gtb_above : forall x y z, gtb x z = false -> gtb y z = true -> gtb y x = true.
Proof.
  intros [a| |] [b| |] [c| |]; cbn [gtb]; try congruence.
  rewrite Z.gtb_ltb, Z.ltb_ge, !Z.gtb_ltb, !Z.ltb_lt. lia.
Qed.

(** Up to [2 ^ 53] in magnitude every integer is a double: nothing is
    rounded. *)
Lemma roundToDouble_exact : forall n,
  Z.abs n <= 2 ^ 53 -> roundToDouble n = Finite n.
Proof.
  intros n H. change (2 ^ 53) with 9007199254740992 in H.
  assert (B : (2 ^ 1024 <=? Z.abs n) = false).
  { apply Z.leb_gt. apply Z.le_lt_trans with (1 := H). reflexivity. }
  unfold roundToDouble. cbv zeta.
  destruct (Z.leb_spec (Z.log2 (Z.abs n)) 52) as [Hk|Hk].
  - rewrite B. f_equal. destruct n; reflexivity.
  - assert (P : 0 < Z.abs n).
    { destruct (Z.abs n) eqn:E; try lia. cbn in Hk. lia. }
    pose proof (Z.log2_spec _ P) as [L _].
    assert (L2 : 2 ^ 53 <= 2 ^ Z.log2 (Z.abs n)) by (apply Z.pow_le_mono_r; lia).
    change (2 ^ 53) with 9007199254740992 in L2.
    assert (E : Z.abs n = 9007199254740992) by lia.
    assert (C : n = 9007199254740992 \/ n = - 9007199254740992) by lia.
    destruct C as [-> | ->]; vm_compute; reflexivity.
Qed.

(** When the partial sums stay within [2 ^ 53], the context token count is
    the sum of the three counts. *)
Lemma contextTokens_exact : forall usage,
  Z.abs (orZero (inputTokens usage) + orZero (cacheCreationInputTokens usage))
  <= 2 ^ 53 ->
  Z.abs (orZero (inputTokens usage) + orZero (cacheCreationInputTokens usage)
         + orZero (cacheReadInputTokens usage)) <= 2 ^ 53 ->
  contextTokens usage
  = Finite (orZero (inputTokens usage) + orZero (cacheCreationInputTokens usage)
            + orZero (cacheReadInputTokens usage)).
Proof.
  intros usage H1 H2. unfold contextTokens. cbn [add].
  rewrite (roundToDouble_exact _ H1). cbn [add]. apply roundToDouble_exact, H2.
Qed.

(** The loop keeps the first entry whose count exceeds every count before
    it and is not exceeded after it. *)
Lemma pickHighest_spec : forall entries bestEntry maxTokens,
  (pickHighest entries bestEntry maxTokens = bestEntry
   /\ forall m u, In (m, u) entries -> gtb (contextTokens u) maxTokens = false)
  \/ (exists pre m u post,
        entries = pre ++ (m, u) :: post
        /\ pickHighest entries bestEntry maxTokens = Some (m, Own u)
        /\ gtb (contextTokens u) maxTokens = true
        /\ (forall m' u', In (m', u') pre ->
              gtb (contextTokens u) (contextTokens u') = true)
        /\ (forall m' u', In (m', u') post ->
              gtb (contextTokens u') (contextTokens u) = false)).
Proof.
  induction entries as [|[m u] rest IH]; intros bestEntry maxTokens.
  - left. split; [reflexivity | intros ? ? []].
  - cbn [pickHighest]. destruct (gtb (contextTokens u) maxTokens) eqn:Hgt.
    + right. destruct (IH (Some (m, Own u)) (contextTokens u))
        as [[E Hall]|[pre [m' [u' [post [E [R [Hlt [Hpre Hpost]]]]]]]]].
      * exists [], m, u, rest. repeat split; try assumption.
        intros ? ? [].
      * exists ((m, u) :: pre), m', u', post. subst rest. repeat split.
        -- assumption.
        -- now apply gtb_trans with (contextTokens u).
        -- intros m2 u2 [H|H]; [injection H as <- <-; assumption | eauto].
        -- assumption.
    + destruct (IH bestEntry maxTokens)
        as [[E Hall]|[pre [m' [u' [post [E [R [Hlt [Hpre Hpost]]]]]]]]].
      * left. split; [assumption|].
        intros m2 u2 [H|H]; [injection H as <- <-; assumption | eauto].
      * right. exists ((m, u) :: pre), m', u', post. subst rest. repeat split.
        -- assumption.
        -- assumption.
        -- intros m2 u2 [H|H];
             [injection H as <- <-; now apply gtb_above with maxTokens | eauto].
        -- assumption.
Qed.

(** X20.  When [messageModel] is a non-empty key of [usageByModel], the
    result is that entry; when [messageModel] selects nothing and
    [intendedModel] is a non-empty key of [usageByModel], the result is the
    entry of [intendedModel]. *)
Theorem selectModelUsage_named : forall usageByModel messageModel intendedModel m u,
  m <> [] ->
  ownProperty usageByModel m = Some u ->
  (messageModel = Some m
   \/ (named usageByModel messageModel = None /\ intendedModel = Some m)) ->
  selectModelUsage usageByModel messageModel intendedModel = Some (m, Own u)
  /\ In (m, u) usageByModel.
Proof.
  intros usageByModel messageModel intendedModel m u Hm Hown Hsel.
  split; [|now apply ownProperty_In].
  unfold selectModelUsage. cbv zeta.
  destruct usageByModel as [|e rest]; [discriminate|].
  destruct Hsel as [->|[Hnone ->]].
  - now rewrite (named_own _ m u Hm Hown).
  - now rewrite Hnone, (named_own _ m u Hm Hown).
Qed.

(** X21.  When neither [messageModel] nor [intendedModel] selects an entry,
    the result is the first entry, in the order of [Object.entries], whose
    context token count is the largest, provided that count is greater
    than -1: the counts before it are smaller, the counts after it are not
    greater.  The count is the sum the code computes, in doubles: input
    plus cache creation plus cache read tokens, a missing one being 0, each
    addition rounded.  The result is [null] only when there is no entry or
    no count is greater than -1. *)
Theorem selectModelUsage_highest : forall usageByModel messageModel intendedModel,
  named usageByModel messageModel = None ->
  named usageByModel intendedModel = None ->
  match selectModelUsage usageByModel messageModel intendedModel with
  | None =>
      forall m u, In (m, u) usageByModel ->
                  gtb (contextTokens u) (Finite (-1)) = false
  | Some (m, v) =>
      exists u pre post,
        v = Own u
        /\ usageByModel = pre ++ (m, u) :: post
        /\ gtb (contextTokens u) (Finite (-1)) = true
        /\ (forall m' u', In (m', u') pre ->
              gtb (contextTokens u) (contextTokens u') = true)
        /\ (forall m' u', In (m', u') post ->
              gtb (contextTokens u') (contextTokens u) = false)
  end.
Proof.
  intros usageByModel messageModel intendedModel H1 H2.
  unfold selectModelUsage. cbv zeta.
  destruct usageByModel as [|e rest]; [intros ? ? []|].
  rewrite H1, H2.
  destruct (pickHighest_spec (e :: rest) None (Finite (-1)))
    as [[E Hall]|[pre [m [u [post [E [R [Hlt [Hpre Hpost]]]]]]]]].
  - rewrite E. exact Hall.
  - rewrite R. exists u, pre, post. repeat split; assumption.
Qed.

(** X22.  What [selectModelUsage] returns is an entry of [usageByModel], with
    one exception: when the record is not empty and [messageModel] or
    [intendedModel] is the name of a property inherited from
    [Object.prototype] and no key of the record, that name is returned
    with the inherited property as its usage. *)
Theorem selectModelUsage_result : forall usageByModel messageModel intendedModel m v,
  selectModelUsage usageByModel messageModel intendedModel = Some (m, v) ->
  match v with
  | Own u => In (m, u) usageByModel
  | Inherited =>
      (messageModel = Some m \/ intendedModel = Some m)
      /\ In m objectPrototypeKeys /\ ownProperty usageByModel m = None
  end.
Proof.
  intros usageByModel messageModel intendedModel m v H.
  unfold selectModelUsage in H. cbv zeta in H.
  destruct usageByModel as [|e rest]; [discriminate|].
  destruct (named (e :: rest) messageModel) as [r|] eqn:N1.
  - injection H as ->. apply named_Some in N1. destruct N1 as [-> [_ Hv]].
    destruct v as [u|]; [now apply ownProperty_In | tauto].
  - destruct (named (e :: rest) intendedModel) as [r|] eqn:N2.
    + injection H as ->. apply named_Some in N2. destruct N2 as [-> [_ Hv]].
      destruct v as [u|]; [now apply ownProperty_In | tauto].
    + destruct (pickHighest_spec (e :: rest) None (Finite (-1)))
        as [[E Hall]|[pre [m' [u' [post [E [R [Hlt [Hpre Hpost]]]]]]]]].
      * rewrite E in H. discriminate.
      * rewrite R in H. injection H as <- <-. rewrite E.
        apply in_or_app. right. now left.
Qed.

(** Sums are rounded as the doubles of the code are: above [2 ^ 53] a
    tie goes to the even neighbour, and the largest sums overflow. *)
Example roundToDouble_rounds :
  roundToDouble (2 ^ 53 + 1) = Finite (2 ^ 53)
  /\ roundToDouble (2 ^ 53 + 3) = Finite (2 ^ 53 + 4)
  /\ roundToDouble (2 ^ 1024 - 2 ^ 970 - 1) = Finite ((2 ^ 53 - 1) * 2 ^ 971)
  /\ roundToDouble (2 ^ 1024 - 2 ^ 970) = PosInfinity.
Proof. repeat split; vm_compute; reflexivity. Qed.

(** Two entries whose exact sums differ, but not as doubles: the counts
    tie and the first entry stays. *)
Example selectModelUsage_rounded_tie :
  selectModelUsage
    [ (js "b", {| inputTokens := Some (2 ^ 53);
                  cacheCreationInputTokens := None;
                  cacheReadInputTokens := None |});
      (js "a", {| inputTokens := Some (2 ^ 53);
                  cacheCreationInputTokens := Some 1;
                  cacheReadInputTokens := None |}) ]
    None None
  = Some (js "b", Own {| inputTokens := Some (2 ^ 53);
                         cacheCreationInputTokens := None;
                         cacheReadInputTokens := None |}).
Proof. vm_compute. reflexivity. Qed.

End SelectModelUsageFacts.

Lemma selectModelUsage_named_witness :
  SelectModelUsage.selectModelUsage
    [ (js "opus",
       {| SelectModelUsage.inputTokens := Some 1200%Z;
          SelectModelUsage.cacheCreationInputTokens := None;
          SelectModelUsage.cacheReadInputTokens := Some 300%Z |});
      (js "haiku",
       {| SelectModelUsage.inputTokens := Some 9000%Z;
          SelectModelUsage.cacheCreationInputTokens := None;
          SelectModelUsage.cacheReadInputTokens := None |}) ]
    None (Some (js "opus"))
  = Some (js "opus",
          SelectModelUsage.Own
            {| SelectModelUsage.inputTokens := Some 1200%Z;
               SelectModelUsage.cacheCreationInputTokens := None;
               SelectModelUsage.cacheReadInputTokens := Some 300%Z |}).
Proof.
  apply (selectModelUsage_named
           [ (js "opus",
              {| SelectModelUsage.inputTokens := Some 1200%Z;
                 SelectModelUsage.cacheCreationInputTokens := None;
                 SelectModelUsage.cacheReadInputTokens := Some 300%Z |});
             (js "haiku",
              {| SelectModelUsage.inputTokens := Some 9000%Z;
                 SelectModelUsage.cacheCreationInputTokens := None;
                 SelectModelUsage.cacheReadInputTokens := None |}) ]
           None (Some (js "opus")) (js "opus")).
  - discriminate.
  - reflexivity.
  - right. split; reflexivity.
Defined.

Lemma selectModelUsage_highest_witness :
  match
    SelectModelUsage.selectModelUsage
      [ (js "b",
         {| SelectModelUsage.inputTokens := Some 9007199254740992%Z;
            SelectModelUsage.cacheCreationInputTokens := None;
            SelectModelUsage.cacheReadInputTokens := None |});
        (js "a",
         {| SelectModelUsage.inputTokens := Some 9007199254740992%Z;
            SelectModelUsage.cacheCreationInputTokens := Some 1%Z;
            SelectModelUsage.cacheReadInputTokens := None |}) ]
      None (Some (js "sonnet"))
  with
  | None =>
      forall m u,
        In (m, u)
           [ (js "b",
              {| SelectModelUsage.inputTokens := Some 9007199254740992%Z;
                 SelectModelUsage.cacheCreationInputTokens := None;
                 SelectModelUsage.cacheReadInputTokens := None |});
             (js "a",
              {| SelectModelUsage.inputTokens := Some 9007199254740992%Z;
                 SelectModelUsage.cacheCreationInputTokens := Some 1%Z;
                 SelectModelUsage.cacheReadInputTokens := None |}) ] ->
        SelectModelUsage.gtb (SelectModelUsage.contextTokens u)
                             (SelectModelUsage.Finite (-1)) = false
  | Some (m, v) =>
      exists u pre post,
        v = SelectModelUsage.Own u
        /\ [ (js "b",
              {| SelectModelUsage.inputTokens := Some 9007199254740992%Z;
                 SelectModelUsage.cacheCreationInputTokens := None;
                 SelectModelUsage.cacheReadInputTokens := None |});
             (js "a",
              {| SelectModelUsage.inputTokens := Some 9007199254740992%Z;
                 SelectModelUsage.cacheCreationInputTokens := Some 1%Z;
                 SelectModelUsage.cacheReadInputTokens := None |}) ]
           = pre ++ (m, u) :: post
        /\ SelectModelUsage.gtb (SelectModelUsage.contextTokens u)
                                (SelectModelUsage.Finite (-1)) = true
        /\ (forall m' u', In (m', u') pre ->
              SelectModelUsage.gtb (SelectModelUsage.contextTokens u)
                                   (SelectModelUsage.contextTokens u') = true)
        /\ (forall m' u', In (m', u') post ->
              SelectModelUsage.gtb (SelectModelUsage.contextTokens u')
                                   (SelectModelUsage.contextTokens u) = false)
  end.
Proof.
  apply (selectModelUsage_highest
           [ (js "b",
              {| SelectModelUsage.inputTokens := Some 9007199254740992%Z;
                 SelectModelUsage.cacheCreationInputTokens := None;
                 SelectModelUsage.cacheReadInputTokens := None |});
             (js "a",
              {| SelectModelUsage.inputTokens := Some 9007199254740992%Z;
                 SelectModelUsage.cacheCreationInputTokens := Some 1%Z;
                 SelectModelUsage.cacheReadInputTokens := None |}) ]
           None (Some (js "sonnet"))); reflexivity.
Defined.

Lemma selectModelUsage_result_witness :
  (Some (js "constructor") = Some (js "constructor")
   \/ @None jsstring = Some (js "constructor"))
  /\ In (js "constructor") SelectModelUsage.objectPrototypeKeys
  /\ SelectModelUsage.ownProperty
       [ (js "opus",
          {| SelectModelUsage.inputTokens := Some 1200%Z;
             SelectModelUsage.cacheCreationInputTokens := None;
             SelectModelUsage.cacheReadInputTokens := Some 300%Z |}) ]
       (js "constructor")
     = None.
Proof.
  apply (selectModelUsage_result
           [ (js "opus",
              {| SelectModelUsage.inputTokens := Some 1200%Z;
                 SelectModelUsage.cacheCreationInputTokens := None;
                 SelectModelUsage.cacheReadInputTokens := Some 300%Z |}) ]
           (Some (js "constructor")) None (js "constructor")
           SelectModelUsage.Inherited).
  reflexivity.
Defined.

(* ===================================================================== *)
(** ** TtlMap                                                             *)
(* ===================================================================== *)

Section TtlMapFacts.

Variables K V : Type.
Variable K_eqb : K -> K -> bool.
Hypothesis K_eqb_eq : forall a b, K_eqb a b = true <-> a = b.

Local Open Scope Z_scope.

Local Abbreviation Entries := (TtlMap.Entries K V).
Local Abbreviation map_get := (@TtlMap.map_get K V K_eqb).
Local Abbreviation map_set := (@TtlMap.map_set K V K_eqb).
Local Abbreviation map_delete := (@TtlMap.map_delete K V K_eqb).
Local Abbreviation get := (@TtlMap.get K V K_eqb).
Local Abbreviation set := (@TtlMap.set K V K_eqb).
Local Abbreviation getAndDelete := (@TtlMap.getAndDelete K V K_eqb).
Local Abbreviation has := (@TtlMap.has K V K_eqb).
Local Abbreviation delete := (@TtlMap.delete K V K_eqb).
Local Abbreviation cleanup := (@TtlMap.cleanup K V).

Lemma K_eqb_refl : forall a, K_eqb a a = true.
Proof. intros a. now apply K_eqb_eq. Qed.

Lemma K_eqb_neq : forall a b, a <> b -> K_eqb a b = false.
Proof.
  intros a b H. destruct (K_eqb a b) eqn:E; [|reflexivity].
  apply K_eqb_eq in E. contradiction.
Qed.

Lemma map_get_set_same : forall (m : Entries) k e,
  map_get (map_set m k e) k = Some e.
Proof.
  induction m as [|[k0 e0] m IH]; intros k e; cbn [TtlMap.map_set TtlMap.map_get].
  - now rewrite K_eqb_refl.
  - destruct (K_eqb k0 k) eqn:E; cbn [TtlMap.map_get]; rewrite E; [reflexivity | apply IH].
Qed.

Lemma map_get_set_other : forall (m : Entries) k e k',
  k' <> k -> map_get (map_set m k e) k' = map_get m k'.
Proof.
  induction m as [|[k0 e0] m IH]; intros k e k' H; cbn [TtlMap.map_set TtlMap.map_get].
  - rewrite K_eqb_neq; [reflexivity | congruence].
  - destruct (K_eqb k0 k) eqn:E; cbn [TtlMap.map_get].
    + apply K_eqb_eq in E. subst k0. rewrite K_eqb_neq; [reflexivity | congruence].
    + destruct (K_eqb k0 k'); [reflexivity | now apply IH].
Qed.

Lemma map_get_delete_same : forall (m : Entries) k,
  map_get (map_delete m k) k = None.
Proof.
  induction m as [|[k0 e0] m IH]; intros k; [reflexivity|].
  unfold TtlMap.map_delete. cbn [List.filter fst].
  destruct (K_eqb k0 k) eqn:E; cbn [negb]; [apply IH|].
  cbn [TtlMap.map_get]. rewrite E. apply IH.
Qed.

Lemma map_get_delete_other : forall (m : Entries) k k',
  k' <> k -> map_get (map_delete m k) k' = map_get m k'.
Proof.
  induction m as [|[k0 e0] m IH]; intros k k' H; [reflexivity|].
  unfold TtlMap.map_delete. cbn [List.filter fst].
  destruct (K_eqb k0 k) eqn:E; cbn [negb TtlMap.map_get].
  - apply K_eqb_eq in E. subst k0. rewrite K_eqb_neq by congruence. now apply IH.
  - destruct (K_eqb k0 k'); [reflexivity | now apply IH].
Qed.

Lemma map_get_absent : forall (m : Entries) k,
  ~ In k (List.map fst m) -> map_get m k = None.
Proof.
  induction m as [|[k0 e0] m IH]; intros k H; [reflexivity|].
  cbn [TtlMap.map_get]. cbn [List.map fst In] in H.
  rewrite K_eqb_neq by tauto. apply IH. tauto.
Qed.

Lemma map_get_In : forall (m : Entries) k e,
  map_get m k = Some e -> In (k, e) m.
Proof.
  induction m as [|[k0 e0] m IH]; intros k e H; [discriminate|].
  cbn [TtlMap.map_get] in H. destruct (K_eqb k0 k) eqn:E.
  - apply K_eqb_eq in E. injection H as ->. subst. now left.
  - right. now apply IH.
Qed.

Lemma filter_keys_incl : forall (p : K * TtlMap.TtlEntry V -> bool) (m : Entries) k,
  In k (List.map fst (List.filter p m)) -> In k (List.map fst m).
Proof.
  intros p m k H. apply in_map_iff in H. destruct H as [ke [E H]].
  apply filter_In in H. apply in_map_iff. exists ke. tauto.
Qed.

Lemma filter_keys_NoDup : forall (p : K * TtlMap.TtlEntry V -> bool) (m : Entries),
  NoDup (List.map fst m) -> NoDup (List.map fst (List.filter p m)).
Proof.
  intros p. induction m as [|ke m IH]; intros H; [constructor|].
  cbn [List.map] in H. inversion H as [|? ? Hn Hd]; subst.
  cbn [List.filter]. destruct (p ke); [|now apply IH].
  cbn [List.map]. constructor; [|now apply IH].
  intros Hin. apply Hn. eapply filter_keys_incl. eassumption.
Qed.

Lemma map_set_keys : forall (m : Entries) k e k',
  In k' (List.map fst (map_set m k e)) <-> k' = k \/ In k' (List.map fst m).
Proof.
  induction m as [|[k0 e0] m IH]; intros k e k'; cbn [TtlMap.map_set].
  - cbn [List.map fst In]. split; intros [H|H]; auto.
  - destruct (K_eqb k0 k) eqn:E; cbn [List.map fst In].
    + apply K_eqb_eq in E. subst k0. split; [tauto|]. intros [H|H]; auto.
    + rewrite IH. split; [tauto|]. tauto.
Qed.

Lemma map_set_NoDup : forall (m : Entries) k e,
  NoDup (List.map fst m) -> NoDup (List.map fst (map_set m k e)).
Proof.
  induction m as [|[k0 e0] m IH]; intros k e H; cbn [TtlMap.map_set].
  - cbn [List.map fst]. constructor; [intros [] | constructor].
  - cbn [List.map fst] in H. inversion H as [|? ? Hn Hd]; subst.
    destruct (K_eqb k0 k) eqn:E; cbn [List.map fst].
    + now constructor.
    + constructor; [|now apply IH].
      rewrite map_set_keys. intros [H1|H1]; [|contradiction].
      subst k0. rewrite K_eqb_refl in E. discriminate.
Qed.

(** With one entry per key, filtering the entries filters what a key
    finds. *)
Lemma map_get_filter : forall (p : K * TtlMap.TtlEntry V -> bool) (m : Entries) k,
  NoDup (List.map fst m) ->
  map_get (List.filter p m) k
  = match map_get m k with
    | Some e => if p (k, e) then Some e else None
    | None => None
    end.
Proof.
  intros p. induction m as [|[k0 e0] m IH]; intros k H; [reflexivity|].
  cbn [List.map fst] in H. inversion H as [|? ? Hn Hd]; subst.
  cbn [List.filter TtlMap.map_get].
  destruct (K_eqb k0 k) eqn:E.
  - apply K_eqb_eq in E. subst k0.
    destruct (p (k, e0)).
    + cbn [TtlMap.map_get]. now rewrite K_eqb_refl.
    + apply map_get_absent. intros Hin. apply Hn.
      eapply filter_keys_incl. eassumption.
  - destruct (p (k0, e0)).
    + cbn [TtlMap.map_get]. rewrite E. now apply IH.
    + now apply IH.
Qed.

(** X23.  After [set] at time [now], [get] on the same key at time [now']
    returns the value stored if [now'] is at most [now + ttlMs] and
    [undefined] after that, whatever the map held before; the other keys
    read as before. *)
Theorem ttl_set_then_get : forall this now now' key v,
  fst (get now' key (set now key v this))
  = (if now' >? now + TtlMap.ttlMs this then None else v)
  /\ (forall key', key' <> key ->
        fst (get now' key' (set now key v this)) = fst (get now' key' this)).
Proof.
  intros this now now' key v. split.
  - unfold TtlMap.get, TtlMap.set. cbn [TtlMap.map TtlMap.with_map].
    rewrite map_get_set_same. cbn [TtlMap.expiresAt TtlMap.value].
    destruct (now' >? now + TtlMap.ttlMs this); reflexivity.
  - intros key' H. unfold TtlMap.get, TtlMap.set. cbn [TtlMap.map TtlMap.with_map].
    rewrite map_get_set_other by assumption.
    destruct (TtlMap.map_get K_eqb (TtlMap.map this) key') as [e|]; [|reflexivity].
    destruct (now' >? TtlMap.expiresAt e); reflexivity.
Qed.

Lemma get_map_cases : forall this now key,
  TtlMap.map (snd (get now key this)) = TtlMap.map this
  \/ TtlMap.map (snd (get now key this)) = map_delete (TtlMap.map this) key.
Proof.
  intros this now key. unfold TtlMap.get.
  destruct (TtlMap.map_get K_eqb (TtlMap.map this) key) as [e|]; [|now left].
  destruct (now >? TtlMap.expiresAt e); [now right | now left].
Qed.

Lemma get_value : forall this now key,
  fst (get now key this)
  = match map_get (TtlMap.map this) key with
    | Some e => if now >? TtlMap.expiresAt e then None else TtlMap.value e
    | None => None
    end.
Proof.
  intros this now key. unfold TtlMap.get.
  destruct (TtlMap.map_get K_eqb (TtlMap.map this) key) as [e|]; [|reflexivity].
  destruct (now >? TtlMap.expiresAt e); reflexivity.
Qed.

(** X24.  [getAndDelete] returns what [get] returns at that time; after it,
    [get] on that key returns [undefined] at any time; the other keys read
    as before. *)
Theorem ttl_getAndDelete_once : forall this now key,
  fst (getAndDelete now key this) = fst (get now key this)
  /\ (forall now', fst (get now' key (snd (getAndDelete now key this))) = None)
  /\ (forall now' key', key' <> key ->
        fst (get now' key' (snd (getAndDelete now key this)))
        = fst (get now' key' this)).
Proof.
  intros this now key.
  assert (M : fst (getAndDelete now key this) = fst (get now key this)
              /\ (TtlMap.map (snd (getAndDelete now key this))
                  = map_delete (TtlMap.map this) key
                  \/ (TtlMap.map (snd (getAndDelete now key this)) = TtlMap.map this
                      /\ forall now', fst (get now' key this) = None))).
  { unfold TtlMap.getAndDelete, TtlMap.get.
    destruct (TtlMap.map_get K_eqb (TtlMap.map this) key) as [e|] eqn:G.
    - destruct (now >? TtlMap.expiresAt e) eqn:X.
      + cbn [fst snd TtlMap.map TtlMap.with_map]. split; [reflexivity | now left].
      + destruct (TtlMap.value e) as [v|] eqn:Ev.
        * cbn [fst snd TtlMap.map TtlMap.with_map]. split; [reflexivity | now left].
        * cbn [fst snd]. split; [reflexivity|]. right. split; [reflexivity|].
          intros now'. destruct (now' >? TtlMap.expiresAt e); reflexivity.
    - cbn [fst snd]. split; [reflexivity|]. right. split; reflexivity. }
  destruct M as [M1 M2]. split; [exact M1|]. split.
  - intros now'. rewrite get_value.
    destruct M2 as [E|[E N]]; rewrite E.
    + now rewrite map_get_delete_same.
    + rewrite <- get_value. apply N.
  - intros now' key' H. rewrite !get_value.
    destruct M2 as [E|[E N]]; rewrite E.
    + now rewrite map_get_delete_other.
    + reflexivity.
Qed.

(** X25.  [cleanup] at time [now] keeps exactly the entries with
    [now <= expiresAt], so it never makes the map larger, and no [get] at
    that time or later can tell whether it ran. *)
Theorem ttl_cleanup_unobservable : forall this now,
  unique_keys this ->
  (forall now' key, now <= now' ->
     fst (get now' key (cleanup now this)) = fst (get now' key this))
  /\ (forall key entry, In (key, entry) (TtlMap.map (cleanup now this)) <->
        In (key, entry) (TtlMap.map this) /\ now <= TtlMap.expiresAt entry)
  /\ (TtlMap.size (cleanup now this) <= TtlMap.size this)%nat.
Proof.
  intros this now U. repeat split.
  - intros now' key Hle. unfold TtlMap.get, TtlMap.cleanup.
    cbn [TtlMap.map TtlMap.with_map].
    rewrite map_get_filter by exact U.
    destruct (TtlMap.map_get K_eqb (TtlMap.map this) key) as [e|]; [|reflexivity].
    cbn [snd]. destruct (Z.gtb_spec now (TtlMap.expiresAt e)) as [Hx|Hx]; cbn [negb].
    + destruct (Z.gtb_spec now' (TtlMap.expiresAt e)); [reflexivity | lia].
    + destruct (now' >? TtlMap.expiresAt e); reflexivity.
  - unfold TtlMap.cleanup in H. cbn [TtlMap.map TtlMap.with_map] in H.
    apply filter_In in H. tauto.
  - unfold TtlMap.cleanup in H. cbn [TtlMap.map TtlMap.with_map] in H.
    apply filter_In in H. destruct H as [_ H]. cbn [snd] in H.
    apply negb_true_iff in H.
    destruct (Z.gtb_spec now (TtlMap.expiresAt entry)); [discriminate | assumption].
  - intros [Hin Hle]. unfold TtlMap.cleanup. cbn [TtlMap.map TtlMap.with_map].
    apply filter_In. split; [assumption|]. cbn [snd]. apply negb_true_iff.
    destruct (Z.gtb_spec now (TtlMap.expiresAt entry)); [lia | reflexivity].
  - unfold TtlMap.size, TtlMap.cleanup. cbn [TtlMap.map TtlMap.with_map].
    apply filter_length_le.
Qed.

Lemma unique_keys_step : forall this,
  unique_keys this ->
  (forall now key v, unique_keys (set now key v this))
  /\ (forall now key, unique_keys (snd (get now key this)))
  /\ (forall now key, unique_keys (snd (getAndDelete now key this)))
  /\ (forall now key, unique_keys (snd (has now key this)))
  /\ (forall key, unique_keys (snd (delete key this)))
  /\ (forall now, unique_keys (cleanup now this))
  /\ unique_keys (TtlMap.clear this)
  /\ unique_keys (TtlMap.dispose this).
Proof.
  intros this U. unfold unique_keys in *.
  assert (G : forall now key, NoDup (List.map fst (TtlMap.map (snd (get now key this))))).
  { intros now key. destruct (get_map_cases this now key) as [E|E]; rewrite E.
    - exact U.
    - now apply filter_keys_NoDup. }
  repeat split.
  - intros now key v. unfold TtlMap.set. cbn [TtlMap.map TtlMap.with_map].
    now apply map_set_NoDup.
  - exact G.
  - intros now key. unfold TtlMap.getAndDelete.
    specialize (G now key).
    destruct (TtlMap.get K_eqb now key this) as [[v|] this1]; cbn [snd] in *.
    + cbn [TtlMap.map TtlMap.with_map]. now apply filter_keys_NoDup.
    + exact G.
  - intros now key. unfold TtlMap.has. specialize (G now key).
    destruct (TtlMap.get K_eqb now key this) as [v this1]. exact G.
  - intros key. unfold TtlMap.delete. cbn [snd TtlMap.map TtlMap.with_map].
    now apply filter_keys_NoDup.
  - intros now. unfold TtlMap.cleanup. cbn [TtlMap.map TtlMap.with_map].
    now apply filter_keys_NoDup.
  - cbn. constructor.
  - cbn. constructor.
Qed.

Lemma unique_keys_constructor : forall ttlMs cleanupIntervalMs,
  unique_keys (TtlMap.constructor K V ttlMs cleanupIntervalMs).
Proof. intros ttlMs cleanupIntervalMs. unfold unique_keys. cbn. constructor. Qed.

End TtlMapFacts.

Lemma ttl_set_then_get_witness :
  fst (TtlMap.get N.eqb 1100%Z 7%N
         (TtlMap.set N.eqb 1000%Z 7%N (Some (js "answer"))
            (TtlMap.constructor N jsstring 300000%Z 60000%Z)))
  = Some (js "answer")
  /\ fst (TtlMap.get N.eqb 301001%Z 7%N
            (TtlMap.set N.eqb 1000%Z 7%N (Some (js "answer"))
               (TtlMap.constructor N jsstring 300000%Z 60000%Z)))
     = None.
Proof.
  split.
  - exact (proj1 (ttl_set_then_get N jsstring N.eqb N.eqb_eq
                    (TtlMap.constructor N jsstring 300000%Z 60000%Z)
                    1000%Z 1100%Z 7%N (Some (js "answer")))).
  - exact (proj1 (ttl_set_then_get N jsstring N.eqb N.eqb_eq
                    (TtlMap.constructor N jsstring 300000%Z 60000%Z)
                    1000%Z 301001%Z 7%N (Some (js "answer")))).
Defined.

Lemma ttl_getAndDelete_once_witness :
  fst (TtlMap.get N.eqb 1200%Z 7%N
         (snd (TtlMap.getAndDelete N.eqb 1100%Z 7%N
                 (TtlMap.set N.eqb 1000%Z 7%N (Some (js "answer"))
                    (TtlMap.constructor N jsstring 300000%Z 60000%Z)))))
  = None.
Proof.
  exact (proj1 (proj2 (ttl_getAndDelete_once N jsstring N.eqb N.eqb_eq
                         (TtlMap.set N.eqb 1000%Z 7%N (Some (js "answer"))
                            (TtlMap.constructor N jsstring 300000%Z 60000%Z))
                         1100%Z 7%N))
               1200%Z).
Defined.

Lemma ttl_cleanup_unobservable_witness :
  fst (TtlMap.get N.eqb 2000%Z 7%N
         (TtlMap.cleanup 1500%Z
            (TtlMap.set N.eqb 1000%Z 7%N (Some (js "answer"))
               (TtlMap.constructor N jsstring 300000%Z 60000%Z))))
  = fst (TtlMap.get N.eqb 2000%Z 7%N
           (TtlMap.set N.eqb 1000%Z 7%N (Some (js "answer"))
              (TtlMap.constructor N jsstring 300000%Z 60000%Z))).
Proof.
  apply (proj1 (ttl_cleanup_unobservable N jsstring N.eqb N.eqb_eq
                  (TtlMap.set N.eqb 1000%Z 7%N (Some (js "answer"))
                     (TtlMap.constructor N jsstring 300000%Z 60000%Z))
                  1500%Z
                  ltac:(unfold unique_keys; vm_compute; repeat constructor; intros []))).
  vm_compute. discriminate.
Defined.
